(** * cramCortex: the chunked LLM pipeline, embedded and verified

    A shallow embedding of the text pipeline of the cramCortex back end
    ([app/services/hebrew_translator.py], [app/services/llm_service.py],
    [app/api/analysis.py] and, around them, [app/services/simple_pdf_parser.py]
    and [app/services/llm_question_analyzer.py]), the properties its
    specification states and further properties of the code.

    Python [str] values are sequences of Unicode code points: a character
    is a code point in [N], a string a list of them.  The remote model is an
    oracle; every call made to it is recorded in a log. *)

From Stdlib Require Import List NArith Arith Lia Bool String Ascii DecimalString QArith.
From Stdlib Require Import DecimalNat.
From stdpp Require Import gmap.
Import ListNotations.

Local Open Scope N_scope.

(** ** Python strings *)

Module Py.

Definition char := N.
Definition str := list char.

(** An ASCII literal of the source, as code points. *)
Definition lit (s : string) : str := List.map N_of_ascii (list_ascii_of_string s).

Definition nl : char := 10.
Definition sp : char := 32.

Definition in_range (lo hi c : char) : bool := (lo <=? c) && (c <=? hi).

Definition mem (c : char) (l : list char) : bool := List.existsb (N.eqb c) l.

(** [str.isspace] on one character, which is also the class [\s] of [re] on
    [str] patterns. *)
Definition isspace (c : char) : bool :=
  in_range 9 13 c || in_range 28 32 c || mem c [133; 160; 5760]
  || in_range 8192 8202 c || mem c [8232; 8233; 8239; 8287; 12288].

Fixpoint eqb (a b : str) : bool :=
  match a, b with
  | [], [] => true
  | x :: a', y :: b' => N.eqb x y && eqb a' b'
  | _, _ => false
  end.

Fixpoint dropwhile (p : char -> bool) (s : str) : str :=
  match s with
  | [] => []
  | c :: t => if p c then dropwhile p t else s
  end.

Definition lstrip (s : str) : str := dropwhile isspace s.

(** [s.rstrip()]: what is left of [c :: t] is empty when [c] and all of [t]
    are white space. *)
Fixpoint rstrip (s : str) : str :=
  match s with
  | [] => []
  | c :: t =>
      match rstrip t with
      | [] => if isspace c then [] else [c]
      | x :: kept => c :: x :: kept
      end
  end.

(** [s.strip()] *)
Definition strip (s : str) : str := rstrip (lstrip s).

Fixpoint startswith (p s : str) : bool :=
  match p, s with
  | [], _ => true
  | x :: p', y :: s' => N.eqb x y && startswith p' s'
  | _ :: _, [] => false
  end.

(** [p in s] *)
Fixpoint contains (p s : str) : bool :=
  startswith p s || match s with [] => false | _ :: t => contains p t end.

(** [s.replace(p, "")] for a non-empty [p]: occurrences are removed from
    left to right without overlap; [skip] counts the characters of the
    occurrence being removed that are still ahead. *)
Fixpoint remove_from (p : str) (skip : nat) (s : str) : str :=
  match s with
  | [] => []
  | c :: t =>
      match skip with
      | S k => remove_from p k t
      | O => if startswith p s then remove_from p (Nat.pred (length p)) t
             else c :: remove_from p O t
      end
  end.

Definition remove_all (p s : str) : str := remove_from p O s.

(** [s.split(sep)] for a non-empty [sep]; [cur] is the piece being read,
    reversed. *)
Fixpoint split_from (sep : str) (skip : nat) (cur : str) (s : str) : list str :=
  match s with
  | [] => [rev_append cur []]
  | c :: t =>
      match skip with
      | S k => split_from sep k cur t
      | O => if startswith sep s
             then match Nat.pred (length sep) with
                  | O => rev_append cur [] :: split_from sep O [] t
                  | S k => rev_append cur [] :: split_from sep (S k) [] t
                  end
             else split_from sep O (c :: cur) t
      end
  end.

Definition split (sep s : str) : list str := split_from sep O [] s.

(** [sep.join(l)] *)
Fixpoint join (sep : str) (l : list str) : str :=
  match l with
  | [] => []
  | [x] => x
  | x :: t => x ++ sep ++ join sep t
  end.

(** [re.sub(r'\s+', ' ', s)]: every maximal run of white space becomes one
    space; [in_run] tells that the previous character was white space. *)
Fixpoint collapse_from (in_run : bool) (s : str) : str :=
  match s with
  | [] => []
  | c :: t =>
      if isspace c
      then (if in_run then collapse_from true t else sp :: collapse_from true t)
      else c :: collapse_from false t
  end.

Definition collapse_ws (s : str) : str := collapse_from false s.

(** [s.lower()], on the characters whose lower case holds an ASCII letter:
    the capitals, the dotted capital I (two code points) and the Kelvin
    sign.  The other cased characters lower to characters outside ASCII and
    outside the scripts without case, which is all that the tests made on
    lowered text can see. *)
Definition lower_char (c : char) : str :=
  if in_range 65 90 c then [c + 32]
  else if N.eqb c 0x130 then [105; 0x307]
  else if N.eqb c 0x212A then [107]
  else [c].

Definition lower (s : str) : str := flat_map lower_char s.

(** [str(n)] for a non-negative integer. *)
Definition of_nat (n : nat) : str := lit (NilEmpty.string_of_uint (Nat.to_uint n)).

Definition of_N (n : N) : str := lit (NilEmpty.string_of_uint (N.to_uint n)).

(** [enumerate(l)], as pairs [(item, index)]. *)
Fixpoint enumerate_from {A} (i : nat) (l : list A) : list (A * nat) :=
  match l with
  | [] => []
  | a :: t => (a, i) :: enumerate_from (S i) t
  end.

Definition enumerate {A} (l : list A) : list (A * nat) := enumerate_from 0 l.

(** Python's truth value of a string. *)
Definition nonempty (s : str) : bool :=
  match s with [] => false | _ :: _ => true end.

(** [[s[i:i+n] for i in range(0, len(s), n)]]; the fuel bounds the number of
    slices by the length of the text. *)
Fixpoint slices_fuel (fuel n : nat) (s : str) : list str :=
  match fuel with
  | O => []
  | S f => match s with
           | [] => []
           | _ :: _ => firstn n s :: slices_fuel f n (skipn n s)
           end
  end.

Definition slices (n : nat) (s : str) : list str := slices_fuel (length s) n s.

End Py.

Import Py.

(** ** The remote model

    The prompt of a request is a fixed template around the chunk, so a
    request is identified by the chunk's index, the attempt and the chunk
    itself.  A computation that talks to the model reads an oracle, which
    gives the outcome of every request, and appends to the log of requests.
    The tasks of the chunks are gathered in chunk order; the waiting between
    retries is not modelled. *)

Module Model.

Definition request : Type := nat * nat * str.
Definition oracle (R : Type) : Type := nat -> nat -> str -> R.

Definition LLM (R A : Type) : Type := oracle R -> list request -> A * list request.

Definition ret {R A} (a : A) : LLM R A := fun _ log => (a, log).

Definition bind {R A B} (m : LLM R A) (k : A -> LLM R B) : LLM R B :=
  fun llm log => let '(a, log') := m llm log in k a llm log'.

Notation "'let*' x ':=' m 'in' k" := (bind m (fun x => k))
  (at level 10, x name, m at level 100, k at level 200).

(** [await self.client.chat.completions.create(...)] *)
Definition create {R} (chunk_index attempt : nat) (chunk : str) : LLM R R :=
  fun llm log => (llm chunk_index attempt chunk, log ++ [(chunk_index, attempt, chunk)]).

(** [await asyncio.gather( *[f(x) for x in l])] *)
Fixpoint mapM {R A B} (f : A -> LLM R B) (l : list A) : LLM R (list B) :=
  match l with
  | [] => ret []
  | a :: t => let* b := f a in let* bs := mapM f t in ret (b :: bs)
  end.

Definition run {R A} (m : LLM R A) (llm : oracle R) : A * list request := m llm [].

End Model.

Import Model.

(** ** [hebrew_translator.py] *)

Module HebrewTranslator.

(** [self.max_chunk_size] *)
Definition max_chunk_size : nat := 3000.

(** The character class of [_is_hebrew_text]. *)
Definition hebrew_pattern (c : char) : bool :=
  in_range 0x0590 0x05FF c || in_range 0x0600 0x06FF c || in_range 0x0750 0x077F c
  || in_range 0x08A0 0x08FF c || in_range 0xFB1D 0xFB4F c.

Definition _is_hebrew_text (text : str) : bool := List.existsb hebrew_pattern text.

(** The four classes of [_contains_hebrew_characters], in order. *)
Definition hebrew_patterns : list (char -> bool) :=
  [ in_range 0x0590 0x05FF; in_range 0x0600 0x06FF; in_range 0xFB1D 0xFB4F;
    fun c => mem c [0x200F; 0x202E] ].

Definition _contains_hebrew_characters (text : str) : bool :=
  List.existsb (fun pattern => List.existsb pattern text) hebrew_patterns.

(** The five classes of [_force_remove_hebrew], in order. *)
Definition patterns_to_remove : list (char -> bool) :=
  [ in_range 0x0590 0x05FF; in_range 0x0600 0x06FF; in_range 0xFB1D 0xFB4F;
    (fun c => mem c [0x200F; 0x202E]); in_range 0x2000 0x206F ].

(** [len(text) < len(original_text) * 0.3].  The product is a double; it is
    an integer exactly when ten divides the length (0.3 is within half an
    ulp of three tenths), so the test is the integer one. *)
Definition removed_over_70_percent (text original_text : str) : bool :=
  (10 * length text <? 3 * length original_text)%nat.

Definition _force_remove_hebrew (original_text : str) : str :=
  let text :=
    fold_left (fun text pattern => List.filter (fun c => negb (pattern c)) text)
              patterns_to_remove original_text in
  let text := strip (collapse_ws text) in
  if removed_over_70_percent text original_text
  then lit "[TRANSLATION_CLEANED: " ++ of_nat (length original_text)
       ++ lit " chars -> " ++ of_nat (length text) ++ lit " chars] " ++ text
  else text.

(** [_split_by_sentences] *)
Definition sentence_endings : list char :=
  [46; 33; 63; 0x3002; 0xFF01; 0xFF1F].

Fixpoint split_sentences_from (current_sentence : str) (text : str) : list str :=
  match text with
  | [] => match strip current_sentence with
          | [] => []
          | _ :: _ => [strip current_sentence]
          end
  | c :: t =>
      let current_sentence := current_sentence ++ [c] in
      if mem c sentence_endings
      then strip current_sentence :: split_sentences_from [] t
      else split_sentences_from current_sentence t
  end.

Definition _split_by_sentences (text : str) : list str := split_sentences_from [] text.

(** The inner loop of [_chunk_hebrew_text] over the sentences of one long
    paragraph; the state is [(chunks, temp_chunk)]. *)
Definition sentence_step (st : list str * str) (sentence : str) : list str * str :=
  let '(chunks, temp_chunk) := st in
  if (max_chunk_size <? length temp_chunk + length sentence + 1)%nat
  then ((match temp_chunk with [] => chunks | _ :: _ => chunks ++ [strip temp_chunk] end),
        sentence)
  else (chunks,
        match temp_chunk with [] => sentence | _ :: _ => temp_chunk ++ lit " " ++ sentence end).

(** The outer loop over the paragraphs; the state is
    [(chunks, current_chunk)]. *)
Definition paragraph_step (st : list str * str) (paragraph : str) : list str * str :=
  let '(chunks, current_chunk) := st in
  if (max_chunk_size <? length current_chunk + length paragraph + 2)%nat
  then
    let chunks := match current_chunk with
                  | [] => chunks
                  | _ :: _ => chunks ++ [strip current_chunk]
                  end in
    if (max_chunk_size <? length paragraph)%nat
    then fold_left sentence_step (_split_by_sentences paragraph) (chunks, [])
    else (chunks, paragraph)
  else (chunks,
        match current_chunk with
        | [] => paragraph
        | _ :: _ => current_chunk ++ [nl; nl] ++ paragraph
        end).

Definition _chunk_hebrew_text (text : str) : list str :=
  if (length text <=? max_chunk_size)%nat then [text]
  else
    let '(chunks, current_chunk) :=
      fold_left paragraph_step (split [nl; nl] text) ([], []) in
    let chunks := match current_chunk with
                  | [] => chunks
                  | _ :: _ => chunks ++ [strip current_chunk]
                  end in
    if (length chunks =? 1)%nat && (max_chunk_size <? length text)%nat
    then slices max_chunk_size text
    else chunks.

(** The class [allowed_pattern] of [_sanitize_llm_response]. *)
Definition allowed_pattern (c : char) : bool :=
  in_range 65 90 c || in_range 97 122 c || in_range 48 57 c
  || mem c (lit ".,!?;:()'") || N.eqb c 34 || N.eqb c 45 || isspace c || N.eqb c nl.

Definition artifacts_to_remove : list str :=
  [ lit "Translation:"; lit "English translation:"; lit "Output:"; lit "Result:";
    lit "Here is the translation:"; lit "The translation is:" ].

(** Steps 1 to 4 of [_sanitize_llm_response], on a non-empty response. *)
Definition clean_response (raw_response : str) : str :=
  let text := strip raw_response in
  let text :=
    fold_left (fun text artifact => strip (remove_all artifact text))
              artifacts_to_remove text in
  let text := List.filter allowed_pattern text in
  strip (collapse_ws text).

(** [_sanitize_llm_response]; the message content of a response may be
    [None]. *)
Definition _sanitize_llm_response (raw_response : option str) : str :=
  match raw_response with
  | None | Some [] => lit "[EMPTY_RESPONSE]"
  | Some raw_response =>
      match clean_response raw_response with
      | [] => lit "[SANITIZATION_FAILED]"
      | text => text
      end
  end.

(** [_emergency_hebrew_purge] *)
Definition _emergency_hebrew_purge (text : str) : str :=
  let ascii_only := List.filter (fun c => c <? 128) text in
  let ascii_only := strip (collapse_ws ascii_only) in
  match ascii_only with
  | [] => lit "[ASCII_PURGE_RESULT_EMPTY]"
  | _ :: _ => ascii_only
  end.

(** *** The remote model

    One request to the chat endpoint either raises, or returns a message
    whose content may be [None]. *)

Inductive reply :=
| Raises
| Content (raw_translation : option str).

Definition oracle : Type := Model.oracle reply.

Definition max_retries : nat := 5.

Definition chunk_marker (name : string) (chunk_index : nat) : str :=
  lit name ++ of_nat (chunk_index + 1) ++ lit "]".

(** [_translate_chunk]: the loop [for attempt in range(max_retries)], with
    [remaining] attempts left from [attempt] on. *)
Fixpoint translate_attempts (hebrew_chunk : str) (chunk_index : nat)
    (remaining attempt : nat) : LLM reply (option str) :=
  match remaining with
  | O => ret None
  | S remaining' =>
      let continue := translate_attempts hebrew_chunk chunk_index remaining' (S attempt) in
      let* r := create chunk_index attempt hebrew_chunk in
      match r with
      | Raises =>
          if (attempt <? max_retries - 1)%nat then continue
          else ret (Some (chunk_marker "[TRANSLATION_ERROR_CHUNK_" chunk_index))
      | Content raw_translation =>
          let translation := _sanitize_llm_response raw_translation in
          if _contains_hebrew_characters translation then
            if (attempt =? max_retries - 1)%nat
            then ret (Some (_force_remove_hebrew translation))
            else continue
          else if (10 <? length translation)%nat then ret (Some translation)
          else if (attempt =? max_retries - 1)%nat
               then ret (Some (chunk_marker "[TRANSLATION_FAILED_FOR_CHUNK_" chunk_index))
               else continue
      end
  end.

Definition _translate_chunk (hebrew_chunk : str) (chunk_index : nat) : LLM reply (option str) :=
  translate_attempts hebrew_chunk chunk_index max_retries 0.

(** The set [allowed_chars] of the final validation. *)
Definition allowed_chars : list char :=
  lit "ABCDEFGHIJKLMNOPQRSTUVWXYZabcdefghijklmnopqrstuvwxyz0123456789.,!?;:()"
  ++ [34] ++ lit "'-" ++ [nl; sp].

Record translation_result := {
  translated_text : str;
  original_chunks : nat;
  translated_chunks : option nat;
  success : bool;
  has_hebrew : bool;
  hebrew_free_guaranteed : option bool;
  message : option str;
  error : option str
}.

Section FinalValidation.

(** [unicodedata.normalize('NFKC', _)] *)
Variable nfkc : str -> str.

(** One turn of the validation loop: [Some t] when a layer rejected the
    text and replaced it by [t] ([continue]), [None] when all three layers
    accepted it. *)
Definition validation_layers (final_translation : str) : option str :=
  if _contains_hebrew_characters final_translation
  then Some (_force_remove_hebrew final_translation)
  else
    let invalid_chars :=
      List.filter (fun c => negb (mem c allowed_chars)) final_translation in
    match invalid_chars with
    | _ :: _ =>
        Some (strip (collapse_ws
                (List.filter (fun c => mem c allowed_chars) final_translation)))
    | [] =>
        let normalized := nfkc final_translation in
        if negb (eqb normalized final_translation) then Some normalized else None
    end.

(** [while not validation_passed and validation_attempts < max_validation_attempts];
    the result is [(validation_passed, final_translation)]. *)
Fixpoint validation_loop (remaining : nat) (final_translation : str) : bool * str :=
  match remaining with
  | O => (false, final_translation)
  | S remaining' =>
      match validation_layers final_translation with
      | None => (true, final_translation)
      | Some cleaned => validation_loop remaining' cleaned
      end
  end.

Definition max_validation_attempts : nat := 3.

Definition final_validation (final_translation : str) : str :=
  let '(validation_passed, final_translation) :=
    validation_loop max_validation_attempts final_translation in
  if validation_passed then final_translation
  else
    let final_translation := _emergency_hebrew_purge final_translation in
    if negb (List.forallb (fun c => c <? 128) final_translation)
    then lit "[CATASTROPHIC_TRANSLATION_FAILURE - HEBREW_REMOVAL_IMPOSSIBLE]"
    else final_translation.

(** [translate_hebrew_to_english].  The chunk tasks are gathered in chunk
    order.  No statement of the [try] block raises on a [str] input (the
    model's failures are caught in [_translate_chunk]), so the outer handler
    is not reached. *)
Definition translate_hebrew_to_english (text : str) : LLM reply translation_result :=
  if negb (_is_hebrew_text text) then
    ret {| translated_text := text; original_chunks := 1; translated_chunks := None;
           success := true; has_hebrew := false; hebrew_free_guaranteed := None;
           message := Some (lit "No Hebrew text detected in input"); error := None |}
  else
    let chunks := _chunk_hebrew_text text in
    let* translated := mapM (fun '(chunk, i) => _translate_chunk chunk i)
                            (enumerate chunks) in
    let successful_translations := omap id translated in
    match successful_translations with
    | [] =>
        ret {| translated_text := text; original_chunks := length chunks;
               translated_chunks := None; success := false; has_hebrew := true;
               hebrew_free_guaranteed := None; message := None;
               error := Some (lit "Translation failed for all chunks") |}
    | first :: _ =>
        let final_translation :=
          if (length chunks =? 1)%nat then first
          else join [nl; nl] successful_translations in
        let final_translation := final_validation final_translation in
        ret {| translated_text := final_translation; original_chunks := length chunks;
               translated_chunks := Some (length successful_translations);
               success := true; has_hebrew := false;
               hebrew_free_guaranteed := Some true;
               message := Some (lit "Successfully translated "
                                ++ of_nat (length successful_translations) ++ lit "/"
                                ++ of_nat (length chunks)
                                ++ lit " chunks - NO HEBREW REMAINING");
               error := None |}
    end.

End FinalValidation.

End HebrewTranslator.

(** ** The [re] module

    A backtracking matcher for the part of Python's regular expressions the
    program uses: literals, classes, [.], [^], [$], sequence, alternation,
    greedy and lazy repetition and look-ahead, under the flags [IGNORECASE]
    and [MULTILINE].  Alternatives and repetitions are tried in Python's
    order, so the first match found is Python's match. *)

Module Re.

(** The decimal digits of Unicode come in blocks of ten consecutive code
    points; these are the code points of the zeros.  [\d] is the union of
    the blocks, and [int] reads a digit of any block. *)
Definition digit_blocks : list char :=
  [48; 1632; 1776; 1984; 2406; 2534; 2662; 2790; 2918; 3046; 3174; 3302; 3430;
   3558; 3664; 3792; 3872; 4160; 4240; 6112; 6160; 6470; 6608; 6784; 6800; 6992;
   7088; 7232; 7248; 42528; 43216; 43264; 43472; 43504; 43600; 44016; 65296;
   66720; 68912; 69734; 69872; 69942; 70096; 70384; 70736; 70864; 71248; 71360;
   71472; 71904; 72016; 72784; 73040; 73120; 92768; 92864; 93008; 120782;
   120792; 120802; 120812; 120822; 123200; 123632; 125264; 130032].

Definition digit_value (c : char) : option N :=
  match List.find (fun zero => in_range zero (zero + 9) c) digit_blocks with
  | Some zero => Some (c - zero)
  | None => None
  end.

Definition isdigit (c : char) : bool :=
  match digit_value c with Some _ => true | None => false end.

(** Case folding for [IGNORECASE], on the characters that fold to an ASCII
    letter: the capitals, the two dotted and dotless i, the long s and the
    Kelvin sign.  Every pattern of the program is written in ASCII and in
    scripts without case, on which this is the folding of [re]. *)
Definition fold_case (c : char) : char :=
  if in_range 65 90 c then c + 32
  else if mem c [0x130; 0x131] then 105
  else if N.eqb c 0x17F then 115
  else if N.eqb c 0x212A then 107
  else c.

Definition upper_ascii (c : char) : char :=
  if in_range 97 122 c then c - 32 else c.

Inductive item :=
| One (c : char)
| Range (lo hi : char)
| Space
| Digit.

Inductive regex :=
| Eps
| Chr (c : char)
| Cls (items : list item)
| Dot
| Bol
| Eol
| Seq (r1 r2 : regex)
| Alt (r1 r2 : regex)
| Star (greedy : bool) (r : regex)
| Look (r : regex).

Record flags := { ignorecase : bool; multiline : bool }.

Definition no_flags : flags := {| ignorecase := false; multiline := false |}.
Definition MULTILINE : flags := {| ignorecase := false; multiline := true |}.
Definition MULTILINE_IGNORECASE : flags := {| ignorecase := true; multiline := true |}.

Definition chr_matches (fl : flags) (c x : char) : bool :=
  N.eqb c x || (ignorecase fl && N.eqb (fold_case c) (fold_case x)).

Definition item_matches (fl : flags) (i : item) (x : char) : bool :=
  match i with
  | One c => chr_matches fl c x
  | Range lo hi =>
      in_range lo hi x
      || (ignorecase fl
          && (in_range lo hi (fold_case x) || in_range lo hi (upper_ascii (fold_case x))))
  | Space => isspace x
  | Digit => isdigit x
  end.

(** A position in the subject: the character before it, the text from it
    on, and its index. *)
Record pos := { prev : option char; rest : str; idx : N }.

Definition start (s : str) : pos := {| prev := None; rest := s; idx := 0 |}.

Definition next (p : pos) : option (char * pos) :=
  match rest p with
  | [] => None
  | c :: t => Some (c, {| prev := Some c; rest := t; idx := idx p + 1 |})
  end.

Definition at_bol (fl : flags) (p : pos) : bool :=
  match prev p with
  | None => true
  | Some c => multiline fl && N.eqb c nl
  end.

Definition at_eol (fl : flags) (p : pos) : bool :=
  match rest p with
  | [] => true
  | c :: t => N.eqb c nl && (multiline fl || match t with [] => true | _ :: _ => false end)
  end.

Definition one (ok : char -> bool) (p : pos) (k : pos -> option pos) : option pos :=
  match next p with
  | Some (x, p') => if ok x then k p' else None
  | None => None
  end.

(** Repetition of [body]: [fuel] bounds the number of turns, each of which
    must move on in the subject. *)
Fixpoint star_loop (body : pos -> (pos -> option pos) -> option pos) (greedy : bool)
    (fuel : nat) (p : pos) (k : pos -> option pos) : option pos :=
  match fuel with
  | O => k p
  | S fuel' =>
      let again p' := if N.eqb (idx p') (idx p) then None
                      else star_loop body greedy fuel' p' k in
      if greedy
      then match body p again with Some e => Some e | None => k p end
      else match k p with Some e => Some e | None => body p again end
  end.

(** [run fl fuel r p k]: match [r] from [p] and go on with [k]; the result
    is the position where the whole match ends. *)
Fixpoint run (fl : flags) (fuel : nat) (r : regex) (p : pos) (k : pos -> option pos)
    : option pos :=
  match r with
  | Eps => k p
  | Chr c => one (chr_matches fl c) p k
  | Cls items => one (fun x => List.existsb (fun i => item_matches fl i x) items) p k
  | Dot => one (fun x => negb (N.eqb x nl)) p k
  | Bol => if at_bol fl p then k p else None
  | Eol => if at_eol fl p then k p else None
  | Seq r1 r2 => run fl fuel r1 p (fun p' => run fl fuel r2 p' k)
  | Alt r1 r2 =>
      match run fl fuel r1 p k with
      | Some e => Some e
      | None => run fl fuel r2 p k
      end
  | Star greedy r' => star_loop (run fl fuel r') greedy fuel p k
  | Look r' =>
      match run fl fuel r' p Some with
      | Some _ => k p
      | None => None
      end
  end.

(** The match of [r] at [p], if any; with [must_advance] an empty match is
    not accepted.  The fuel of the repetitions is the length of the subject
    plus one. *)
Definition match_at (fl : flags) (r : regex) (fuel : nat) (must_advance : bool) (p : pos)
    : option pos :=
  run fl fuel r p (fun e => if must_advance && N.eqb (idx e) (idx p) then None else Some e).

(** [re.match(r, s, flags)], as a test. *)
Definition matches (fl : flags) (r : regex) (s : str) : bool :=
  match match_at fl r (S (length s)) false (start s) with Some _ => true | None => false end.

(** The pieces of the subject between the successive matches of [r], found
    from left to right as [re.split] and [re.sub] do: after an empty match
    the next match must be non-empty or start further on.  [cur] holds the
    characters since the last match, reversed. *)
Fixpoint pieces_from (fl : flags) (r : regex) (len : nat) (fuel : nat)
    (must_advance : bool) (cur : str) (p : pos) : list str :=
  match fuel with
  | O => [rev_append cur (rest p)]
  | S fuel' =>
      match match_at fl r (S len) must_advance p with
      | Some e =>
          rev_append cur [] :: pieces_from fl r len fuel' (N.eqb (idx e) (idx p)) [] e
      | None =>
          match next p with
          | Some (c, p') => pieces_from fl r len fuel' false (c :: cur) p'
          | None => [rev_append cur []]
          end
      end
  end.

(** [re.split(r, s, flags)] for a pattern without capturing groups; a
    position is visited at most twice. *)
Definition split (fl : flags) (r : regex) (s : str) : list str :=
  pieces_from fl r (length s) (2 * length s + 2) false [] (start s).

(** [re.sub(r, repl, s, flags)] for a replacement without group references. *)
Definition sub (fl : flags) (r : regex) (repl : str) (s : str) : str :=
  join repl (split fl r s).

(** *** Writing patterns *)

Definition cat (rs : list regex) : regex := fold_right Seq Eps rs.

Fixpoint alt (rs : list regex) : regex :=
  match rs with
  | [] => Cls []
  | [r] => r
  | r :: rs' => Alt r (alt rs')
  end.

(** A literal text, given by its code points or as an ASCII literal. *)
Definition word (s : str) : regex := cat (List.map Chr s).
Definition chars (s : string) : regex := word (lit s).

Definition ws : regex := Cls [Space].
Definition digit : regex := Cls [Digit].
Definition many (r : regex) : regex := Star true r.
Definition many1 (r : regex) : regex := Seq r (Star true r).
Definition lazy (r : regex) : regex := Star false r.
Definition opt (r : regex) : regex := Alt r Eps.

(** [r{n,}] and [r{1,3}] *)
Definition at_least (n : nat) (r : regex) : regex := cat (repeat r n ++ [many r]).
Definition one_to_three (r : regex) : regex := Seq r (opt (Seq r (opt r))).

(** The leading number of a text: the value of its longest prefix of
    decimal digits, and what follows. *)
Fixpoint digits_from (acc : N) (s : str) : N * str :=
  match s with
  | [] => (acc, [])
  | c :: t => match digit_value c with
              | Some d => digits_from (10 * acc + d) t
              | None => (acc, s)
              end
  end.

Definition leading_number (s : str) : option (N * str) :=
  match s with
  | [] => None
  | c :: t => match digit_value c with
              | Some d => Some (digits_from d t)
              | None => None
              end
  end.

End Re.

(** ** [llm_service.py]

    In the comments that quote a pattern of the source, a space separates a
    star from a closing parenthesis. *)

Module LLMService.

Import Re.

(** [self.max_chunk_size] *)
Definition max_chunk_size : nat := 3000.

Definition instruction_patterns : list regex :=
  [ (* r'^.*?(תקנון|הוראות|הנחיות|ביאור|רקע|הורמאות).*?\n' *)
    cat [Bol; lazy Dot; alt [word [0x5EA; 0x5E7; 0x5E0; 0x5D5; 0x5DF]; word [0x5D4;
      0x5D5; 0x5E8; 0x5D0; 0x5D5; 0x5EA]; word [0x5D4; 0x5E0; 0x5D7; 0x5D9; 0x5D5;
      0x5EA]; word [0x5D1; 0x5D9; 0x5D0; 0x5D5; 0x5E8]; word [0x5E8; 0x5E7; 0x5E2];
      word [0x5D4; 0x5D5; 0x5E8; 0x5DE; 0x5D0; 0x5D5; 0x5EA]]; lazy Dot; Chr nl];
    (* r'^.*?(Instructions|Directions|Guidelines|Background|Note).*?\n' *)
    cat [Bol; lazy Dot; alt [chars "Instructions"; chars "Directions";
      chars "Guidelines"; chars "Background"; chars "Note"]; lazy Dot; Chr nl];
    (* r'^\s*שם\s*המועמד.*?\n' *)
    cat [Bol; many ws; word [0x5E9; 0x5DD]; many ws; word [0x5D4; 0x5DE; 0x5D5;
      0x5E2; 0x5DE; 0x5D3]; lazy Dot; Chr nl];
    (* r'^\s*(Name|Student|ID).*?:.*?\n' *)
    cat [Bol; many ws; alt [chars "Name"; chars "Student"; chars "ID"]; lazy Dot;
      Chr 58; lazy Dot; Chr nl];
    (* r'^\s*מספר\s*תעודת\s*זהות.*?\n' *)
    cat [Bol; many ws; word [0x5DE; 0x5E1; 0x5E4; 0x5E8]; many ws; word [0x5EA;
      0x5E2; 0x5D5; 0x5D3; 0x5EA]; many ws; word [0x5D6; 0x5D4; 0x5D5; 0x5EA];
      lazy Dot; Chr nl];
    (* r'^\s*תאריך.*?\n' *)
    cat [Bol; many ws; word [0x5EA; 0x5D0; 0x5E8; 0x5D9; 0x5DA]; lazy Dot; Chr nl];
    (* r'^\s*(Date|Time|Duration).*?:.*?\n' *)
    cat [Bol; many ws; alt [chars "Date"; chars "Time"; chars "Duration"]; lazy Dot;
      Chr 58; lazy Dot; Chr nl];
    (* r'^\s*זמן\s*המבחן.*?\n' *)
    cat [Bol; many ws; word [0x5D6; 0x5DE; 0x5DF]; many ws; word [0x5D4; 0x5DE;
      0x5D1; 0x5D7; 0x5DF]; lazy Dot; Chr nl];
    (* r'^\s*ציון.*?\n' *)
    cat [Bol; many ws; word [0x5E6; 0x5D9; 0x5D5; 0x5DF]; lazy Dot; Chr nl];
    (* r'^\s*(Score|Grade|Points).*?:.*?\n' *)
    cat [Bol; many ws; alt [chars "Score"; chars "Grade"; chars "Points"]; lazy Dot;
      Chr 58; lazy Dot; Chr nl];
    (* r'^\s*חתימת\s*הבוחן.*?\n' *)
    cat [Bol; many ws; word [0x5D7; 0x5EA; 0x5D9; 0x5DE; 0x5EA]; many ws;
      word [0x5D4; 0x5D1; 0x5D5; 0x5D7; 0x5DF]; lazy Dot; Chr nl];
    (* r'^\s*(Signature|Examiner).*?\n' *)
    cat [Bol; many ws; alt [chars "Signature"; chars "Examiner"]; lazy Dot; Chr nl];
    (* r'^\s*דף\s*\d+\s*מתוך\s*\d+.*?\n' *)
    cat [Bol; many ws; word [0x5D3; 0x5E3]; many ws; many1 digit; many ws;
      word [0x5DE; 0x5EA; 0x5D5; 0x5DA]; many ws; many1 digit; lazy Dot; Chr nl];
    (* r'^\s*Page\s*\d+\s*of\s*\d+.*?\n' *)
    cat [Bol; many ws; chars "Page"; many ws; many1 digit; many ws; chars "of";
      many ws; many1 digit; lazy Dot; Chr nl];
    (* r'^.*?(Cybersecurity\s+Exam|Security\s+Test|מבחן\s+אבטחה).*?\n' *)
    cat [Bol; lazy Dot; alt [cat [chars "Cybersecurity"; many1 ws; chars "Exam"];
      cat [chars "Security"; many1 ws; chars "Test"]; cat [word [0x5DE; 0x5D1; 0x5D7;
      0x5DF]; many1 ws; word [0x5D0; 0x5D1; 0x5D8; 0x5D7; 0x5D4]]]; lazy Dot; Chr nl];
    (* r'^.*?(Part\s+[A-Z]|חלק\s+[א-ז]).*?\n' *)
    cat [Bol; lazy Dot; alt [cat [chars "Part"; many1 ws; Cls [Range 65 90]];
      cat [word [0x5D7; 0x5DC; 0x5E7]; many1 ws; Cls [Range 0x5D0 0x5D6]]]; lazy Dot;
      Chr nl];
    (* r'^.*?(Total\s+Questions|סך\s+השאלות).*?\n' *)
    cat [Bol; lazy Dot; alt [cat [chars "Total"; many1 ws; chars "Questions"];
      cat [word [0x5E1; 0x5DA]; many1 ws; word [0x5D4; 0x5E9; 0x5D0; 0x5DC; 0x5D5;
      0x5EA]]]; lazy Dot; Chr nl];
    (* r'^.*?בהצלחה.*?\n' *)
    cat [Bol; lazy Dot; word [0x5D1; 0x5D4; 0x5E6; 0x5DC; 0x5D7; 0x5D4]; lazy Dot;
      Chr nl] ].

(** [_preprocess_text] *)
Definition _preprocess_text (text : str) : str :=
  let text :=
    fold_left (fun text pattern => Re.sub MULTILINE_IGNORECASE pattern [] text)
              instruction_patterns text in
  (* r'\n\s*\n\s*\n' *)
  let text := Re.sub no_flags (cat [Chr nl; many ws; Chr nl; many ws; Chr nl]) [nl; nl] text in
  (* r'^\s+' *)
  Re.sub MULTILINE (cat [Bol; many1 ws]) [] text.

Definition question_patterns : list regex :=
  [ (* r'(?=(?:\n|^)\s*(?:\d+)[\.\)]\s* )' *)
    Look (cat [alt [Chr nl; Bol]; many ws; many1 digit; Cls [One 46; One 41];
      many ws]);
    (* r'(?=(?:\n|^)\s*(?:שאלה\s*\d+)[\.\):]\s* )' *)
    Look (cat [alt [Chr nl; Bol]; many ws; word [0x5E9; 0x5D0; 0x5DC; 0x5D4];
      many ws; many1 digit; Cls [One 46; One 41; One 58]; many ws]);
    (* r'(?=(?:\n|^)\s*(?:Question\s*\d+)[\.\):]\s* )' *)
    Look (cat [alt [Chr nl; Bol]; many ws; chars "Question"; many ws; many1 digit;
      Cls [One 46; One 41; One 58]; many ws]);
    (* r'(?=(?:\n|^)\s*(?:Q\d+)[\.\):]\s* )' *)
    Look (cat [alt [Chr nl; Bol]; many ws; Chr 81; many1 digit; Cls [One 46; One 41;
      One 58]; many ws]);
    (* r'(?=(?:\n|^)\s*(?:\(\d+\))\s* )' *)
    Look (cat [alt [Chr nl; Bol]; many ws; Chr 40; many1 digit; Chr 41; many ws]);
    (* r'(?=(?:\n|^)\s*(?:\d+\s*[\-\–\—])\s* )' *)
    Look (cat [alt [Chr nl; Bol]; many ws; many1 digit; many ws; Cls [One 45;
      One 0x2013; One 0x2014]; many ws]);
    (* r'(?=(?:\n|^)\s*(?:\d+\s*\.)\s*(?:What|Which|How|When|Where|Why|If|A\s+security|The\s+best|An\s+attacker))' *)
    Look (cat [alt [Chr nl; Bol]; many ws; many1 digit; many ws; Chr 46; many ws;
      alt [chars "What"; chars "Which"; chars "How"; chars "When"; chars "Where";
      chars "Why"; chars "If"; cat [Chr 65; many1 ws; chars "security"];
      cat [chars "The"; many1 ws; chars "best"]; cat [chars "An"; many1 ws;
      chars "attacker"]]]);
    (* r'(?=(?:\n|^)\s*(?:\d+\s*[\.\)])\s*(?:מה|איך|מתי|איפה|למה|כיצד|האם|מערכת\s+אבטחה|תוקף))' *)
    Look (cat [alt [Chr nl; Bol]; many ws; many1 digit; many ws; Cls [One 46;
      One 41]; many ws; alt [word [0x5DE; 0x5D4]; word [0x5D0; 0x5D9; 0x5DA];
      word [0x5DE; 0x5EA; 0x5D9]; word [0x5D0; 0x5D9; 0x5E4; 0x5D4]; word [0x5DC;
      0x5DE; 0x5D4]; word [0x5DB; 0x5D9; 0x5E6; 0x5D3]; word [0x5D4; 0x5D0; 0x5DD];
      cat [word [0x5DE; 0x5E2; 0x5E8; 0x5DB; 0x5EA]; many1 ws; word [0x5D0; 0x5D1;
      0x5D8; 0x5D7; 0x5D4]]; word [0x5EA; 0x5D5; 0x5E7; 0x5E3]]]) ].

(** [[s.strip() for s in segments if s.strip() and len(s.strip()) > 15]] *)
Definition valid_segments (segments : list str) : list str :=
  List.map strip
    (List.filter (fun s => match strip s with
                           | [] => false
                           | _ :: _ => (15 <? length (strip s))%nat
                           end) segments).

(** The search for the best pattern; the state is
    [(best_segments, best_count)]. *)
Definition pattern_step (text : str) (st : option (list str) * nat) (pattern : regex)
    : option (list str) * nat :=
  let '(best_segments, best_count) := st in
  let segments := Re.split no_flags pattern text in
  let valid := valid_segments segments in
  if (best_count <? length valid)%nat then (Some valid, length valid)
  else (best_segments, best_count).

(** [re.match(r'^\d+[\.\)\-\s]+', line) and len(line) > 3] *)
Definition starts_question (line : str) : bool :=
  Re.matches no_flags (cat [Bol; many1 digit; many1 (Cls [One 46; One 41; One 45; Space])]) line
  && (3 <? length line)%nat.

(** The line-by-line fallback; the state is [(segments, current_segment)]. *)
Definition line_step (st : list str * str) (line : str) : list str * str :=
  let '(segments, current_segment) := st in
  let line := strip line in
  if starts_question line
  then ((match current_segment with
         | [] => segments
         | _ :: _ => segments ++ [strip current_segment]
         end), line)
  else match current_segment with
       | [] => (segments, current_segment)
       | _ :: _ => (segments, current_segment ++ [nl] ++ line)
       end.

Definition fallback_segments (text : str) : list str :=
  let '(segments, current_segment) := fold_left line_step (Py.split [nl] text) ([], []) in
  let segments := match current_segment with
                  | [] => segments
                  | _ :: _ => segments ++ [strip current_segment]
                  end in
  List.filter (fun s => (20 <? length (strip s))%nat) segments.

(** [_looks_like_question_content] *)
Definition _looks_like_question_content (text : str) : bool :=
  let text_lower := lower text in
  let question_indicators :=
    [ lit "?"; [0x5DE; 0x5D4]; [0x5D0; 0x5D9; 0x5DA]; [0x5DE; 0x5EA; 0x5D9];
      [0x5D0; 0x5D9; 0x5E4; 0x5D4]; [0x5DC; 0x5DE; 0x5D4]; [0x5DB; 0x5DE; 0x5D4];
      lit "what"; lit "how"; lit "when"; lit "where"; lit "why"; lit "which"; lit "who" ] in
  let has_question_indicator :=
    List.existsb (fun indicator => contains indicator text_lower) question_indicators in
  let has_reasonable_length := (15 <? length (strip text))%nat in
  let instruction_keywords :=
    [ [0x5D4; 0x5D5; 0x5E8; 0x5D0; 0x5D5; 0x5EA]; [0x5D4; 0x5E0; 0x5D7; 0x5D9; 0x5D5; 0x5EA];
      [0x5EA; 0x5E7; 0x5E0; 0x5D5; 0x5DF];
      [0x5E9; 0x5DD; 32; 0x5D4; 0x5DE; 0x5D5; 0x5E2; 0x5DE; 0x5D3];
      [0x5EA; 0x5E2; 0x5D5; 0x5D3; 0x5EA; 32; 0x5D6; 0x5D4; 0x5D5; 0x5EA];
      [0x5D6; 0x5DE; 0x5DF; 32; 0x5D4; 0x5DE; 0x5D1; 0x5D7; 0x5DF];
      lit "instructions"; lit "directions"; lit "guidelines"; lit "name:"; lit "id:";
      lit "student:"; lit "time:"; lit "duration:" ] in
  let is_not_instruction :=
    negb (List.existsb (fun keyword => contains keyword text_lower) instruction_keywords) in
  has_question_indicator && has_reasonable_length && is_not_instruction.

(** Python's [not best_segments] *)
Definition no_segments (best_segments : option (list str)) : bool :=
  match best_segments with
  | None | Some [] => true
  | Some (_ :: _) => false
  end.

(** The segments the chunker settles on, from the preprocessed text. *)
Definition select_segments (text : str) : list str :=
  let '(best_segments, best_count) :=
    fold_left (pattern_step text) question_patterns (None, O) in
  let best_segments :=
    if no_segments best_segments || (best_count <? 10)%nat
    then
      let valid := fallback_segments text in
      if (best_count <? length valid)%nat then Some valid else best_segments
    else best_segments in
  match best_segments with
  | Some (segment :: segments) => segment :: segments
  | _ =>
      let potential_questions :=
        List.filter (fun s => match s with [] => false | _ :: _ => true end)
                    (List.map strip (Py.split [nl; nl] text)) in
      List.filter _looks_like_question_content potential_questions
  end.

(** The packing loop; the state is [(chunks, current_chunk)]. *)
Definition segment_step (st : list str * str) (segment : str) : list str * str :=
  let '(chunks, current_chunk) := st in
  if (max_chunk_size <? length current_chunk + length segment)%nat
  then ((match current_chunk with
         | [] => chunks
         | _ :: _ => chunks ++ [strip current_chunk]
         end), segment)
  else (chunks,
        match current_chunk with
        | [] => segment
        | _ :: _ => current_chunk ++ [nl; nl] ++ segment
        end).

Definition pack_segments (best_segments : list str) : list str :=
  let '(chunks, current_chunk) := fold_left segment_step best_segments ([], []) in
  match current_chunk with
  | [] => chunks
  | _ :: _ => chunks ++ [strip current_chunk]
  end.

(** [_chunk_text_intelligently] *)
Definition _chunk_text_intelligently (text : str) : list str :=
  let text := _preprocess_text text in
  let chunks := pack_segments (select_segments text) in
  if (length chunks =? 1)%nat && (max_chunk_size <? length text)%nat
  then slices max_chunk_size text
  else chunks.

(** *** Exceptions

    What a statement of the service may raise: the [ValueError] of [int] on
    a numeral of too many digits, and the [TypeError] or [AttributeError] of
    an operation on a value of a type it does not handle. *)
Inductive raised :=
| ValueError (digits : nat)
| TypeError.

(** A computation that may raise. *)
Definition may_raise (A : Type) : Type := (raised + A)%type.

Definition and_then {A B} (m : may_raise A) (k : A -> may_raise B) : may_raise B :=
  match m with
  | inl e => inl e
  | inr a => k a
  end.

(** A loop whose body may raise; what is raised ends the loop. *)
Fixpoint fold_raising {A B} (f : A -> B -> may_raise A) (l : list B) (a : A)
    : may_raise A :=
  match l with
  | [] => inr a
  | b :: t => and_then (f a b) (fold_raising f t)
  end.

(** *** The deterministic scan *)

(** A record of [_extract_numbered_questions_deterministic]. *)
Record numbered_question := {
  det_number : N;
  det_text : str;
  det_raw_text : str;
  det_line_start : Z;
  det_line_end : Z
}.

(** [sys.get_int_max_str_digits()]: the default limit of CPython on the
    digits of a decimal numeral given to [int]. *)
Definition int_max_str_digits : nat := 4300.

(** [int(s)] for a string of decimal digits; the leading zeros count as
    digits. *)
Definition int (s : str) : may_raise N :=
  if (int_max_str_digits <? length s)%nat then inl (ValueError (length s))
  else inr (fst (digits_from 0 s)).

(** [m.group(1)] for a match [m] of a pattern that starts with [^(\d+)] and
    goes on with a character that is no digit: the longest prefix of
    digits. *)
Fixpoint group1 (line : str) : str :=
  match line with
  | [] => []
  | c :: t => if isdigit c then c :: group1 t else []
  end.

(** [int(m.group(1))] for the match [m = re.match(pattern, line)], if
    there is one. *)
Definition number_match (pattern : regex) (line : str) : may_raise (option N) :=
  if Re.matches no_flags pattern line
  then and_then (int (group1 line)) (fun n => inr (Some n))
  else inr None.

(* r'^(\d+)[\.\)]\s*(.* )' *)
Definition numbered_line : regex :=
  cat [Bol; many1 digit; Cls [One 46; One 41]; many ws; many Dot].

(* r'^(\d+)[\.\)]\s*' *)
Definition numbered_prefix : regex :=
  cat [Bol; many1 digit; Cls [One 46; One 41]; many ws].

(** [s.count('\n')] *)
Definition count_nl (s : str) : nat := length (List.filter (N.eqb nl) s).

Definition numbered_record (current_number : N) (current_question : str)
    (line_after : nat) : numbered_question :=
  {| det_number := current_number;
     det_text := strip current_question;
     det_raw_text := current_question;
     det_line_start := Z.of_nat line_after - Z.of_nat (count_nl current_question);
     det_line_end := Z.of_nat line_after - 1 |}.

(** [current_question and current_number > 0] *)
Definition in_question (current_question : str) (current_number : N) : bool :=
  nonempty current_question && (0 <? current_number).

(** The loop over the lines; the state is
    [(questions, current_question, current_number)].  When [int] raises the
    state is lost, so it does not matter that the record of the previous
    question is appended before the number is read. *)
Definition scan_step (st : list numbered_question * str * N) (entry : str * nat)
    : may_raise (list numbered_question * str * N) :=
  let '(questions, current_question, current_number) := st in
  let '(line, i) := entry in
  let line := strip line in
  and_then (number_match numbered_line line) (fun number =>
    match number with
    | Some n =>
        inr ((if in_question current_question current_number
              then questions ++ [numbered_record current_number current_question i]
              else questions), line, n)
    | None =>
        inr (if in_question current_question current_number
             then (questions, current_question ++ [nl] ++ line, current_number)
             else st)
    end).

Definition _extract_numbered_questions_deterministic (text : str)
    : may_raise (list numbered_question) :=
  let lines := Py.split [nl] text in
  and_then (fold_raising scan_step (enumerate lines) ([], [], 0)) (fun st =>
    let '(questions, current_question, current_number) := st in
    inr (if in_question current_question current_number
         then questions ++ [numbered_record current_number current_question (length lines)]
         else questions)).

(** *** Questions

    A question is the JSON object the model returns for it, with the keys
    the service reads or writes; a key may be absent.  The values have the
    types the prompt asks for: strings, and a number for the confidence,
    which is the rational that the double denotes (a boolean counts as 1 or
    0; the values NaN and Infinity, which [json.loads] accepts, are not
    modelled).  A type or a difficulty that is no string and false in
    Python's sense (null, 0, an empty list) is as good as an absent one,
    since the code only tests its truth, and the identifier stands for its
    rendering in an f-string.  Entries of other shapes are the [Untyped]
    entries below. *)

Inductive source :=
| Chunk (n : nat)
| Recovery.

Record question := {
  question_id : option str;
  question_text : option str;
  question_type : option str;
  topic : option str;
  difficulty : option str;
  confidence_score : option Q;
  source_chunk : option source;
  detection_method : option str;
  question_number : option N
}.

(** [q.get(key, '')] *)
Definition get (value : option str) : str :=
  match value with Some s => s | None => [] end.

(** [_determine_question_type_simple] *)
Definition _determine_question_type_simple (question_text : str) : str :=
  let text_lower := lower question_text in
  if List.existsb (fun indicator => contains indicator question_text)
       [lit "a)"; lit "b)"; lit "c)"; lit "d)"; lit "A)"; lit "B)"; lit "C)"; lit "D)"]
  then lit "multiple_choice"
  else if List.existsb (fun indicator => contains indicator text_lower)
            [lit "true or false"; lit "true/false"; lit "t/f"]
  then lit "true_false"
  else lit "multiple_choice".

(** The double [0.8] *)
Definition recovery_confidence : Q := 3602879701896397 # 4503599627370496.

(** The loop that reads the numbers from the texts of questions, in
    [_recover_missing_questions] and in
    [_validate_against_deterministic_scan]. *)
Definition found_numbers (found_questions : list question) : may_raise (gset N) :=
  fold_raising (fun found q =>
                  and_then (number_match numbered_prefix (strip (get (question_text q))))
                    (fun number =>
                       match number with
                       | Some n => inr ({[ n ]} ∪ found)
                       | None => inr found
                       end))
               found_questions ∅.

Definition recovered_question (det_q : numbered_question) : question :=
  {| question_id := Some (lit "recovery_q_" ++ of_N (det_number det_q));
     question_text := Some (det_text det_q);
     question_type := Some (_determine_question_type_simple (det_text det_q));
     topic := Some (lit "Cybersecurity");
     difficulty := Some (lit "medium");
     confidence_score := Some recovery_confidence;
     source_chunk := Some Recovery;
     detection_method := Some (lit "deterministic_recovery");
     question_number := Some (det_number det_q) |}.

(** [_recover_missing_questions] *)
Definition _recover_missing_questions (deterministic_questions : list numbered_question)
    (found_questions : list question) : may_raise (list question) :=
  and_then (found_numbers found_questions) (fun found =>
    inr (flat_map (fun det_q =>
                     if bool_decide (det_number det_q ∉ found)
                     then if (20 <? length (strip (det_text det_q)))%nat
                          then [recovered_question det_q]
                          else []
                     else [])
                  deterministic_questions)).

(** [_validate_against_deterministic_scan]: it reads the numbers of the
    final questions and writes to the log. *)
Definition _validate_against_deterministic_scan (final_questions : list question)
    (deterministic_questions : list numbered_question) : may_raise unit :=
  and_then (found_numbers final_questions) (fun _ => inr tt).

Definition reject_patterns : list regex :=
  [ (* r'^.*?(שם|תעודת זהות|מספר|תאריך|זמן|ציון|חתימה).*?:' *)
    cat [Bol; lazy Dot; alt [word [0x5E9; 0x5DD]; cat [word [0x5EA; 0x5E2; 0x5D5;
      0x5D3; 0x5EA]; Chr 32; word [0x5D6; 0x5D4; 0x5D5; 0x5EA]]; word [0x5DE; 0x5E1;
      0x5E4; 0x5E8]; word [0x5EA; 0x5D0; 0x5E8; 0x5D9; 0x5DA]; word [0x5D6; 0x5DE;
      0x5DF]; word [0x5E6; 0x5D9; 0x5D5; 0x5DF]; word [0x5D7; 0x5EA; 0x5D9; 0x5DE;
      0x5D4]]; lazy Dot; Chr 58];
    (* r'^.*?(הוראות|הנחיות|תקנון|ביאור|רקע)' *)
    cat [Bol; lazy Dot; alt [word [0x5D4; 0x5D5; 0x5E8; 0x5D0; 0x5D5; 0x5EA];
      word [0x5D4; 0x5E0; 0x5D7; 0x5D9; 0x5D5; 0x5EA]; word [0x5EA; 0x5E7; 0x5E0;
      0x5D5; 0x5DF]; word [0x5D1; 0x5D9; 0x5D0; 0x5D5; 0x5E8]; word [0x5E8; 0x5E7;
      0x5E2]]];
    (* r'^.*?דף\s*\d+\s*מתוך\s*\d+' *)
    cat [Bol; lazy Dot; word [0x5D3; 0x5E3]; many ws; many1 digit; many ws;
      word [0x5DE; 0x5EA; 0x5D5; 0x5DA]; many ws; many1 digit];
    (* r'^.*?בהצלחה|בהצלחה.*?$' *)
    alt [cat [Bol; lazy Dot; word [0x5D1; 0x5D4; 0x5E6; 0x5DC; 0x5D7; 0x5D4]];
      cat [word [0x5D1; 0x5D4; 0x5E6; 0x5DC; 0x5D7; 0x5D4]; lazy Dot; Eol]];
    (* r'^.*?מועד\s*[אב].*?$' *)
    cat [Bol; lazy Dot; word [0x5DE; 0x5D5; 0x5E2; 0x5D3]; many ws; Cls [One 0x5D0;
      One 0x5D1]; lazy Dot; Eol];
    (* r'^.*?(name|student|id|date|time|score|signature).*?:' *)
    cat [Bol; lazy Dot; alt [chars "name"; chars "student"; chars "id"; chars "date";
      chars "time"; chars "score"; chars "signature"]; lazy Dot; Chr 58];
    (* r'^.*?(instructions|directions|guidelines|background|note)' *)
    cat [Bol; lazy Dot; alt [chars "instructions"; chars "directions";
      chars "guidelines"; chars "background"; chars "note"]];
    (* r'^.*?page\s*\d+\s*of\s*\d+' *)
    cat [Bol; lazy Dot; chars "page"; many ws; many1 digit; many ws; chars "of";
      many ws; many1 digit];
    (* r'^.*?good\s*luck' *)
    cat [Bol; lazy Dot; chars "good"; many ws; chars "luck"];
    (* r'^.*?(exam|test)\s*(name|title)' *)
    cat [Bol; lazy Dot; alt [chars "exam"; chars "test"]; many ws; alt [chars "name";
      chars "title"]];
    (* r'^\s*[־\-_=]{3,}' *)
    cat [Bol; many ws; at_least 3 (Cls [One 0x5BE; One 45; One 95; One 61])];
    (* r'^\s*\d+\s*$' *)
    cat [Bol; many ws; many1 digit; many ws; Eol];
    (* r'^\s*[א-ת\s]{1,3}\s*$' *)
    cat [Bol; many ws; one_to_three (Cls [Range 0x5D0 0x5EA; Space]); many ws; Eol];
    (* r'^\s*[a-zA-Z\s]{1,3}\s*$' *)
    cat [Bol; many ws; one_to_three (Cls [Range 97 122; Range 65 90; Space]);
      many ws; Eol] ].

(** The double [0.01] *)
Definition confidence_floor : Q := 5764607523034235 # 576460752303423488.

(** [_validate_question] *)
Definition _validate_question (question : question) : bool :=
  let question_text := strip (get (question_text question)) in
  if negb (nonempty question_text) || (length question_text <? 10)%nat then false
  else
    let text_lower := lower question_text in
    if List.existsb (fun pattern => Re.matches MULTILINE_IGNORECASE pattern text_lower)
         reject_patterns
    then false
    else
      let question_indicators :=
        [ lit "?"; [0x5DE; 0x5D4]; [0x5D0; 0x5D9; 0x5DA]; [0x5DE; 0x5EA; 0x5D9];
          [0x5D0; 0x5D9; 0x5E4; 0x5D4]; [0x5DC; 0x5DE; 0x5D4]; [0x5DB; 0x5DE; 0x5D4];
          [0x5D4; 0x5D0; 0x5DD]; [0x5DE; 0x5D3; 0x5D5; 0x5E2]; [0x5DB; 0x5D9; 0x5E6; 0x5D3];
          lit "what"; lit "how"; lit "when"; lit "where"; lit "why"; lit "which";
          lit "who"; lit "explain"; lit "describe"; lit "calculate"; lit "solve";
          lit "find"; lit "determine"; lit "identify"; lit "analyze"; lit "compare" ] in
      let has_question_indicator :=
        List.existsb (fun indicator => contains indicator text_lower) question_indicators in
      let has_options :=
        List.existsb (fun pattern => contains pattern question_text)
          [ [0x5D0; 41]; [0x5D1; 41]; [0x5D2; 41]; [0x5D3; 41];
            lit "A)"; lit "B)"; lit "C)"; lit "D)"; lit "1)"; lit "2)"; lit "3)"; lit "4)";
            [40; 0x5D0; 41]; [40; 0x5D1; 41]; [40; 0x5D2; 41]; [40; 0x5D3; 41];
            lit "(A)"; lit "(B)"; lit "(C)"; lit "(D)";
            lit "(1)"; lit "(2)"; lit "(3)"; lit "(4)" ] in
      if negb (has_question_indicator || has_options) then false
      else
        let confidence :=
          match confidence_score question with Some c => c | None => 1 # 2 end in
        if negb (Qle_bool confidence_floor confidence) then false
        else if match question_type question with
                | Some t => Py.eqb t (lit "unknown")
                | None => false
                end
                && negb has_options && negb (contains (lit "?") question_text)
                && negb (Re.matches no_flags numbered_prefix (strip question_text))
        then false
        else true.

(** *** The dispatcher *)

(** An entry of the list of questions of a reply: [Typed q] is an object
    as described above.  [Untyped] is any other entry on which a statement
    of [analyze_text_with_llm] raises: a value that is no object (the call
    of [get] raises); an object whose text is no string (the slice of the
    log line or [strip] raise); an object that passes the tests made on its
    text and whose confidence cannot be compared with a number; an accepted
    object whose type cannot be hashed; an accepted object whose topic is no
    string, which cannot be hashed or has no [lower], so that the code
    raises when it collects the topics or, after phase 3, when it counts
    them.  The handler returns the same result whatever was raised and
    wherever, so the model raises at the entry's turn in phase 3.  An
    accepted object whose type or difficulty is a number, which the code
    carries along without raising, is not modelled. *)
Inductive entry :=
| Typed (q : question)
| Untyped.

(** The value at the key ["questions"]: a sequence of entries (a list; a
    string or an object count as the sequence of their characters or keys,
    which are [Untyped] entries), or a value on which [len] raises. *)
Inductive listing :=
| Entries (l : list entry)
| NoLength.

Record chunk_result := { questions : option listing }.

(** What [json.loads] returns for a content that is JSON. *)
Inductive parsed :=
| Object (result : chunk_result)
| NotObject.

(** What the model's answer to one request amounts to: the request or the
    access to its content raises, or the content is no string; or the
    content is JSON; or the content is no JSON, and the span from its first
    to its last brace is JSON, then an object, or is not. *)
Inductive api_reply :=
| ApiRaises
| Json (value : parsed)
| NotJson (salvaged : option chunk_result).

Definition max_retries : nat := 3.

(** [len(result.get('questions', []))] returns. *)
Definition countable (result : chunk_result) : bool :=
  match questions result with
  | Some NoLength => false
  | _ => true
  end.

(** [_call_openai_api]: the loop [for attempt in range(max_retries)], with
    [remaining] attempts left from [attempt] on.  The log line that follows
    [json.loads] is inside the outer [try]: when it raises, on a value that
    is no object or on questions without length, the attempt fails like a
    request that raises. *)
Fixpoint api_attempts (chunk : str) (chunk_index : nat) (remaining attempt : nat)
    : LLM api_reply (option chunk_result) :=
  match remaining with
  | O => ret None
  | S remaining' =>
      let continue := api_attempts chunk chunk_index remaining' (S attempt) in
      let except_Exception :=
        if (attempt <? max_retries - 1)%nat then continue else ret None in
      let* r := create chunk_index attempt chunk in
      match r with
      | Json (Object result) =>
          if countable result then ret (Some result) else except_Exception
      | Json NotObject => except_Exception
      | NotJson (Some result) => ret (Some result)
      | NotJson None =>
          if (attempt =? max_retries - 1)%nat then ret None else continue
      | ApiRaises => except_Exception
      end
  end.

Definition _call_openai_api (chunk : str) (chunk_index : nat)
    : LLM api_reply (option chunk_result) :=
  api_attempts chunk chunk_index max_retries 0.

(** *** The reconciler *)

(** The three assignments made to an accepted question. *)
Definition relabel (i : nat) (all_questions : list question) (q : question) : question :=
  {| question_id :=
       Some (lit "chunk_" ++ of_nat (i + 1) ++ lit "_"
             ++ match question_id q with
                | Some id => id
                | None => of_nat (length all_questions)
                end);
     question_text := question_text q;
     question_type := question_type q;
     topic := topic q;
     difficulty := difficulty q;
     confidence_score := confidence_score q;
     source_chunk := Some (Chunk (i + 1));
     detection_method := Some (lit "llm");
     question_number := question_number q |}.

(** The state of phase 3. *)
Record merged := {
  all_questions : list question;
  all_topics : gset str;
  question_types : gset str;
  excluded_questions : nat
}.

Definition add_truthy (value : option str) (set : gset str) : gset str :=
  match value with
  | Some (c :: s) => {[ c :: s ]} ∪ set
  | _ => set
  end.

Definition question_step (i : nat) (st : merged) (question : entry) : may_raise merged :=
  match question with
  | Untyped => inl TypeError
  | Typed q =>
      inr (if _validate_question q
           then {| all_questions := all_questions st ++ [relabel i (all_questions st) q];
                   all_topics := add_truthy (topic q) (all_topics st);
                   question_types := add_truthy (question_type q) (question_types st);
                   excluded_questions := excluded_questions st |}
           else {| all_questions := all_questions st;
                   all_topics := all_topics st;
                   question_types := question_types st;
                   excluded_questions := excluded_questions st + 1 |})
  end.

(** [if result and 'questions' in result: ...]; a failed chunk has no
    result.  The log line [len(chunk_questions)] raises on questions
    without length, which a salvaged object may hold. *)
Definition result_step (st : merged) (entry : option chunk_result * nat)
    : may_raise merged :=
  let '(result, i) := entry in
  match result with
  | Some {| questions := Some (Entries chunk_questions) |} =>
      fold_raising (question_step i) chunk_questions st
  | Some {| questions := Some NoLength |} => inl TypeError
  | _ => inr st
  end.

(** Phase 3 *)
Definition merge_results (results : list (option chunk_result)) : may_raise merged :=
  fold_raising result_step (enumerate results)
    {| all_questions := []; all_topics := ∅; question_types := ∅;
       excluded_questions := 0 |}.

(** Phase 4 *)
Definition with_recovery (numbered_questions : list numbered_question)
    (all_questions : list question) : may_raise (list question) :=
  if (length all_questions <? 10)%nat
  then and_then (_recover_missing_questions numbered_questions all_questions)
         (fun recovery_questions => inr (all_questions ++ recovery_questions))
  else inr all_questions.

(** [topic_counts], in the order in which the topics first occur. *)
Fixpoint count_topic (topic : str) (topic_counts : list (str * nat)) : list (str * nat) :=
  match topic_counts with
  | [] => [(topic, 1%nat)]
  | (t, n) :: rest =>
      if Py.eqb t topic then (t, S n) :: rest else (t, n) :: count_topic topic rest
  end.

Definition topic_counts (all_questions : list question) : list (str * nat) :=
  fold_left (fun counts q =>
               count_topic (match topic q with Some t => t | None => lit "Unknown" end) counts)
            all_questions [].

(** The summary; the keys ["question_types"] and ["chunks_processed"] are
    those of a successful analysis only. *)
Record summary := {
  total_questions : nat;
  topics_found : nat;
  summary_question_types : option (gset str);
  chunks_processed : option nat;
  processing_success : bool
}.

(** The result of the analysis: the questions, the topics with their counts
    (the other fields of a topic are constants or derived from its name) and
    the summary. *)
Record analysis_result := {
  result_questions : list question;
  result_topics : list (str * nat);
  result_summary : summary
}.

(** Phase 2: one task per chunk. *)
Definition dispatch_chunks (chunks : list str) : LLM api_reply (list (option chunk_result)) :=
  mapM (fun '(chunk, i) => _call_openai_api chunk i) (enumerate chunks).

(** Phases 3, 4 and 5 and the final result. *)
Definition reconcile (numbered_questions : list numbered_question) (chunks : list str)
    (results : list (option chunk_result)) : may_raise analysis_result :=
  and_then (merge_results results) (fun merged =>
  and_then (with_recovery numbered_questions (all_questions merged)) (fun all_questions =>
  and_then (_validate_against_deterministic_scan all_questions numbered_questions) (fun _ =>
    let topics := topic_counts all_questions in
    inr {| result_questions := all_questions;
           result_topics := topics;
           result_summary :=
             {| total_questions := length all_questions;
                topics_found := length topics;
                summary_question_types := Some (question_types merged);
                chunks_processed := Some (length chunks);
                processing_success := true |} |}))).

(** What the handler [except Exception] of [analyze_text_with_llm] returns;
    the entry ["error"] of its summary, the text of what was raised, is left
    out. *)
Definition failure_result : analysis_result :=
  {| result_questions := [];
     result_topics := [];
     result_summary :=
       {| total_questions := 0;
          topics_found := 0;
          summary_question_types := None;
          chunks_processed := None;
          processing_success := false |} |}.

(** [analyze_text_with_llm].  The whole body is inside the [try]: the scan
    of phase 1 comes before the requests, phases 3 to 5 after them; the
    chunker, the prompt and the dispatcher do not raise. *)
Definition analyze_text_with_llm (text : str) : LLM api_reply analysis_result :=
  match _extract_numbered_questions_deterministic text with
  | inl _ => ret failure_result
  | inr numbered_questions =>
      let chunks := _chunk_text_intelligently text in
      let* results := dispatch_chunks chunks in
      ret (match reconcile numbered_questions chunks results with
           | inl _ => failure_result
           | inr final_result => final_result
           end)
  end.

End LLMService.

(** ** [api/analysis.py] *)

Module Api.

(** The exceptions at the boundary: [HTTPException], which is an
    [Exception], and the others. *)
Inductive exn :=
| HTTPException (status_code : nat) (detail : str)
| Error (message : str).

(** [str(e)] *)
Definition exn_str (e : exn) : str :=
  match e with
  | HTTPException status_code detail => of_nat status_code ++ lit ": " ++ detail
  | Error message => message
  end.

(** A computation that may raise. *)
Definition raising (A : Type) : Type := exn + A.

Definition raise {A} (e : exn) : raising A := inl e.

(** [try: body  except Exception as e: handler(e)] *)
Definition try_except {A} (body : raising A) (handler : exn -> raising A) : raising A :=
  match body with
  | inl e => handler e
  | inr a => inr a
  end.

Record AnalysisResponse := {
  document_id : str;
  status : str;
  questions_found : nat;
  topics_identified : nat;
  analysis_data : LLMService.analysis_result
}.

Section Endpoint.

(** The two constructor calls [SimplePDFParser()] and
    [LLMQuestionAnalyzer()], which are the first statements of the [try]
    block: the first does nothing, the second builds the client of the
    remote model and raises when that fails, as it does without
    credentials. *)
Variable new_processors : raising unit.

(** [pdf_processor.extract_text] and [question_analyzer.analyze] *)
Variable extract_text : str -> raising (option str).
Variable analyze : str -> raising LLMService.analysis_result.

(** [analyze_document] *)
Definition analyze_document (request_document_id : str) : raising AnalysisResponse :=
  try_except
    (match new_processors with
     | inl e => raise e
     | inr _ =>
         match extract_text request_document_id with
         | inl e => raise e
         | inr extracted_text =>
             match extracted_text with
             | None | Some [] =>
                 raise (HTTPException 400 (lit "No text could be extracted from document"))
             | Some extracted_text =>
                 match analyze extracted_text with
                 | inl e => raise e
                 | inr analysis_result =>
                     inr {| document_id := request_document_id;
                            status := lit "completed";
                            questions_found :=
                              length (LLMService.result_questions analysis_result);
                            topics_identified :=
                              length (LLMService.result_topics analysis_result);
                            analysis_data := analysis_result |}
                 end
             end
         end
     end)
    (fun e => raise (HTTPException 500 (lit "Analysis failed: " ++ exn_str e))).

End Endpoint.

End Api.

(** ** Sample inputs *)

Module Samples.

(** The word "shalom", and a model that answers every request alike. *)
Definition shalom : str := [0x5E9; 0x5DC; 0x5D5; 0x5DD].

Definition polite_model : HebrewTranslator.oracle :=
  fun _ _ _ =>
    HebrewTranslator.Content (Some (lit "Translation: Hello, peace [be] with you!")).

(** A numbered question of [3 + k] characters. *)
Definition numbered (n : string) (c : char) (k : nat) : str :=
  lit n ++ lit "." ++ [sp] ++ repeat c k.

(** An exam of exactly 3000 characters: three questions of 1000, 1000 and
    998 characters, one per line. *)
Definition q1 : str := numbered "1" 97 997.
Definition q2 : str := numbered "2" 98 997.
Definition q3 : str := numbered "3" 99 995.
Definition crowded_exam : str := q1 ++ [nl] ++ q2 ++ [nl] ++ q3.

(** Two questions, the second of seven characters. *)
Definition short_exam : str :=
  lit "1. What is the best firewall?" ++ [nl] ++ lit "2. Why?".

(** An opening paragraph, then two questions numbered without a mark. *)
Definition prefaced_exam : str :=
  lit "This examination covers the whole term and every answer is to be given in full sentences."
  ++ [nl] ++ lit "1 What is the best firewall for a small office?"
  ++ [nl] ++ lit "2 Which protocol encrypts web traffic today?".

(** A text that is one line of boilerplate. *)
Definition boilerplate : str := lit "Exam Instructions: answer every question" ++ [nl].

(** Two numbered questions; the first has fifteen characters. *)
Definition two_questions : str :=
  lit "1. What is TLS?" ++ [nl]
  ++ lit "2. Which protocol encrypts web traffic today?" ++ [nl]
  ++ lit "A) TLS  B) FTP".


(** An exam that makes three chunks: three questions of 2000 characters. *)
Definition long1 : str := numbered "1" 97 1997.
Definition long2 : str := numbered "2" 98 1997.
Definition long3 : str := numbered "3" 99 1997.
Definition long_exam : str := long1 ++ [nl] ++ long2 ++ [nl] ++ long3.

Definition answer (question_text : string) : LLMService.question :=
  {| LLMService.question_id := Some (lit "q_1");
     LLMService.question_text := Some (lit question_text);
     LLMService.question_type := Some (lit "multiple_choice");
     LLMService.topic := Some (lit "Cybersecurity");
     LLMService.difficulty := Some (lit "easy");
     LLMService.confidence_score := Some (95 # 100)%Q;
     LLMService.source_chunk := None;
     LLMService.detection_method := None;
     LLMService.question_number := None |}.

(** A model that fails on every attempt for the second chunk and answers
    the others with one question. *)
Definition flaky_model : oracle LLMService.api_reply :=
  fun chunk_index _ _ =>
    if (chunk_index =? 1)%nat then LLMService.ApiRaises
    else LLMService.Json
           (LLMService.Object
              {| LLMService.questions :=
                   Some (LLMService.Entries
                           [LLMService.Typed (answer "What is a firewall used for?")]) |}).

End Samples.

(** ** Quantities of the specification *)

Module Measures.

Import LLMService.


(** The question carries the tag of the deterministic recovery. *)
Definition recovered (q : question) : bool :=
  match detection_method q with
  | Some method => Py.eqb method (lit "deterministic_recovery")
  | None => false
  end.






(** The questions the validator accepted, for a text and a model: the
    questions that phase 3 collects, if it completes. *)
Definition accepted_questions (llm : oracle api_reply) (text : str)
    : may_raise (list question) :=
  and_then
    (merge_results (fst (run (dispatch_chunks (_chunk_text_intelligently text)) llm)))
    (fun merged => inr (all_questions merged)).

End Measures.

(** ** [simple_pdf_parser.py] *)

Module SimplePDFParser.

(** [_clean_text] *)
Definition _clean_text (text : str) : str :=
  match text with
  | [] => []
  | _ :: _ =>
      let lines := split [nl] text in
      let cleaned_lines := List.filter nonempty (List.map strip lines) in
      join [nl] cleaned_lines
  end.

(** What [page.extract_text()] does for a page: it raises, or returns the
    text of the page. *)
Inductive page :=
| PageRaises
| PageText (page_text : str).

(** What is stored under a document id: no file; a file that cannot be
    opened or read as a PDF; or a PDF, with its pages. *)
Inductive document :=
| NoFile
| Unreadable
| Pdf (pages : list page).

(** The loop over the pages; a page that raises adds nothing. *)
Definition page_step (text : str) (entry : page * nat) : str :=
  let '(page, page_num) := entry in
  match page with
  | PageRaises => text
  | PageText page_text =>
      text ++ [nl] ++ lit "--- Page " ++ of_nat (page_num + 1) ++ lit " ---" ++ [nl]
      ++ page_text
  end.

(** [extract_text], on what is stored under the document id. *)
Definition extract_text (stored : document) : option str :=
  match stored with
  | NoFile | Unreadable => None
  | Pdf pages => Some (_clean_text (fold_left page_step (enumerate pages) []))
  end.

End SimplePDFParser.

(** ** [llm_question_analyzer.py] *)

Module LLMQuestionAnalyzer.

Import LLMService.

(** [len(s.split())]: the number of runs of characters that are not white
    space; [in_word] tells that the previous character was in such a run. *)
Fixpoint count_words (in_word : bool) (s : str) : nat :=
  match s with
  | [] => 0
  | c :: t =>
      if isspace c then count_words false t
      else if in_word then count_words true t
      else S (count_words true t)
  end.

(** The doubles [0.5] and [0.7] *)
Definition fallback_confidence : Q := 1 # 2.
Definition default_confidence : Q := 3152519739159347 # 4503599627370496.

(** The type that [_fallback_analysis] gives to a line. *)
Definition fallback_question_type (line : str) : str :=
  let lowered := lower line in
  if List.existsb (fun indicator => contains indicator lowered)
       [lit "a)"; lit "b)"; lit "c)"; lit "d)"; lit "1)"; lit "2)"; lit "3)"; lit "4)"]
  then lit "multiple_choice"
  else if List.existsb (fun indicator => contains indicator lowered)
            [lit "true or false"; lit "true/false"; lit "t/f"]
  then lit "true_false"
  else if (10 <? count_words false line)%nat then lit "short_answer"
  else lit "unknown".

Definition fallback_question (line : str) (i : nat) : question :=
  {| question_id := Some (lit "fallback_q_" ++ of_nat i);
     question_text := Some line;
     question_type := Some (fallback_question_type line);
     topic := Some (lit "General");
     difficulty := Some (lit "medium");
     confidence_score := Some fallback_confidence;
     source_chunk := None;
     detection_method := None;
     question_number := None |}.

(** The result of [_fallback_analysis]: the questions, the topics with
    their counts and the two counters of the summary (the other entries are
    constants). *)
Record fallback_result := {
  fallback_questions : list question;
  fallback_topics : list (str * nat);
  fallback_total_questions : nat;
  fallback_topics_found : nat
}.

(** [_fallback_analysis] *)
Definition _fallback_analysis (text : str) : fallback_result :=
  let lines := Py.split [nl] text in
  let questions :=
    flat_map (fun '(line, i) =>
                let line := strip line in
                if contains (lit "?") line && (15 <? length line)%nat
                then [fallback_question line i]
                else [])
             (enumerate lines) in
  let topics :=
    match questions with
    | [] => []
    | _ :: _ => [(lit "General", length questions)]
    end in
  {| fallback_questions := questions;
     fallback_topics := topics;
     fallback_total_questions := length questions;
     fallback_topics_found := length topics |}.

(** Python's [not value] for the value of a key that may be absent. *)
Definition falsy (value : option str) : bool :=
  match value with
  | Some (_ :: _) => false
  | _ => true
  end.

Definition or_default (value : option str) (default : string) : option str :=
  if falsy value then Some (lit default) else value.

(** The body of the loop of [_validate_and_enhance_result], for a result
    of [n] questions. *)
Definition enhance_question (n : nat) (q : question) : question :=
  {| question_id :=
       if falsy (question_id q) then Some (lit "q_" ++ of_nat n) else question_id q;
     question_text := or_default (question_text q) "Question text not available";
     question_type := or_default (question_type q) "unknown";
     topic := or_default (topic q) "General";
     difficulty := or_default (difficulty q) "medium";
     confidence_score :=
       match confidence_score q with
       | Some c => if Qeq_bool c 0 then Some default_confidence else Some c
       | None => Some default_confidence
       end;
     source_chunk := source_chunk q;
     detection_method := detection_method q;
     question_number := question_number q |}.

(** [_validate_and_enhance_result], on a result of [analyze_text_with_llm]:
    its ["questions"], ["topics"] and ["clusters"] are lists and its
    ["summary"] is a dictionary, so the four [isinstance] tests pass. *)
Definition _validate_and_enhance_result (result : analysis_result) : analysis_result :=
  let questions := result_questions result in
  {| result_questions := List.map (enhance_question (length questions)) questions;
     result_topics := result_topics result;
     result_summary :=
       {| total_questions := length questions;
          topics_found := length (result_topics result);
          summary_question_types := summary_question_types (result_summary result);
          chunks_processed := chunks_processed (result_summary result);
          processing_success := processing_success (result_summary result) |} |}.

(** What [analyze] returns: the enhanced result of the model's analysis,
    or the result of the fallback. *)
Inductive analysis :=
| ByModel (result : analysis_result)
| ByFallback (result : fallback_result).

(** [analyze]; [api_connected] is the outcome of [test_api_connection].
    [analyze_text_with_llm] catches what is raised inside it and
    [_validate_and_enhance_result] does not raise on its result, so the
    handler of [analyze] is not reached. *)
Definition analyze (api_connected : bool) (text : str) : LLM api_reply analysis :=
  if negb api_connected then ret (ByFallback (_fallback_analysis text))
  else
    let* result := analyze_text_with_llm text in
    ret (ByModel (_validate_and_enhance_result result)).

End LLMQuestionAnalyzer.

(** ** More sample models *)

Module Scenarios.

(** A translator model whose every request raises. *)
Definition silent_translator : HebrewTranslator.oracle :=
  fun _ _ _ => HebrewTranslator.Raises.

(** Two paragraphs of 2000 times the letter alef. *)
Definition two_paragraphs : str :=
  repeat 0x5D0 2000 ++ [nl; nl] ++ repeat 0x5D0 2000.


(** A normalization that misbehaves: it appends the letter alef. *)
Definition appending_alef (s : str) : str := s ++ [0x5D0].

(** A model that answers with one question that has no topic. *)
Definition untopical_model : oracle LLMService.api_reply :=
  fun _ _ _ =>
    LLMService.Json
      (LLMService.Object
         {| LLMService.questions :=
              Some (LLMService.Entries
                      [ LLMService.Typed
                          {| LLMService.question_id := Some (lit "q_1");
                             LLMService.question_text :=
                               Some (lit "1. What is a firewall used for?");
                             LLMService.question_type := Some (lit "short_answer");
                             LLMService.topic := None;
                             LLMService.difficulty := None;
                             LLMService.confidence_score := None;
                             LLMService.source_chunk := None;
                             LLMService.detection_method := None;
                             LLMService.question_number := None |} ]) |}).

(** A question whose text starts with a numeral of 4301 digits. *)
Definition long_numeral : str := repeat 49 4301 ++ lit ". What is a firewall used for?".

Definition overnumbered : LLMService.question :=
  {| LLMService.question_id := Some (lit "q_1");
     LLMService.question_text := Some long_numeral;
     LLMService.question_type := Some (lit "multiple_choice");
     LLMService.topic := Some (lit "Cybersecurity");
     LLMService.difficulty := Some (lit "easy");
     LLMService.confidence_score := Some (95 # 100)%Q;
     LLMService.source_chunk := None;
     LLMService.detection_method := None;
     LLMService.question_number := None |}.

(** A model that fails on every attempt for the second chunk and answers
    the others with that question. *)
Definition overnumbering_model : oracle LLMService.api_reply :=
  fun chunk_index _ _ =>
    if (chunk_index =? 1)%nat then LLMService.ApiRaises
    else LLMService.Json
           (LLMService.Object
              {| LLMService.questions :=
                   Some (LLMService.Entries [LLMService.Typed overnumbered]) |}).

(** A model that wraps its answer in text, with a number where the list of
    questions should be. *)
Definition miscounting_model : oracle LLMService.api_reply :=
  fun _ _ _ =>
    LLMService.NotJson (Some {| LLMService.questions := Some LLMService.NoLength |}).

End Scenarios.

(** * Properties *)

(** ** Facts about the string operations *)

Module PyFacts.

Lemma eqb_refl (s : str) : Py.eqb s s = true.
Proof. induction s as [|c s IH]; simpl; [reflexivity|]. now rewrite N.eqb_refl. Qed.

Lemma eqb_eq (a b : str) : Py.eqb a b = true <-> a = b.
Proof.
  split; [|intros ->; apply eqb_refl].
  revert b; induction a as [|x a IH]; intros [|y b]; simpl; try congruence.
  intros H. apply andb_prop in H as [H1 H2].
  apply N.eqb_eq in H1. apply IH in H2. congruence.
Qed.

Lemma dropwhile_Forall (P : char -> Prop) p s :
  Forall P s -> Forall P (dropwhile p s).
Proof.
  induction 1 as [|c s Hc Hs IH]; simpl; [constructor|].
  destruct (p c); [assumption | now constructor].
Qed.

(** [rstrip], one character at a time. *)
Lemma rstrip_cons c t :
  rstrip (c :: t) =
  match rstrip t with
  | [] => if isspace c then [] else [c]
  | _ :: _ => c :: rstrip t
  end.
Proof. cbn [rstrip]. now destruct (rstrip t). Qed.

Lemma rstrip_nil : rstrip [] = [].
Proof. reflexivity. Qed.

Lemma rstrip_Forall (P : char -> Prop) s : Forall P s -> Forall P (rstrip s).
Proof.
  induction 1 as [|c s Hc Hs IH]; [constructor|].
  rewrite rstrip_cons. destruct (rstrip s).
  - destruct (isspace c); auto.
  - now constructor.
Qed.

Lemma strip_Forall (P : char -> Prop) s : Forall P s -> Forall P (strip s).
Proof. intros H. apply rstrip_Forall, dropwhile_Forall, H. Qed.

(** A text with no white space at either end. *)
Definition trimmed (s : str) : Prop := lstrip s = s /\ rstrip s = s.

Lemma rstrip_idem s : rstrip (rstrip s) = rstrip s.
Proof.
  induction s as [|c s IH]; [reflexivity|].
  rewrite rstrip_cons. destruct (rstrip s) as [|y r] eqn:E.
  - destruct (isspace c) eqn:Ec; [reflexivity|].
    rewrite rstrip_cons, rstrip_nil, Ec. reflexivity.
  - rewrite rstrip_cons, IH. reflexivity.
Qed.

Lemma lstrip_head c t : isspace c = false -> lstrip (c :: t) = c :: t.
Proof. intros H. unfold lstrip. simpl. now rewrite H. Qed.

Lemma lstrip_cases s :
  lstrip s = [] \/ exists c t, lstrip s = c :: t /\ isspace c = false.
Proof.
  induction s as [|c s IH]; [now left|].
  unfold lstrip in *. simpl. destruct (isspace c) eqn:E; [exact IH|].
  right. now exists c, s.
Qed.

Lemma rstrip_head c t : isspace c = false -> exists r, rstrip (c :: t) = c :: r.
Proof.
  intros H. rewrite rstrip_cons, H. destruct (rstrip t); eauto.
Qed.

Lemma strip_trimmed s : trimmed (strip s).
Proof.
  unfold trimmed, strip. split; [|apply rstrip_idem].
  destruct (lstrip_cases s) as [E | (c & t & E & Hc)]; rewrite E.
  - reflexivity.
  - destruct (rstrip_head c t Hc) as [r Hr]. rewrite Hr. now apply lstrip_head.
Qed.

Lemma trimmed_strip s : trimmed s -> strip s = s.
Proof. intros [H1 H2]. unfold strip. now rewrite H1. Qed.

Lemma strip_idem s : strip (strip s) = strip s.
Proof. apply trimmed_strip, strip_trimmed. Qed.

(** The shape of a text whose white-space runs were collapsed: the only
    white space is the single space, never twice in a row; [prev] tells that
    the character before the text is a space. *)
Fixpoint collapsed (prev : bool) (s : str) : Prop :=
  match s with
  | [] => True
  | c :: t => if isspace c then c = sp /\ prev = false /\ collapsed true t
              else collapsed false t
  end.

Lemma collapse_from_collapsed b s : collapsed b (collapse_from b s).
Proof.
  revert b; induction s as [|c s IH]; intros b; simpl; [exact I|].
  destruct (isspace c) eqn:E.
  - destruct b; [apply IH|]. simpl. repeat split. apply IH.
  - simpl. rewrite E. apply IH.
Qed.

Lemma collapsed_fix b s : collapsed b s -> collapse_from b s = s.
Proof.
  revert b; induction s as [|c s IH]; intros b; simpl; [reflexivity|].
  destruct (isspace c) eqn:E.
  - intros (-> & -> & H). now rewrite (IH true H).
  - intros H. now rewrite (IH false H).
Qed.

Lemma collapsed_weaken b s : collapsed b s -> collapsed false s.
Proof.
  destruct s as [|c s]; simpl; [easy|].
  destruct (isspace c); [|easy]. intros (-> & _ & H). easy.
Qed.

Lemma collapsed_lstrip b s : collapsed b s -> collapsed false (lstrip s).
Proof.
  unfold lstrip. revert b; induction s as [|c s IH]; intros b; simpl; [easy|].
  destruct (isspace c) eqn:E.
  - intros (_ & _ & H). now apply IH in H.
  - intros H. simpl. now rewrite E.
Qed.

Lemma collapsed_rstrip b s : collapsed b s -> collapsed b (rstrip s).
Proof.
  revert b; induction s as [|c s IH]; intros b H; [exact H|].
  rewrite rstrip_cons. simpl in H.
  destruct (rstrip s) as [|y r] eqn:Er.
  - destruct (isspace c) eqn:E; simpl; [exact I|]. now rewrite E.
  - simpl. destruct (isspace c) eqn:E.
    + destruct H as (-> & -> & H). repeat split. now apply IH in H.
    + now apply IH in H.
Qed.

(** [strip(re.sub(r'\s+', ' ', s))] is a fixed point of both operations. *)
Lemma collapse_strip_fix s :
  let out := strip (collapse_ws s) in collapse_ws out = out /\ strip out = out.
Proof.
  simpl. split; [|apply strip_idem].
  apply collapsed_fix. unfold strip.
  apply collapsed_rstrip, (collapsed_lstrip false), collapse_from_collapsed.
Qed.

Lemma collapse_from_Forall (P : char -> Prop) b s :
  P sp -> Forall P s -> Forall P (collapse_from b s).
Proof.
  intros Hsp H. revert b; induction H as [|c s Hc Hs IH]; intros b; simpl; [constructor|].
  destruct (isspace c); [destruct b|]; auto.
Qed.

(** After collapsing, a character is the space or is not white space. *)
Lemma collapse_from_spaces b s :
  Forall (fun c => c = sp \/ isspace c = false) (collapse_from b s).
Proof.
  revert b; induction s as [|c s IH]; intros b; simpl; [constructor|].
  destruct (isspace c) eqn:E; [destruct b|]; auto.
Qed.

Lemma filter_Forall (p : char -> bool) s : Forall (fun c => p c = true) (List.filter p s).
Proof. apply List.Forall_forall. intros c Hc. now apply filter_In in Hc. Qed.

Lemma filter_keeps (P : char -> Prop) (p : char -> bool) s :
  Forall P s -> Forall P (List.filter p s).
Proof.
  intros H. apply List.Forall_forall. intros c Hc. apply filter_In in Hc as [Hc _].
  now apply (proj1 (List.Forall_forall _ _) H).
Qed.

Lemma filter_fix (p : char -> bool) s :
  Forall (fun c => p c = true) s -> List.filter p s = s.
Proof.
  induction 1 as [|c s Hc Hs IH]; simpl; [reflexivity|]. now rewrite Hc, IH.
Qed.

Lemma Forall_and (P Q : char -> Prop) s : Forall P s -> Forall Q s -> Forall (fun c => P c /\ Q c) s.
Proof. induction 1; intros HQ; inversion HQ; subst; constructor; auto. Qed.

(** A property of the 128 ASCII code points, checked by evaluation. *)
Lemma ascii_cases (P : char -> bool) :
  List.forallb P (List.map N.of_nat (seq 0 128)) = true ->
  forall c, c < 128 -> P c = true.
Proof.
  intros H c Hc. rewrite forallb_forall in H. apply H.
  apply in_map_iff. exists (N.to_nat c). split; [apply N2Nat.id|].
  apply in_seq. lia.
Qed.

(** No occurrence to remove: [replace] returns the text. *)
Lemma remove_all_absent p s : contains p s = false -> remove_all p s = s.
Proof.
  unfold remove_all. induction s as [|c s IH]; simpl; [reflexivity|].
  intros H. apply orb_false_elim in H as [H1 H2].
  rewrite H1. now rewrite (IH H2).
Qed.

Lemma digits_of_uint (u : Decimal.uint) :
  Forall (fun c => 48 <= c <= 57) (lit (NilEmpty.string_of_uint u)).
Proof.
  unfold lit. induction u; simpl; constructor; try assumption; cbn; lia.
Qed.

Lemma of_nat_digits n : Forall (fun c => 48 <= c <= 57) (of_nat n).
Proof. apply digits_of_uint. Qed.

End PyFacts.

(** ** More facts about the string operations *)

Module TextFacts.

Import PyFacts.

(** The characters of a text that are not white space. *)
Definition ink (s : str) : str := List.filter (fun c => negb (isspace c)) s.

Lemma ink_app a b : ink (a ++ b) = ink a ++ ink b.
Proof. apply List.filter_app. Qed.

Lemma ink_cons c s : ink (c :: s) = if isspace c then ink s else c :: ink s.
Proof. unfold ink. simpl. now destruct (isspace c). Qed.

Lemma ink_lstrip s : ink (lstrip s) = ink s.
Proof.
  unfold lstrip. induction s as [|c s IH]; [reflexivity|].
  simpl dropwhile. rewrite (ink_cons c s).
  destruct (isspace c) eqn:E; [exact IH|]. now rewrite ink_cons, E.
Qed.

Lemma ink_rstrip s : ink (rstrip s) = ink s.
Proof.
  induction s as [|c s IH]; [reflexivity|].
  rewrite rstrip_cons, (ink_cons c s). destruct (rstrip s) as [|x r] eqn:E.
  - rewrite <- IH. destruct (isspace c) eqn:Ec; [reflexivity|].
    now rewrite ink_cons, Ec.
  - rewrite ink_cons, IH. reflexivity.
Qed.

Lemma ink_strip s : ink (strip s) = ink s.
Proof. unfold strip. now rewrite ink_rstrip, ink_lstrip. Qed.

Lemma ink_nil_strip s : ink s = [] -> strip s = [].
Proof.
  intros H. unfold strip.
  assert (lstrip s = []) as ->; [|reflexivity].
  unfold lstrip. induction s as [|c s IH]; [reflexivity|].
  rewrite ink_cons in H. simpl. destruct (isspace c); [auto | discriminate].
Qed.

Lemma strip_nil_ink s : strip s = [] -> ink s = [].
Proof. intros H. now rewrite <- ink_strip, H. Qed.

Lemma rstrip_length s : (length (rstrip s) <= length s)%nat.
Proof.
  induction s as [|c s IH]; [simpl; lia|].
  rewrite rstrip_cons. destruct (rstrip s); [destruct (isspace c)|]; simpl in *; lia.
Qed.

Lemma lstrip_length s : (length (lstrip s) <= length s)%nat.
Proof.
  unfold lstrip. induction s as [|c s IH]; simpl; [lia|].
  destruct (isspace c); simpl; lia.
Qed.

Lemma strip_length s : (length (strip s) <= length s)%nat.
Proof. unfold strip. generalize (rstrip_length (lstrip s)) (lstrip_length s). lia. Qed.

(** *** [split] and [join] *)

Lemma startswith_refl p rest : startswith p (p ++ rest) = true.
Proof. induction p as [|c p IH]; simpl; [reflexivity|]. now rewrite N.eqb_refl. Qed.

Lemma startswith_app p s : startswith p s = true -> exists rest, s = p ++ rest.
Proof.
  revert s; induction p as [|c p IH]; intros s H; [now exists s|].
  destruct s as [|y s]; [discriminate|]. simpl in H.
  apply andb_prop in H as [H1 H2]. apply N.eqb_eq in H1. subst y.
  destruct (IH s H2) as [rest ->]. now exists rest.
Qed.

Lemma split_from_skip sep p cur rest :
  split_from sep (length p) cur (p ++ rest) = split_from sep 0 cur rest.
Proof. induction p as [|c p IH]; [reflexivity|]. simpl. exact IH. Qed.

(** The three equations of [split]. *)
Lemma split_from_sep sep cur rest :
  sep <> [] -> split_from sep 0 cur (sep ++ rest) = rev cur :: split_from sep 0 [] rest.
Proof.
  destruct sep as [|c sep]; [congruence|]. intros _.
  change ((c :: sep) ++ rest) with (c :: (sep ++ rest)).
  cbn [split_from]. change (c :: sep ++ rest) with ((c :: sep) ++ rest).
  rewrite startswith_refl. cbn [length Nat.pred].
  rewrite rev_append_rev, app_nil_r.
  destruct (length sep) eqn:E.
  - destruct sep; [reflexivity | discriminate].
  - rewrite <- E. now rewrite split_from_skip.
Qed.

Lemma split_from_other sep cur c t :
  startswith sep (c :: t) = false ->
  split_from sep 0 cur (c :: t) = split_from sep 0 (c :: cur) t.
Proof. intros H. cbn [split_from]. now rewrite H. Qed.

Lemma split_from_end sep cur : split_from sep 0 cur [] = [rev cur].
Proof. simpl. now rewrite rev_append_rev, app_nil_r. Qed.

Lemma split_from_cases sep (P : str -> str -> list str -> Prop) :
  sep <> [] ->
  (forall cur, P cur [] [rev cur]) ->
  (forall cur rest, P [] rest (split_from sep 0 [] rest) ->
                    P cur (sep ++ rest) (rev cur :: split_from sep 0 [] rest)) ->
  (forall cur c t, startswith sep (c :: t) = false ->
                   P (c :: cur) t (split_from sep 0 (c :: cur) t) ->
                   P cur (c :: t) (split_from sep 0 (c :: cur) t)) ->
  forall s cur, P cur s (split_from sep 0 cur s).
Proof.
  intros Hsep Hnil Hcut Hgo s.
  assert (forall n s, (length s <= n)%nat -> forall cur, P cur s (split_from sep 0 cur s)) as H.
  { induction n as [|n IH]; intros s' Hn cur.
    - destruct s'; [|simpl in Hn; lia]. rewrite split_from_end. apply Hnil.
    - destruct s' as [|c t]; [rewrite split_from_end; apply Hnil|].
      destruct (startswith sep (c :: t)) eqn:E.
      + apply startswith_app in E as [rest E]. rewrite E.
        rewrite split_from_sep by exact Hsep. apply Hcut. apply IH.
        destruct sep; [congruence|]. apply (f_equal (@length _)) in E.
        simpl in E, Hn. rewrite length_app in E. lia.
      + rewrite split_from_other by exact E. apply Hgo; [exact E|].
        apply IH. simpl in Hn. lia. }
  intros cur. now apply (H (length s)).
Qed.

Lemma split_from_nonempty sep s : forall skip cur, split_from sep skip cur s <> [].
Proof.
  induction s as [|c t IH]; intros skip cur; simpl; [discriminate|].
  destruct skip; [|apply IH].
  destruct (startswith sep (c :: t)); [|apply IH].
  destruct (Nat.pred (length sep)); discriminate.
Qed.

Lemma join_cons sep x l : l <> [] -> join sep (x :: l) = x ++ sep ++ join sep l.
Proof. destruct l; [congruence | reflexivity]. Qed.

(** [sep.join(s.split(sep)) == s] *)
Lemma join_split_from sep : sep <> [] ->
  forall s cur, join sep (split_from sep 0 cur s) = rev cur ++ s.
Proof.
  intros Hsep.
  apply (split_from_cases sep (fun cur s l => join sep l = rev cur ++ s) Hsep).
  - intros cur. cbn [join]. now rewrite app_nil_r.
  - intros cur rest IH. rewrite join_cons by apply split_from_nonempty.
    now rewrite IH.
  - intros cur c t _ IH. rewrite IH. cbn [rev]. now rewrite <- app_assoc.
Qed.

Lemma join_split sep s : sep <> [] -> join sep (split sep s) = s.
Proof. intros H. unfold split. now rewrite join_split_from. Qed.

Lemma ink_join sep l : ink sep = [] -> ink (join sep l) = ink (concat l).
Proof.
  intros H. induction l as [|x l IH]; [reflexivity|].
  destruct l as [|y l].
  - cbn [join concat]. now rewrite app_nil_r.
  - rewrite join_cons by discriminate.
    change (concat (x :: y :: l)) with (x ++ concat (y :: l)).
    now rewrite !ink_app, H, IH.
Qed.

(** Splitting at a white-space separator loses no other character. *)
Lemma ink_split sep s : sep <> [] -> ink sep = [] -> ink (concat (split sep s)) = ink s.
Proof. intros H1 H2. rewrite <- (ink_join sep) by exact H2. now rewrite join_split. Qed.

End TextFacts.

(** ** Facts about the log of requests *)

Module LogFacts.

(** The requests of the attempts [first], ..., [first + n - 1] for a chunk. *)
Definition requests (chunk : str) (chunk_index first n : nat) : list request :=
  List.map (fun attempt => (chunk_index, attempt, chunk)) (seq first n).

Lemma requests_cons chunk i first n :
  requests chunk i first (S n) = (i, first, chunk) :: requests chunk i (S first) n.
Proof. reflexivity. Qed.

Lemma requests_length chunk i first n : length (requests chunk i first n) = n.
Proof. unfold requests. now rewrite length_map, length_seq. Qed.

Lemma omap_id_Some {A} (l : list A) : omap id (List.map Some l) = l.
Proof. induction l as [|a l IH]; [reflexivity|]. cbn. now rewrite IH. Qed.

Lemma length_enumerate_from {A} (l : list A) : forall n, length (enumerate_from n l) = length l.
Proof. induction l as [|a l IH]; intros n; simpl; [reflexivity|]. now rewrite IH. Qed.

Lemma map_fst_enumerate_from {A} (l : list A) : forall n, List.map fst (enumerate_from n l) = l.
Proof. induction l as [|a l IH]; intros n; simpl; [reflexivity|]. now rewrite IH. Qed.

Lemma nth_error_enumerate_from {A} (l : list A) :
  forall n i, nth_error (enumerate_from n l) i
              = option_map (fun a => (a, (n + i)%nat)) (nth_error l i).
Proof.
  induction l as [|a l IH]; intros n [|i]; simpl; try reflexivity.
  - now rewrite Nat.add_0_r.
  - rewrite IH. now rewrite Nat.add_succ_r.
Qed.

Lemma in_enumerate_from {A} (l : list A) a i :
  forall n, In (a, i) (enumerate_from n l) ->
            (n <= i)%nat /\ nth_error l (i - n) = Some a.
Proof.
  induction l as [|b l IH]; intros n H; [destruct H|].
  destruct H as [[= <- <-]|H].
  - split; [lia|]. now rewrite Nat.sub_diag.
  - apply IH in H as [Hn H]. split; [lia|].
    replace (i - n)%nat with (S (i - S n)) by lia. exact H.
Qed.

Lemma in_enumerate {A} (l : list A) a i :
  In (a, i) (enumerate l) <-> nth_error l i = Some a.
Proof.
  unfold enumerate. split.
  - intros H. apply in_enumerate_from in H as [_ H]. now rewrite Nat.sub_0_r in H.
  - intros H. apply (nth_error_In _ i). rewrite nth_error_enumerate_from, H. reflexivity.
Qed.

Lemma in_enumerate_item {A} (l : list A) a :
  In a l -> exists i, In (a, i) (enumerate l).
Proof.
  intros H. apply In_nth_error in H as [i Hi]. exists i. now apply in_enumerate.
Qed.

End LogFacts.

(** ** Facts about the matcher *)

Module ReFacts.

Import PyFacts TextFacts.

(** The position [q] is the position [p] or comes after it. *)
Definition ahead (q p : Re.pos) : Prop :=
  exists skipped, Re.rest p = skipped ++ Re.rest q.

Lemma ahead_refl p : ahead p p.
Proof. now exists []. Qed.

Lemma ahead_trans q2 q1 p : ahead q2 q1 -> ahead q1 p -> ahead q2 p.
Proof.
  intros [s2 H2] [s1 H1]. exists (s1 ++ s2). now rewrite H1, H2, app_assoc.
Qed.

Lemma next_ahead p c p' : Re.next p = Some (c, p') -> Re.rest p = c :: Re.rest p'.
Proof.
  unfold Re.next. destruct (Re.rest p) as [|x t]; [discriminate|].
  now intros [= <- <-].
Qed.

(** A match goes on with its continuation from a position ahead. *)
Definition advancing (m : Re.pos -> (Re.pos -> option Re.pos) -> option Re.pos) : Prop :=
  forall p k e, m p k = Some e -> exists q, ahead q p /\ k q = Some e.

Lemma one_advancing ok : advancing (Re.one ok).
Proof.
  intros p k e. unfold Re.one. destruct (Re.next p) as [[x p']|] eqn:E; [|discriminate].
  destruct (ok x); [|discriminate]. intros H. exists p'. split; [|exact H].
  exists [x]. now apply next_ahead.
Qed.

Lemma star_loop_advancing body greedy fuel :
  advancing body -> advancing (Re.star_loop body greedy fuel).
Proof.
  intros Hbody. induction fuel as [|fuel IH]; intros p k e; cbn [Re.star_loop].
  - intros H. exists p. split; [apply ahead_refl | exact H].
  - set (again := fun p' : Re.pos =>
                    if N.eqb (Re.idx p') (Re.idx p) then None
                    else Re.star_loop body greedy fuel p' k).
    assert (body p again = Some e -> exists q, ahead q p /\ k q = Some e) as Hturn.
    { intros H. apply Hbody in H as (q1 & H1 & H). unfold again in H.
      destruct (N.eqb (Re.idx q1) (Re.idx p)); [discriminate|].
      apply IH in H as (q & H2 & H). exists q. split; [|exact H].
      now apply (ahead_trans q q1 p). }
    destruct greedy.
    + destruct (body p again) as [e'|] eqn:E.
      * intros [= <-]. now apply Hturn.
      * intros H. exists p. split; [apply ahead_refl | exact H].
    + destruct (k p) as [e'|] eqn:E.
      * intros [= <-]. exists p. split; [apply ahead_refl | exact E].
      * exact Hturn.
Qed.

Lemma run_advancing fl fuel r : advancing (Re.run fl fuel r).
Proof.
  induction r as [| c | items | | | | r1 IH1 r2 IH2 | r1 IH1 r2 IH2 | greedy r IH | r IH];
    intros p k e; cbn [Re.run].
  - intros H. exists p. split; [apply ahead_refl | exact H].
  - apply one_advancing.
  - apply one_advancing.
  - apply one_advancing.
  - destruct (Re.at_bol fl p); [|discriminate].
    intros H. exists p. split; [apply ahead_refl | exact H].
  - destruct (Re.at_eol fl p); [|discriminate].
    intros H. exists p. split; [apply ahead_refl | exact H].
  - intros H. apply IH1 in H as (q1 & H1 & H). apply IH2 in H as (q & H2 & H).
    exists q. split; [now apply (ahead_trans q q1 p) | exact H].
  - destruct (Re.run fl fuel r1 p k) as [e'|] eqn:E.
    + intros [= <-]. now apply IH1.
    + apply IH2.
  - now apply star_loop_advancing.
  - destruct (Re.run fl fuel r p Some); [|discriminate].
    intros H. exists p. split; [apply ahead_refl | exact H].
Qed.

(** A match ends at a position ahead. *)
Lemma match_at_ahead fl r fuel must_advance p e :
  Re.match_at fl r fuel must_advance p = Some e -> ahead e p.
Proof.
  unfold Re.match_at. intros H. apply run_advancing in H as (q & Hq & H).
  destruct (must_advance && N.eqb (Re.idx q) (Re.idx p)); [discriminate|].
  now injection H as <-.
Qed.

(** The match of a look-ahead ends where it starts. *)
Lemma match_at_look fl r fuel must_advance p e :
  Re.match_at fl (Re.Look r) fuel must_advance p = Some e -> e = p.
Proof.
  unfold Re.match_at. cbn [Re.run]. destruct (Re.run fl fuel r p Some); [|discriminate].
  destruct (must_advance && N.eqb (Re.idx p) (Re.idx p)); [discriminate|].
  now intros [= <-].
Qed.

(** The pieces between the matches, put together, are what is left of the
    subject when the matches are taken out. *)
Lemma pieces_from_sublist fl r len fuel : forall must_advance cur p,
  sublist (concat (Re.pieces_from fl r len fuel must_advance cur p))
          (rev cur ++ Re.rest p).
Proof.
  induction fuel as [|fuel IH]; intros must_advance cur p; cbn [Re.pieces_from].
  - cbn [concat]. now rewrite app_nil_r, rev_append_rev.
  - destruct (Re.match_at fl r (S len) must_advance p) as [e|] eqn:E.
    + cbn [concat]. rewrite rev_append_rev, app_nil_r.
      apply sublist_app; [reflexivity|].
      apply match_at_ahead in E as [skipped ->].
      apply sublist_inserts_l. exact (IH _ [] e).
    + destruct (Re.next p) as [[c p']|] eqn:N.
      * rewrite (next_ahead p c p' N).
        replace (rev cur ++ c :: Re.rest p') with (rev (c :: cur) ++ Re.rest p')
          by (cbn [rev]; now rewrite <- app_assoc).
        apply IH.
      * cbn [concat]. rewrite rev_append_rev, !app_nil_r. apply sublist_inserts_r.
        reflexivity.
Qed.

Lemma split_sublist fl r s : sublist (concat (Re.split fl r s)) s.
Proof. exact (pieces_from_sublist fl r _ _ false [] (Re.start s)). Qed.

(** The pieces between the matches of a look-ahead, put together, are the
    subject. *)
Lemma pieces_from_look fl r len fuel : forall must_advance cur p,
  concat (Re.pieces_from fl (Re.Look r) len fuel must_advance cur p)
  = rev cur ++ Re.rest p.
Proof.
  induction fuel as [|fuel IH]; intros must_advance cur p; cbn [Re.pieces_from].
  - cbn [concat]. now rewrite app_nil_r, rev_append_rev.
  - destruct (Re.match_at fl (Re.Look r) (S len) must_advance p) as [e|] eqn:E.
    + apply match_at_look in E as ->. cbn [concat].
      now rewrite IH, rev_append_rev, app_nil_r.
    + destruct (Re.next p) as [[c p']|] eqn:N.
      * rewrite IH, (next_ahead p c p' N). cbn [rev]. now rewrite <- app_assoc.
      * cbn [concat]. unfold Re.next in N. destruct (Re.rest p); [|discriminate].
        now rewrite rev_append_rev, !app_nil_r.
Qed.

Lemma split_look fl r s : concat (Re.split fl (Re.Look r) s) = s.
Proof. exact (pieces_from_look fl r _ _ false [] (Re.start s)). Qed.

(** *** The characters other than white space *)

Lemma ink_sublist a b : sublist a b -> sublist (ink a) (ink b).
Proof.
  induction 1 as [|x a b _ IH|x a b _ IH]; [constructor| |]; rewrite ?(ink_cons x a),
    (ink_cons x b); destruct (isspace x); try exact IH; now constructor.
Qed.

Lemma ink_concat_map_strip (l : list str) :
  ink (concat (List.map strip l)) = ink (concat l).
Proof.
  induction l as [|s l IH]; [reflexivity|].
  cbn [List.map concat]. now rewrite !ink_app, ink_strip, IH.
Qed.

Lemma concat_filter_sublist {A} (p : list A -> bool) (l : list (list A)) :
  sublist (concat (List.filter p l)) (concat l).
Proof.
  induction l as [|s l IH]; [constructor|]. cbn [List.filter concat].
  destruct (p s); cbn [concat]; [apply sublist_app; [reflexivity | exact IH]|].
  now apply sublist_inserts_l.
Qed.

(** What [re.sub] leaves of a text, white space aside, when the replacement
    is white space. *)
Lemma ink_sub fl r repl s : ink repl = [] -> sublist (ink (Re.sub fl r repl s)) (ink s).
Proof.
  intros H. unfold Re.sub. rewrite (ink_join repl _ H).
  apply ink_sublist, split_sublist.
Qed.

End ReFacts.

(** ** The translation path *)

Module TranslatorSpec.

Import HebrewTranslator Measures PyFacts Samples Scenarios.

(** Membership in the declared allow-list. *)
Definition allowed (c : char) : Prop := mem c allowed_chars = true.

(** No character class of [_contains_hebrew_characters] or of
    [_is_hebrew_text] holds the character. *)
Definition no_hebrew (c : char) : Prop :=
  Forall (fun pattern : char -> bool => pattern c = false) hebrew_patterns
  /\ hebrew_pattern c = false.

Ltac split_bools H :=
  repeat match type of H with
         | (_ || _)%bool = true => apply orb_prop in H as [H|H]
         | (_ && _)%bool = true => let H' := fresh H in apply andb_prop in H as [H H']
         end.

Ltac range_facts :=
  repeat match goal with
         | H : (_ <=? _) = true |- _ => apply N.leb_le in H
         | H : (_ <? _) = true |- _ => apply N.ltb_lt in H
         | H : (_ =? _) = true |- _ => apply N.eqb_eq in H
         end.

Lemma allowed_ascii c : allowed c -> c < 128.
Proof.
  unfold allowed, mem. intros H. apply existsb_exists in H as (x & Hin & Heq).
  apply N.eqb_eq in Heq. subst x.
  assert (F : List.forallb (fun x => x <? 128) allowed_chars = true) by reflexivity.
  rewrite forallb_forall in F. apply N.ltb_lt. now apply F.
Qed.

Lemma ascii_no_hebrew c : c < 0x590 -> no_hebrew c.
Proof.
  intros H. unfold no_hebrew, hebrew_patterns, hebrew_pattern, in_range, mem. simpl.
  assert (forall lo hi, 0x590 <= lo -> (lo <=? c) && (c <=? hi) = false) as R.
  { intros lo hi Hlo. apply andb_false_iff. left. apply N.leb_gt. lia. }
  assert (forall x, 0x590 <= x -> (c =? x) = false) as E.
  { intros x Hx. apply N.eqb_neq. lia. }
  repeat split; repeat constructor; rewrite ?R, ?E by lia; reflexivity.
Qed.

Lemma allowed_no_hebrew c : allowed c -> no_hebrew c.
Proof. intros H. apply ascii_no_hebrew. apply allowed_ascii in H. lia. Qed.

Lemma existsb_none (p : char -> bool) s :
  Forall (fun c => p c = false) s -> List.existsb p s = false.
Proof. induction 1 as [|c s Hc Hs IH]; simpl; [reflexivity|]. now rewrite Hc. Qed.

Lemma existsb_patterns_none (ps : list (char -> bool)) s :
  Forall (fun c => Forall (fun p : char -> bool => p c = false) ps) s ->
  List.existsb (fun p => List.existsb p s) ps = false.
Proof.
  intros H. induction ps as [|p ps IH]; simpl; [reflexivity|].
  rewrite existsb_none, IH; [reflexivity| |];
    (eapply List.Forall_impl; [|exact H]); intros c Hc; now inversion Hc.
Qed.

Lemma no_hebrew_text s :
  Forall no_hebrew s ->
  _contains_hebrew_characters s = false /\ _is_hebrew_text s = false.
Proof.
  intros H. split.
  - apply existsb_patterns_none.
    eapply List.Forall_impl; [|exact H]. now intros c [Hc _].
  - apply existsb_none.
    eapply List.Forall_impl; [|exact H]. now intros c [_ Hc].
Qed.

Lemma allowed_text_no_hebrew s :
  Forall allowed s ->
  _contains_hebrew_characters s = false /\ _is_hebrew_text s = false.
Proof.
  intros H. apply no_hebrew_text.
  eapply List.Forall_impl; [|exact H]. apply allowed_no_hebrew.
Qed.

(** What the class of the sanitizer keeps is white space or allow-listed. *)
Lemma allowed_pattern_nonspace c :
  allowed_pattern c = true -> isspace c = false -> allowed c.
Proof.
  intros Hp Hs. destruct (N.ltb_spec c 128) as [Hc|Hc].
  - generalize (ascii_cases
      (fun c => implb (allowed_pattern c && negb (isspace c)) (mem c allowed_chars))
      eq_refl c Hc).
    now rewrite Hp, Hs.
  - exfalso. unfold allowed_pattern in Hp. rewrite Hs in Hp.
    unfold in_range, mem, nl in Hp. cbn in Hp.
    split_bools Hp; range_facts; try discriminate; lia.
Qed.

Lemma allowed_allowed_pattern c : allowed c -> allowed_pattern c = true.
Proof.
  intros H. generalize (ascii_cases
    (fun c => implb (mem c allowed_chars) (allowed_pattern c)) eq_refl c (allowed_ascii c H)).
  unfold allowed in H. now rewrite H.
Qed.

Lemma allowed_sp : allowed sp.
Proof. reflexivity. Qed.

(** Filtering by a class that holds the space and then collapsing and
    stripping leaves allow-listed text, when the class adds only white
    space to the allow-list. *)
Lemma strip_collapse_allowed s :
  Forall (fun c => isspace c = false -> allowed c) s ->
  Forall allowed (strip (collapse_ws s)).
Proof.
  intros H. apply strip_Forall. unfold collapse_ws.
  generalize (collapse_from_spaces false s).
  generalize (collapse_from_Forall (fun c => isspace c = false -> allowed c) false s
                (fun _ => allowed_sp) H).
  intros H1 H2. generalize (Forall_and _ _ _ H1 H2).
  apply List.Forall_impl. intros c [Hc [->|Hc']]; [apply allowed_sp | auto].
Qed.

Lemma clean_response_allowed raw : Forall allowed (clean_response raw).
Proof.
  unfold clean_response. apply strip_collapse_allowed.
  generalize (filter_Forall allowed_pattern
    (fold_left (fun text artifact => strip (remove_all artifact text))
       artifacts_to_remove (strip raw))).
  apply List.Forall_impl. intros c Hc Hs. now apply allowed_pattern_nonspace.
Qed.

Lemma clean_response_shape raw :
  let out := clean_response raw in collapse_ws out = out /\ strip out = out.
Proof. apply collapse_strip_fix. Qed.

(** The three outcomes of the sanitizer. *)
Lemma sanitize_cases raw :
  _sanitize_llm_response raw = lit "[EMPTY_RESPONSE]"
  \/ _sanitize_llm_response raw = lit "[SANITIZATION_FAILED]"
  \/ exists body, _sanitize_llm_response raw = clean_response body
                  /\ clean_response body <> [].
Proof.
  destruct raw as [[|c raw]|]; [now left| |now left].
  unfold _sanitize_llm_response.
  destruct (clean_response (c :: raw)) as [|x out] eqn:E; [now right; left|].
  right; right. exists (c :: raw). now rewrite E.
Qed.

Lemma artifacts_absent_fix (arts : list str) s :
  strip s = s ->
  (forall a, In a arts -> contains a s = false) ->
  fold_left (fun text artifact => strip (remove_all artifact text)) arts s = s.
Proof.
  intros Hs. induction arts as [|a arts IH]; intros H; simpl; [reflexivity|].
  rewrite remove_all_absent by (apply H; now left).
  rewrite Hs. apply IH. intros b Hb. apply H. now right.
Qed.

(** On a text it has cleaned, with no artifact label in it, the sanitizer
    does nothing. *)
Lemma clean_response_fix body :
  let out := clean_response body in
  (forall a, In a artifacts_to_remove -> contains a out = false) ->
  clean_response out = out.
Proof.
  intros out H. destruct (clean_response_shape body) as [Hc Hs]. fold out in Hc, Hs.
  unfold clean_response at 1. rewrite Hs.
  rewrite (artifacts_absent_fix _ out Hs H).
  rewrite filter_fix; [now rewrite Hc|].
  generalize (clean_response_allowed body). fold out.
  apply List.Forall_impl. apply allowed_allowed_pattern.
Qed.

Lemma sentinel_not_allowed (name : str) : ~ Forall allowed (91 :: name).
Proof. intros H. inversion H as [|? ? Hc _]. discriminate Hc. Qed.

(** C5 (amended).  For every response, the sanitizer returns one of its two
    bracketed markers, ["[EMPTY_RESPONSE]"] or ["[SANITIZATION_FAILED]"], or
    a text all of whose characters are in the declared allow-list; and on a
    returned text that is allow-listed and holds none of the artifact labels
    the sanitizer removes, a second run returns that text unchanged. *)
Theorem sanitize_allow_list_up_to_markers (raw_response : option str) :
  let out := _sanitize_llm_response raw_response in
  (out = lit "[EMPTY_RESPONSE]" \/ out = lit "[SANITIZATION_FAILED]"
   \/ Forall allowed out)
  /\ (Forall allowed out ->
      (forall artifact, In artifact artifacts_to_remove -> contains artifact out = false) ->
      _sanitize_llm_response (Some out) = out).
Proof.
  intros out. subst out.
  destruct (sanitize_cases raw_response) as [E | [E | (body & E & Hne)]]; rewrite E.
  - split; [now left|]. intros H. now apply sentinel_not_allowed in H.
  - split; [now right; left|]. intros H. now apply sentinel_not_allowed in H.
  - split; [right; right; apply clean_response_allowed|].
    intros _ Habs. unfold _sanitize_llm_response.
    destruct (clean_response body) as [|x out] eqn:Eb; [congruence|].
    rewrite <- Eb in *. rewrite clean_response_fix by exact Habs.
    now rewrite Eb.
Qed.

Lemma sanitize_allow_list_witness :
  let raw := Some (lit "Translation: Hello,   world!") in
  _sanitize_llm_response (Some (_sanitize_llm_response raw)) = _sanitize_llm_response raw.
Proof.
  apply (proj2 (sanitize_allow_list_up_to_markers (Some (lit "Translation: Hello,   world!")))).
  - repeat constructor.
  - intros artifact H. simpl in H.
    repeat (destruct H as [<-|H]; [reflexivity|]). destruct H.
Defined.

(** C5, as stated, fails on a response that holds only an artifact label:
    the marker returned has characters outside the allow-list, and a second
    run changes it. *)
Lemma sanitize_marker_counterexample :
  let out := _sanitize_llm_response (Some (lit "Translation:")) in
  ~ Forall allowed out /\ _sanitize_llm_response (Some out) <> out.
Proof.
  split.
  - apply sentinel_not_allowed.
  - intros H. vm_compute in H. discriminate H.
Qed.

(** Removing characters can also assemble an artifact label that the first
    run no longer looks for; the second run removes it. *)
Example sanitize_assembled_artifact :
  let out := _sanitize_llm_response (Some (lit "Trans@lation: hello")) in
  out = lit "Translation: hello" /\ _sanitize_llm_response (Some out) = lit "hello".
Proof. split; reflexivity. Qed.

(** *** The final validation *)

(** No class of [_contains_hebrew_characters] holds the character. *)
Definition undetected (c : char) : Prop :=
  Forall (fun pattern : char -> bool => pattern c = false) hebrew_patterns.

Lemma undetected_text s :
  Forall undetected s -> _contains_hebrew_characters s = false.
Proof. apply existsb_patterns_none. Qed.

Lemma low_undetected (l : str) :
  List.forallb (fun c => c <? 0x590) l = true -> Forall undetected l.
Proof.
  intros H. rewrite forallb_forall in H. apply List.Forall_forall. intros c Hc.
  apply H, N.ltb_lt in Hc. now apply ascii_no_hebrew.
Qed.

Lemma digits_undetected n : Forall undetected (of_nat n).
Proof.
  generalize (of_nat_digits n). apply List.Forall_impl.
  intros c Hc. apply ascii_no_hebrew. lia.
Qed.

Lemma force_remove_undetected s : Forall undetected (_force_remove_hebrew s).
Proof.
  unfold _force_remove_hebrew, patterns_to_remove. simpl fold_left.
  match goal with |- context [strip (collapse_ws ?b)] => set (body := b) end.
  assert (Forall undetected (strip (collapse_ws body))) as Hb.
  { apply strip_Forall, collapse_from_Forall; [now apply ascii_no_hebrew|].
    apply List.Forall_forall. intros c Hc. subst body.
    repeat (apply filter_In in Hc as [Hc ?]).
    unfold undetected, hebrew_patterns.
    repeat constructor; now apply negb_true_iff. }
  destruct (removed_over_70_percent _ _); [|exact Hb].
  repeat (apply List.Forall_app; split);
    try exact Hb; try apply digits_undetected; now apply low_undetected.
Qed.

Lemma filter_none (p : char -> bool) s :
  Forall (fun c => p c = false) s -> List.filter p s = [].
Proof. induction 1 as [|c s Hc Hs IH]; simpl; [reflexivity|]. now rewrite Hc. Qed.

Lemma filter_nil_Forall (p : char -> bool) s :
  List.filter p s = [] -> Forall (fun c => p c = false) s.
Proof.
  induction s as [|c s IH]; simpl; [constructor|].
  destruct (p c) eqn:E; [discriminate|]. intros H. constructor; auto.
Qed.

Section Validation.

Variable nfkc : str -> str.

(** Compatibility normalization leaves allow-listed (hence ASCII) text as
    it is. *)
Hypothesis nfkc_allowed : forall s, Forall allowed s -> nfkc s = s.

Lemma validated_allowed s : validation_layers nfkc s = None -> Forall allowed s.
Proof.
  unfold validation_layers. destruct (_contains_hebrew_characters s); [discriminate|].
  destruct (List.filter _ s) eqn:E; [|discriminate]. intros _.
  apply filter_nil_Forall in E. revert E. apply List.Forall_impl.
  intros c Hc. now apply negb_false_iff in Hc.
Qed.

Lemma allowed_validated s : Forall allowed s -> validation_layers nfkc s = None.
Proof.
  intros H. unfold validation_layers.
  rewrite (proj1 (allowed_text_no_hebrew s H)).
  rewrite filter_none.
  - now rewrite (nfkc_allowed s H), eqb_refl.
  - revert H. apply List.Forall_impl. intros c Hc. unfold allowed in Hc. now rewrite Hc.
Qed.

Lemma rejected_cleaned s t :
  validation_layers nfkc s = Some t ->
  (_contains_hebrew_characters s = true /\ t = _force_remove_hebrew s)
  \/ Forall allowed t.
Proof.
  unfold validation_layers. destruct (_contains_hebrew_characters s).
  - intros [= <-]. now left.
  - destruct (List.filter _ s) eqn:E.
    + apply filter_nil_Forall in E.
      assert (Forall allowed s) as Hs.
      { revert E. apply List.Forall_impl. intros c Hc. now apply negb_false_iff in Hc. }
      now rewrite (nfkc_allowed s Hs), eqb_refl.
    + intros [= <-]. right. apply strip_collapse_allowed.
      generalize (filter_Forall (fun c => mem c allowed_chars) s).
      apply List.Forall_impl. auto.
Qed.

(** The loop accepts within its three turns, with allow-listed text. *)
Lemma validation_loop_passes s :
  exists t, validation_loop nfkc max_validation_attempts s = (true, t) /\ Forall allowed t.
Proof.
  unfold max_validation_attempts. simpl.
  destruct (validation_layers nfkc s) as [t1|] eqn:E1;
    [|exists s; split; [reflexivity | now apply validated_allowed]].
  apply rejected_cleaned in E1 as [[_ ->] | H1]; [|].
  - destruct (validation_layers nfkc (_force_remove_hebrew s)) as [t2|] eqn:E2.
    + apply rejected_cleaned in E2 as [[Hc _] | H2].
      * now rewrite (undetected_text _ (force_remove_undetected s)) in Hc.
      * rewrite (allowed_validated t2 H2). now exists t2.
    + exists (_force_remove_hebrew s). split; [reflexivity | now apply validated_allowed].
  - rewrite (allowed_validated t1 H1). now exists t1.
Qed.

Lemma final_validation_allowed s : Forall allowed (final_validation nfkc s).
Proof.
  unfold final_validation.
  destruct (validation_loop_passes s) as (t & -> & Ht). exact Ht.
Qed.

End Validation.

(** C1.  Whenever [translate_hebrew_to_english] returns a result whose
    [hebrew_free_guaranteed] flag is set, every character of
    [translated_text] is in the declared allow-list; in particular neither
    detector of the module finds a Hebrew-script character in it.  The
    normalization of the standard library is assumed to leave allow-listed
    text unchanged. *)
Theorem clean_guarantee_allow_list
    (nfkc : str -> str) (nfkc_allowed : forall s, Forall allowed s -> nfkc s = s)
    (llm : oracle) (text : str) :
  let result := fst (run (translate_hebrew_to_english nfkc text) llm) in
  hebrew_free_guaranteed result = Some true ->
  Forall allowed (translated_text result)
  /\ _contains_hebrew_characters (translated_text result) = false
  /\ _is_hebrew_text (translated_text result) = false.
Proof.
  intros result Hflag.
  assert (Forall allowed (translated_text result)) as H.
  { subst result. revert Hflag. unfold translate_hebrew_to_english, run.
    destruct (_is_hebrew_text text); simpl; [|discriminate].
    unfold bind.
    destruct (mapM _ _ llm []) as [translated log].
    destruct (omap id translated) as [|first rest]; simpl; [discriminate|].
    intros _. now apply final_validation_allowed. }
  split; [exact H|]. now apply allowed_text_no_hebrew.
Qed.

Lemma clean_guarantee_witness :
  Forall allowed
    (translated_text (fst (run (translate_hebrew_to_english (fun s => s) shalom) polite_model))).
Proof.
  apply (clean_guarantee_allow_list (fun s => s) (fun s _ => eq_refl) polite_model shalom).
  reflexivity.
Defined.

Example clean_guarantee_run :
  translated_text (fst (run (translate_hebrew_to_english (fun s => s) shalom) polite_model))
  = lit "Hello, peace be with you!".
Proof. reflexivity. Qed.




(** The requests of the translation path are logged: a Hebrew text costs at
    least one. *)
Example hebrew_text_calls_model :
  snd (run (translate_hebrew_to_english (fun s => s) shalom) polite_model)
  = [(0, 0, shalom)%nat].
Proof. reflexivity. Qed.

(** C10.  A text of at most [max_chunk_size] (3000) characters is returned
    by [_chunk_hebrew_text] as the one-element list holding it, whatever it
    contains. *)
Theorem short_text_single_chunk (text : str) :
  (length text <= max_chunk_size)%nat -> _chunk_hebrew_text text = [text].
Proof.
  intros H. unfold _chunk_hebrew_text.
  now rewrite (proj2 (Nat.leb_le _ _) H).
Qed.

Lemma short_text_single_chunk_witness :
  _chunk_hebrew_text ([sp; nl; nl] ++ shalom ++ [nl; nl; sp])
  = [[sp; nl; nl] ++ shalom ++ [nl; nl; sp]].
Proof.
  apply (short_text_single_chunk ([sp; nl; nl] ++ shalom ++ [nl; nl; sp])).
  unfold max_chunk_size. simpl. lia.
Defined.

End TranslatorSpec.

(** ** The chunker of the analysis path *)

Module ChunkerSpec.

Import LLMService PyFacts TextFacts ReFacts Samples.

Lemma fold_left_invariant {A B} (P : A -> Prop) (f : A -> B -> A) (l : list B) (a : A) :
  P a -> (forall a b, P a -> In b l -> P (f a b)) -> P (fold_left f l a).
Proof.
  revert a; induction l as [|b l IH]; intros a Ha Hf; simpl; [exact Ha|].
  apply IH; [apply Hf; [exact Ha | now left]|].
  intros a' b' Ha' Hb'. apply Hf; [exact Ha' | now right].
Qed.

(** A segment as the chunker keeps it: stripped and not empty. *)
Definition kept (s : str) : Prop := trimmed s /\ s <> [].

Lemma valid_segments_kept segments : Forall kept (valid_segments segments).
Proof.
  unfold valid_segments. apply List.Forall_forall. intros x Hx.
  apply in_map_iff in Hx as (s & <- & Hs). apply filter_In in Hs as [_ Hs].
  split; [apply strip_trimmed|]. now destruct (strip s).
Qed.

Lemma longer_not_empty (s : str) n : (n <? length (strip s))%nat = true -> s <> [].
Proof. intros H ->. apply Nat.ltb_lt in H. simpl in H. lia. Qed.

Lemma fallback_segments_kept text : Forall kept (fallback_segments text).
Proof.
  unfold fallback_segments.
  assert (Forall trimmed (fst (fold_left line_step (Py.split [nl] text) ([], [])))) as H.
  { apply fold_left_invariant; [constructor|].
    intros [segments current] line Hs _. unfold line_step. simpl in Hs.
    destruct (starts_question (strip line)); [|now destruct current].
    destruct current; [exact Hs|]. simpl.
    apply List.Forall_app. split; [exact Hs|]. constructor; [apply strip_trimmed|constructor]. }
  destruct (fold_left line_step (Py.split [nl] text) ([], [])) as [segments current].
  simpl in H.
  assert (Forall trimmed (match current with
                          | [] => segments
                          | _ :: _ => segments ++ [strip current]
                          end)) as H'.
  { destruct current; [exact H|]. apply List.Forall_app. split; [exact H|].
    constructor; [apply strip_trimmed|constructor]. }
  apply List.Forall_forall. intros x Hx. apply filter_In in Hx as [Hx Hlen].
  split; [now apply (proj1 (List.Forall_forall _ _) H')|].
  now apply longer_not_empty in Hlen.
Qed.

Lemma looks_like_question_not_empty s : _looks_like_question_content s = true -> s <> [].
Proof.
  unfold _looks_like_question_content. intros H.
  apply andb_prop in H as [H _]. apply andb_prop in H as [_ H].
  now apply longer_not_empty in H.
Qed.

(** Every segment the chunker selects is stripped and not empty. *)
Lemma select_segments_kept text : Forall kept (select_segments text).
Proof.
  unfold select_segments.
  assert (match fst (fold_left (pattern_step text) question_patterns (None, O)) with
          | Some l => Forall kept l
          | None => True
          end) as H.
  { apply fold_left_invariant; [exact I|].
    intros [best count] pattern Hb _. unfold pattern_step.
    destruct (count <? _)%nat; [apply valid_segments_kept | exact Hb]. }
  destruct (fold_left (pattern_step text) question_patterns (None, O)) as [best count].
  simpl in H.
  assert (match (if no_segments best || (count <? 10)%nat
                 then if (count <? length (fallback_segments text))%nat
                      then Some (fallback_segments text) else best
                 else best) with
          | Some l => Forall kept l
          | None => True
          end) as H'.
  { destruct (no_segments best || (count <? 10)%nat); [|exact H].
    destruct (count <? _)%nat; [apply fallback_segments_kept | exact H]. }
  destruct (if no_segments best || (count <? 10)%nat then _ else _) as [[|seg segs]|];
    try exact H'.
  all: apply List.Forall_forall; intros x Hx;
    apply filter_In in Hx as [Hx Hq]; apply filter_In in Hx as [Hx _];
    apply in_map_iff in Hx as (y & <- & _);
    (split; [apply strip_trimmed | now apply looks_like_question_not_empty]).
Qed.

Lemma dropwhile_length p (s : str) : (length (dropwhile p s) <= length s)%nat.
Proof.
  induction s as [|c s IH]; simpl; [lia|]. destruct (p c); simpl; lia.
Qed.

Lemma trimmed_head c t : trimmed (c :: t) -> isspace c = false.
Proof.
  intros [H _]. unfold lstrip in H. simpl in H.
  destruct (isspace c); [|reflexivity]. exfalso.
  generalize (dropwhile_length isspace t). rewrite H. simpl. lia.
Qed.

Lemma rstrip_app_kept a b : rstrip b <> [] -> rstrip (a ++ b) = a ++ rstrip b.
Proof.
  intros Hb. induction a as [|x a IH]; [reflexivity|].
  simpl app. rewrite rstrip_cons, IH.
  destruct (a ++ rstrip b) eqn:E; [|reflexivity].
  apply app_eq_nil in E as [_ E]. contradiction.
Qed.

(** Joining stripped, non-empty segments gives a stripped, non-empty text:
    the [strip] the chunker applies to a chunk changes nothing. *)
Lemma kept_join sep group : Forall kept group -> group <> [] -> kept (join sep group).
Proof.
  induction 1 as [|x group Hx Hg IH]; intros Hne; [contradiction|].
  destruct group as [|y group]; [exact Hx|].
  specialize (IH ltac:(discriminate)). change (join sep (x :: y :: group))
    with (x ++ sep ++ join sep (y :: group)).
  destruct Hx as [Hx Hx']. destruct x as [|c t]; [contradiction|].
  destruct IH as [[_ IH] IH'].
  split; [split|discriminate].
  - simpl app. apply lstrip_head. now apply (trimmed_head c t).
  - rewrite app_assoc. rewrite rstrip_app_kept by (now rewrite IH). now rewrite IH.
Qed.

Lemma join_snoc sep group s :
  group <> [] -> join sep (group ++ [s]) = join sep group ++ sep ++ s.
Proof.
  induction group as [|x group IH]; intros Hne; [contradiction|].
  destruct group as [|y group]; [reflexivity|].
  change (join sep ((x :: y :: group) ++ [s]))
    with (x ++ sep ++ join sep ((y :: group) ++ [s])).
  rewrite IH by discriminate.
  change (join sep (x :: y :: group)) with (x ++ sep ++ join sep (y :: group)).
  now rewrite <- !app_assoc.
Qed.

Definition separator : str := [nl; nl].

(** One turn of the packing loop closes a group or extends the open one. *)
Lemma segment_step_groups done current s :
  Forall (fun g => g <> []) done -> Forall kept current -> kept s ->
  exists done' current',
    segment_step (List.map (join separator) done, join separator current) s
    = (List.map (join separator) done', join separator current')
    /\ concat done' ++ current' = concat done ++ current ++ [s]
    /\ Forall (fun g => g <> []) done' /\ Forall kept current'.
Proof.
  intros Hdone Hcur Hs.
  assert (Forall kept [s]) as Hs1 by (constructor; [exact Hs | constructor]).
  unfold segment_step.
  destruct current as [|x rest].
  - exists done, [s]. simpl join. destruct (max_chunk_size <? _)%nat; now repeat split.
  - assert (x :: rest <> []) as Hne by discriminate.
    destruct (kept_join separator _ Hcur Hne) as [Htrim Hk].
    destruct (max_chunk_size <? _)%nat.
    + exists (done ++ [x :: rest]), [s].
      destruct (join separator (x :: rest)) as [|c t] eqn:E; [contradiction|].
      rewrite (trimmed_strip _ Htrim). repeat split.
      * now rewrite List.map_app, <- E.
      * rewrite concat_app. simpl. now rewrite app_nil_r, <- !app_assoc.
      * apply List.Forall_app. split; [exact Hdone | constructor; [exact Hne | constructor]].
      * exact Hs1.
    + exists done, ((x :: rest) ++ [s]). repeat split.
      * f_equal. rewrite (join_snoc separator (x :: rest) s Hne).
        now destruct (join separator (x :: rest)).
      * exact Hdone.
      * apply List.Forall_app. now split.
Qed.

(** The packing loop groups the segments, in order, and joins each group. *)
Lemma segment_steps_group segments :
  Forall kept segments ->
  forall done current,
    Forall (fun g => g <> []) done -> Forall kept current ->
    exists done' current',
      fold_left segment_step segments
        (List.map (join separator) done, join separator current)
      = (List.map (join separator) done', join separator current')
      /\ concat done' ++ current' = concat done ++ current ++ segments
      /\ Forall (fun g => g <> []) done' /\ Forall kept current'.
Proof.
  induction 1 as [|s segments Hs Hsegs IH]; intros done current Hdone Hcur.
  - exists done, current. now rewrite app_nil_r.
  - cbn [fold_left].
    destruct (segment_step_groups done current s Hdone Hcur Hs)
      as (done1 & current1 & -> & E1 & Hdone1 & Hcur1).
    destruct (IH done1 current1 Hdone1 Hcur1) as (done' & current' & H1 & H2 & H3).
    exists done', current'. split; [exact H1|]. split; [|exact H3].
    rewrite H2, app_assoc, E1. now rewrite <- !app_assoc.
Qed.

Lemma pack_segments_groups segments :
  Forall kept segments ->
  exists groups,
    pack_segments segments = List.map (join separator) groups
    /\ concat groups = segments
    /\ Forall (fun g => g <> []) groups.
Proof.
  intros H. unfold pack_segments.
  destruct (segment_steps_group segments H [] []) as (done & current & H1 & H2 & H3 & H4);
    [constructor | constructor |].
  change (fold_left segment_step segments ([], []))
    with (fold_left segment_step segments
            (List.map (join separator) [], join separator [])).
  rewrite H1. simpl in H2.
  destruct (join separator current) as [|c t] eqn:E.
  - exists done. repeat split; [|exact H3].
    destruct current; [now rewrite app_nil_r in H2|].
    now destruct (kept_join separator _ H4 ltac:(discriminate)) as [_ Hk].
  - assert (current <> []) as Hne by (intros ->; discriminate).
    exists (done ++ [current]). rewrite <- E.
    rewrite (trimmed_strip _ (proj1 (kept_join separator _ H4 Hne))).
    repeat split.
    + now rewrite List.map_app.
    + rewrite concat_app. simpl. now rewrite app_nil_r.
    + apply List.Forall_app. split; [exact H3 | constructor; [exact Hne | constructor]].
Qed.

Lemma concat_nonempty_groups (groups : list (list str)) :
  Forall (fun g => g <> []) groups -> concat groups = [] -> groups = [].
Proof.
  destruct 1 as [|g groups Hg _]; [reflexivity|]. simpl. intros E.
  apply app_eq_nil in E as [E _]. contradiction.
Qed.

(** The fixed-width slices of a text, put together, are the text. *)
Lemma slices_fuel_concat fuel n (s : str) :
  (0 < n)%nat -> (length s <= fuel)%nat -> concat (slices_fuel fuel n s) = s.
Proof.
  intros Hn. revert s; induction fuel as [|fuel IH]; intros s Hs.
  - destruct s; [reflexivity | simpl in Hs; lia].
  - destruct s as [|c s]; [reflexivity|]. cbn [slices_fuel concat].
    rewrite IH; [apply firstn_skipn|].
    rewrite length_skipn. simpl in *. lia.
Qed.

Lemma slices_concat n (s : str) : (0 < n)%nat -> concat (slices n s) = s.
Proof. intros Hn. now apply slices_fuel_concat. Qed.

Lemma slices_fuel_bounded fuel n (s : str) :
  Forall (fun c => (length c <= n)%nat) (slices_fuel fuel n s).
Proof.
  revert s; induction fuel as [|fuel IH]; intros s; [constructor|].
  destruct s as [|c s]; [constructor|]. cbn [slices_fuel].
  constructor; [rewrite length_firstn; lia | apply IH].
Qed.

(** The chunker returns no chunk exactly when it selects no segment. *)
Lemma pack_segments_nil segments :
  Forall kept segments -> (pack_segments segments = [] <-> segments = []).
Proof.
  intros H. destruct (pack_segments_groups segments H) as (groups & -> & <- & Hg).
  split.
  - intros E. now destruct groups.
  - intros E. now rewrite (concat_nonempty_groups groups Hg E).
Qed.

(** C2 (amended).  The chunker is a total function of the text, and it
    returns at least one chunk exactly when it selects at least one segment
    from the preprocessed text; when no strategy selects a segment, as for
    the empty text or a text that is all boilerplate, it returns no chunk. *)
Theorem chunks_empty_iff_no_segment (text : str) :
  _chunk_text_intelligently text = [] <-> select_segments (_preprocess_text text) = [].
Proof.
  unfold _chunk_text_intelligently.
  set (text' := _preprocess_text text).
  rewrite <- (pack_segments_nil _ (select_segments_kept text')).
  destruct ((length (pack_segments (select_segments text')) =? 1)%nat
            && (max_chunk_size <? length text')%nat) eqn:E; [|reflexivity].
  apply andb_prop in E as [E1 E2]. apply Nat.eqb_eq in E1. apply Nat.ltb_lt in E2.
  split; intros H.
  - destruct text' as [|c t]; [simpl in E2; lia|]. discriminate H.
  - rewrite H in E1. discriminate E1.
Qed.

(** C2, as stated, fails on the empty text. *)
Lemma empty_text_no_chunk : length (_chunk_text_intelligently []) = 0%nat.
Proof. reflexivity. Qed.

(** ... and on a text that preprocessing removes entirely. *)
Example boilerplate_no_chunk :
  _preprocess_text boilerplate = [] /\ _chunk_text_intelligently boilerplate = [].
Proof. split; vm_compute; reflexivity. Qed.

(** C3.  On the exam of 3000 characters the chunker returns one chunk of
    3002 characters, made of three questions: the test of the packing loop
    leaves out the two characters of the separator it inserts, which the
    same test of [_chunk_hebrew_text] counts. *)
Theorem packing_overlooks_separator :
  length crowded_exam = 3000%nat
  /\ _chunk_text_intelligently crowded_exam = [join separator [q1; q2; q3]]
  /\ length (join separator [q1; q2; q3]) = 3002%nat
  /\ max_chunk_size = 3000%nat.
Proof. refine (conj _ (conj _ (conj _ _))); vm_compute; reflexivity. Qed.

(** *** What the chunker keeps of the text *)

(** Preprocessing only takes characters out, white space aside. *)
Lemma preprocess_sublist text : sublist (ink (_preprocess_text text)) (ink text).
Proof.
  unfold _preprocess_text.
  etransitivity; [apply ink_sub; reflexivity|].
  etransitivity; [apply ink_sub; reflexivity|].
  apply (fold_left_invariant (fun t => sublist (ink t) (ink text))); [reflexivity|].
  intros t pattern Ht _. etransitivity; [apply ink_sub; reflexivity | exact Ht].
Qed.

(** How the segments are selected: by one of the question patterns, by the
    lines that start with a number, or by paragraphs. *)
Inductive strategy :=
| ByPattern (pattern : Re.regex)
| ByLine
| ByParagraph.

(** The test that a piece of the text passes to become a segment. *)
Definition passes (s : strategy) (piece : str) : bool :=
  match s with
  | ByPattern _ => (15 <? length (strip piece))%nat
  | ByLine => (20 <? length (strip piece))%nat
  | ByParagraph => _looks_like_question_content (strip piece)
  end.

(** A run of lines of the line fallback: a line that starts a question and
    the lines up to the next such line. *)
Definition question_run (run : list str) : Prop :=
  exists first others,
    run = first :: others /\ starts_question (strip first) = true
    /\ Forall (fun line => starts_question (strip line) = false) others.

(** The piece that the line fallback makes of a run. *)
Definition run_piece (run : list str) : str := join [nl] (List.map strip run).

(** The pieces that a strategy cuts the text into.  A pattern cuts the text
    at its matches, which are empty, and a paragraph ends at an empty line.
    The line fallback leaves out the [opening] lines, which come before the
    first line that starts a question, and makes a piece of every run of
    lines from there on. *)
Definition cut (s : strategy) (text : str) (opening pieces : list str) : Prop :=
  match s with
  | ByPattern pattern =>
      In pattern question_patterns /\ opening = []
      /\ pieces = Re.split Re.no_flags pattern text /\ concat pieces = text
  | ByLine =>
      exists runs,
        Py.split [nl] text = opening ++ concat runs
        /\ Forall (fun line => starts_question (strip line) = false) opening
        /\ Forall question_run runs
        /\ pieces = List.map run_piece runs
  | ByParagraph => opening = [] /\ pieces = Py.split [nl; nl] text
  end.

Lemma filter_ext_all {A} (p q : A -> bool) (l : list A) :
  (forall x, p x = q x) -> List.filter p l = List.filter q l.
Proof. intros H. induction l as [|x l IH]; [reflexivity|]. cbn. now rewrite H, IH. Qed.

Lemma filter_map_swap {A B} (f : A -> B) (p : B -> bool) (l : list A) :
  List.filter p (List.map f l) = List.map f (List.filter (fun x => p (f x)) l).
Proof.
  induction l as [|x l IH]; [reflexivity|]. cbn [List.map List.filter].
  destruct (p (f x)); cbn [List.map]; now rewrite IH.
Qed.

Lemma filter_filter {A} (p q : A -> bool) (l : list A) :
  List.filter p (List.filter q l) = List.filter (fun x => q x && p x) l.
Proof.
  induction l as [|x l IH]; [reflexivity|]. cbn [List.filter].
  destruct (q x); cbn [List.filter andb]; [destruct (p x)|]; now rewrite IH.
Qed.

Lemma valid_segments_passing pattern segments :
  valid_segments segments
  = List.map strip (List.filter (passes (ByPattern pattern)) segments).
Proof.
  unfold valid_segments. f_equal. apply filter_ext_all. intros s. cbn [passes].
  now destruct (strip s).
Qed.

Lemma question_patterns_look :
  Forall (fun pattern => exists r, pattern = Re.Look r) question_patterns.
Proof. repeat constructor; eexists; reflexivity. Qed.

(** The search for the best pattern ends with the valid segments of one of
    the patterns, or with nothing. *)
Lemma pattern_steps text :
  let st := fold_left (pattern_step text) question_patterns (None, 0%nat) in
  (fst st = None /\ snd st = 0%nat)
  \/ exists pattern,
       In pattern question_patterns
       /\ fst st = Some (valid_segments (Re.split Re.no_flags pattern text))
       /\ snd st = length (valid_segments (Re.split Re.no_flags pattern text)).
Proof.
  cbn zeta. generalize question_patterns. intros patterns.
  apply (fold_left_invariant
           (fun st => (fst st = None /\ snd st = 0%nat)
                      \/ exists pattern,
                           In pattern patterns
                           /\ fst st = Some (valid_segments (Re.split Re.no_flags pattern text))
                           /\ snd st
                              = length (valid_segments (Re.split Re.no_flags pattern text))));
    [now left|].
  intros [best count] pattern Hst Hin. unfold pattern_step.
  destruct (count <? _)%nat; [|exact Hst].
  right. exists pattern. now repeat split.
Qed.

(** *** The line fallback *)

Lemma starts_question_nonempty line : starts_question line = true -> line <> [].
Proof.
  unfold starts_question. intros H. apply andb_prop in H as [_ H].
  apply Nat.ltb_lt in H. intros ->. cbn in H. lia.
Qed.

Lemma join_nonempty sep x (l : list str) : x <> [] -> join sep (x :: l) <> [].
Proof.
  intros Hx. destruct l as [|y l]; [exact Hx|].
  change (join sep (x :: y :: l)) with (x ++ sep ++ join sep (y :: l)).
  destruct x; [congruence | discriminate].
Qed.

Lemma run_piece_nonempty run : question_run run -> run_piece run <> [].
Proof.
  intros (first & others & -> & Hfirst & _). unfold run_piece. cbn [List.map].
  now apply join_nonempty, starts_question_nonempty.
Qed.

Lemma run_piece_snoc run line :
  run <> [] -> run_piece (run ++ [line]) = run_piece run ++ [nl] ++ strip line.
Proof.
  intros Hne. unfold run_piece. rewrite List.map_app. cbn [List.map].
  apply join_snoc. now destruct run.
Qed.

(** The state of the loop over the lines, after the lines [done]. *)
Definition lines_read (done : list str) (st : list str * str) : Prop :=
  exists opening closed open,
    done = opening ++ concat closed ++ open
    /\ Forall (fun line => starts_question (strip line) = false) opening
    /\ Forall question_run closed
    /\ fst st = List.map (fun run => strip (run_piece run)) closed
    /\ ((open = [] /\ closed = [] /\ snd st = [])
        \/ (question_run open /\ snd st = run_piece open)).

Lemma line_step_read done st line :
  lines_read done st -> lines_read (done ++ [line]) (line_step st line).
Proof.
  destruct st as [segments current].
  intros (opening & closed & open & -> & Ho & Hc & Hs & Hopen). cbn [fst snd] in *.
  unfold line_step. destruct (starts_question (strip line)) eqn:Q.
  - destruct Hopen as [(-> & -> & ->) | [Hrun ->]].
    + exists opening, [], [line]. cbn [fst snd concat app List.map].
      rewrite app_nil_r. split; [reflexivity|]. split; [exact Ho|].
      split; [constructor|]. split; [exact Hs|]. right. split; [|reflexivity].
      exists line, []. now repeat split.
    + exists opening, (closed ++ [open]), [line]. cbn [fst snd].
      split; [rewrite concat_app; cbn [concat]; now rewrite app_nil_r, <- !app_assoc|].
      split; [exact Ho|].
      split; [apply List.Forall_app; split; [exact Hc | now constructor]|].
      pose proof (run_piece_nonempty open Hrun) as Hne.
      split.
      * destruct (run_piece open) eqn:E; [contradiction|].
        rewrite List.map_app, Hs. cbn [List.map]. now rewrite E.
      * right. split; [|reflexivity]. exists line, []. now repeat split.
  - destruct Hopen as [(-> & -> & ->) | [Hrun ->]].
    + exists (opening ++ [line]), [], []. cbn [fst snd concat app].
      rewrite !app_nil_r. split; [reflexivity|].
      split; [apply List.Forall_app; split; [exact Ho | now constructor]|].
      split; [constructor|]. split; [exact Hs|]. now left.
    + pose proof (run_piece_nonempty open Hrun) as Hne.
      exists opening, closed, (open ++ [line]). cbn [fst snd].
      split; [now rewrite <- !app_assoc|]. split; [exact Ho|]. split; [exact Hc|].
      split; [now destruct (run_piece open)|]. right.
      destruct Hrun as (first & others & -> & Hfirst & Hothers). split.
      * exists first, (others ++ [line]). split; [reflexivity|]. split; [exact Hfirst|].
        apply List.Forall_app. split; [exact Hothers | now constructor].
      * rewrite run_piece_snoc by discriminate. now destruct (run_piece (first :: others)).
Qed.

Lemma line_steps_read lines : forall done st,
  lines_read done st -> lines_read (done ++ lines) (fold_left line_step lines st).
Proof.
  induction lines as [|line lines IH]; intros done st H; cbn [fold_left].
  - now rewrite app_nil_r.
  - replace (done ++ line :: lines) with ((done ++ [line]) ++ lines)
      by now rewrite <- app_assoc.
    now apply IH, line_step_read.
Qed.

(** The segments of the line fallback are the stripped pieces of more than
    twenty characters. *)
Lemma fallback_segments_cut text :
  exists opening pieces,
    cut ByLine text opening pieces
    /\ fallback_segments text = List.map strip (List.filter (passes ByLine) pieces).
Proof.
  unfold fallback_segments.
  destruct (line_steps_read (Py.split [nl] text) [] ([], [])) as
    (opening & closed & open & Hdone & Ho & Hc & Hs & Hopen).
  { exists [], [], []. split; [reflexivity|]. split; [constructor|]. split; [constructor|].
    split; [reflexivity|]. now left. }
  cbn [app] in Hdone.
  destruct (fold_left line_step (Py.split [nl] text) ([], [])) as [segments current].
  cbn [fst snd] in *.
  assert (forall runs,
             List.filter (fun s => (20 <? length (strip s))%nat)
                         (List.map (fun run => strip (run_piece run)) runs)
             = List.map strip (List.filter (passes ByLine) (List.map run_piece runs)))
    as Hfilter.
  { intros runs. rewrite <- (List.map_map run_piece strip), filter_map_swap. f_equal.
    apply filter_ext_all. intros s. cbn [passes]. now rewrite strip_idem. }
  destruct Hopen as [(-> & -> & ->) | [Hrun ->]].
  - exists opening, []. split; [|now rewrite Hs].
    exists []. cbn [concat]. now rewrite app_nil_r in Hdone |- *.
  - exists opening, (List.map run_piece (closed ++ [open])). split.
    + exists (closed ++ [open]). split; [|split; [exact Ho|split; [|reflexivity]]].
      * rewrite concat_app. cbn [concat]. now rewrite app_nil_r.
      * apply List.Forall_app. split; [exact Hc | now constructor].
    + pose proof (run_piece_nonempty open Hrun) as Hne.
      rewrite <- Hfilter. f_equal. rewrite List.map_app, <- Hs. cbn [List.map].
      now destruct (run_piece open).
Qed.

(** *** The selection *)

Lemma paragraphs_cut text :
  List.filter _looks_like_question_content
    (List.filter (fun s => match s with [] => false | _ :: _ => true end)
                 (List.map strip (Py.split [nl; nl] text)))
  = List.map strip (List.filter (passes ByParagraph) (Py.split [nl; nl] text)).
Proof.
  rewrite filter_filter, filter_map_swap. f_equal. apply filter_ext_all.
  intros s. cbn [passes].
  destruct (_looks_like_question_content (strip s)) eqn:E; [|apply andb_false_r].
  apply looks_like_question_not_empty in E. now destruct (strip s).
Qed.

(** The segments that the chunker selects are the stripped pieces, of a
    cut of the text by one of its three strategies, that pass the test of
    the strategy. *)
Lemma select_segments_cut text :
  exists strategy opening pieces,
    cut strategy text opening pieces
    /\ select_segments text = List.map strip (List.filter (passes strategy) pieces).
Proof.
  unfold select_segments.
  pose proof (pattern_steps text) as Hbest. cbn zeta in Hbest.
  destruct (fold_left (pattern_step text) question_patterns (None, 0%nat))
    as [best count]. cbn [fst snd] in Hbest.
  assert (exists strategy opening pieces,
             cut strategy text opening pieces
             /\ List.filter _looks_like_question_content
                  (List.filter (fun s => match s with [] => false | _ :: _ => true end)
                               (List.map strip (Py.split [nl; nl] text)))
                = List.map strip (List.filter (passes strategy) pieces)) as Hparagraphs.
  { exists ByParagraph, [], (Py.split [nl; nl] text). split; [now split|].
    apply paragraphs_cut. }
  assert (match best with
          | Some (segment :: segments) =>
              exists strategy opening pieces,
                cut strategy text opening pieces
                /\ segment :: segments
                   = List.map strip (List.filter (passes strategy) pieces)
          | _ => True
          end) as Hpattern.
  { destruct Hbest as [[-> _] | (pattern & Hin & -> & _)]; [exact I|].
    destruct (valid_segments _) as [|segment segments] eqn:E; [exact I|].
    exists (ByPattern pattern), [], (Re.split Re.no_flags pattern text).
    split; [|now rewrite <- E, <- valid_segments_passing].
    split; [exact Hin|]. split; [reflexivity|]. split; [reflexivity|].
    pose proof question_patterns_look as Hlook. rewrite List.Forall_forall in Hlook.
    destruct (Hlook pattern Hin) as [r ->]. apply split_look. }
  destruct (no_segments best || (count <? 10)%nat).
  - destruct (count <? length (fallback_segments text))%nat.
    + destruct (fallback_segments text) as [|segment segments] eqn:E; [exact Hparagraphs|].
      destruct (fallback_segments_cut text) as (opening & pieces & Hcut & Hsegs).
      exists ByLine, opening, pieces. split; [exact Hcut|]. now rewrite <- Hsegs, E.
    + destruct best as [[|segment segments]|]; [exact Hparagraphs | exact Hpattern |
                                                 exact Hparagraphs].
  - destruct best as [[|segment segments]|]; [exact Hparagraphs | exact Hpattern |
                                               exact Hparagraphs].
Qed.

Lemma ink_run_piece run : ink (run_piece run) = ink (concat run).
Proof.
  unfold run_piece. rewrite ink_join by reflexivity. apply ink_concat_map_strip.
Qed.

Lemma ink_concat_runs runs :
  ink (concat (List.map run_piece runs)) = ink (concat (concat runs)).
Proof.
  induction runs as [|run runs IH]; [reflexivity|].
  cbn [List.map concat]. now rewrite concat_app, !ink_app, ink_run_piece, IH.
Qed.

(** The pieces of a cut, with the opening lines, hold the characters of the
    text, white space aside. *)
Lemma cut_ink strategy text opening pieces :
  cut strategy text opening pieces ->
  ink (concat opening ++ concat pieces) = ink text.
Proof.
  destruct strategy as [pattern| |]; cbn [cut].
  - now intros (_ & -> & _ & ->).
  - intros (runs & Hlines & _ & _ & ->).
    transitivity (ink (concat (Py.split [nl] text))); [|now apply ink_split].
    rewrite Hlines, concat_app, !ink_app, ink_concat_runs. reflexivity.
  - intros [-> ->]. cbn [concat app]. now apply ink_split.
Qed.

Lemma ink_concat_joins sep (groups : list (list str)) :
  ink sep = [] ->
  ink (concat (List.map (join sep) groups)) = ink (concat (concat groups)).
Proof.
  intros H. induction groups as [|g groups IH]; [reflexivity|].
  cbn [List.map concat]. now rewrite concat_app, !ink_app, (ink_join sep g H), IH.
Qed.

(** C4 (amended).  The characters of the chunks other than white space
    occur, in the order of the chunks, among those of the text: the chunker
    adds and reorders nothing but white space.  When the fixed-width
    fallback is taken, the chunks put together are the preprocessed text.
    Otherwise the chunks are, in order, the joins by ["\n\n"] of consecutive
    groups of the selected segments, and these are the stripped pieces, of a
    cut of the preprocessed text by one of the three strategies, that pass
    the test of the strategy: the pieces between the matches of a question
    pattern that are longer than 15 characters once stripped; or, the lines
    before the first numbered line left out, the runs of lines from a
    numbered line to the next that are longer than 20 characters; or the
    paragraphs that look like a question. *)
Theorem chunks_reconstruct_segments (text : str) :
  let text' := _preprocess_text text in
  let chunks := _chunk_text_intelligently text in
  sublist (ink (concat chunks)) (ink text)
  /\ (((max_chunk_size < length text')%nat /\ concat chunks = text')
      \/ exists strategy opening pieces groups,
           cut strategy text' opening pieces
           /\ ink (concat opening ++ concat pieces) = ink text'
           /\ select_segments text'
              = List.map strip (List.filter (passes strategy) pieces)
           /\ concat groups = select_segments text'
           /\ Forall (fun g => g <> []) groups
           /\ chunks = List.map (join separator) groups).
Proof.
  intros text' chunks.
  assert (((max_chunk_size < length text')%nat /\ concat chunks = text')
          \/ exists strategy opening pieces groups,
               cut strategy text' opening pieces
               /\ ink (concat opening ++ concat pieces) = ink text'
               /\ select_segments text'
                  = List.map strip (List.filter (passes strategy) pieces)
               /\ concat groups = select_segments text'
               /\ Forall (fun g => g <> []) groups
               /\ chunks = List.map (join separator) groups) as H.
  { subst chunks. unfold _chunk_text_intelligently. fold text'.
    generalize text'. clear text'. intros text'.
    destruct ((length (pack_segments (select_segments text')) =? 1)%nat
              && (max_chunk_size <? length text')%nat) eqn:E.
    - left. apply andb_prop in E as [_ E]. apply Nat.ltb_lt in E.
      split; [exact E|]. apply slices_concat. unfold max_chunk_size. lia.
    - right. destruct (select_segments_cut text') as (strategy & opening & pieces & Hcut & Hs).
      destruct (pack_segments_groups _ (select_segments_kept text'))
        as (groups & Hg1 & Hg2 & Hg3).
      exists strategy, opening, pieces, groups.
      split; [exact Hcut|]. split; [now apply (cut_ink strategy)|]. auto. }
  split; [|exact H].
  pose proof (preprocess_sublist text) as Hpre. fold text' in Hpre.
  revert H Hpre. generalize text' chunks. clear text' chunks. intros text' chunks H Hpre.
  etransitivity; [|exact Hpre].
  destruct H as [[_ ->] | (strategy & opening & pieces & groups & _ & Hink & Hs & Hg & _ & ->)];
    [reflexivity|].
  rewrite (ink_concat_joins separator groups eq_refl), Hg, Hs, ink_concat_map_strip, <- Hink.
  rewrite ink_app. apply sublist_inserts_l, ink_sublist, concat_filter_sublist.
Qed.

(** C4, as stated, fails on the exam of two questions: the second question
    has seven characters, is not kept as a segment, and is in no chunk. *)
Lemma short_question_lost :
  let chunks := _chunk_text_intelligently short_exam in
  chunks = [lit "1. What is the best firewall?"]
  /\ contains (lit "Why?") short_exam = true
  /\ contains (lit "Why?") (concat chunks) = false.
Proof. refine (conj _ (conj _ _)); vm_compute; reflexivity. Qed.

(** ... and on a text whose questions are found by the line fallback: the
    opening paragraph, which no numbered line precedes, is in no chunk. *)
Example opening_paragraph_lost :
  let chunks := _chunk_text_intelligently prefaced_exam in
  chunks = [join separator [lit "1 What is the best firewall for a small office?";
                            lit "2 Which protocol encrypts web traffic today?"]]
  /\ contains (lit "examination") (_preprocess_text prefaced_exam) = true
  /\ contains (lit "examination") (concat chunks) = false.
Proof. refine (conj _ (conj _ _)); vm_compute; reflexivity. Qed.

End ChunkerSpec.

(** ** The chunker of the translation path *)

Module HebrewChunkerSpec.

Import HebrewTranslator PyFacts TextFacts ChunkerSpec.

(** *** [_split_by_sentences] *)

Lemma ending_not_space c : mem c sentence_endings = true -> isspace c = false.
Proof.
  unfold mem, sentence_endings. cbn [List.existsb]. intros H.
  repeat (apply orb_prop in H as [H|H]; [apply N.eqb_eq in H; subst c; reflexivity|]).
  discriminate H.
Qed.

Lemma ink_not_nil_strip s : ink s <> [] -> strip s <> [].
Proof. intros H E. apply H. now apply strip_nil_ink. Qed.

Lemma split_sentences_content text : forall current_sentence,
  ink (concat (split_sentences_from current_sentence text))
  = ink current_sentence ++ ink text.
Proof.
  induction text as [|c t IH]; intros cur.
  - cbn [split_sentences_from]. rewrite app_nil_r.
    destruct (strip cur) eqn:E.
    + symmetry. now apply strip_nil_ink.
    + cbn [concat]. now rewrite app_nil_r, <- E, ink_strip.
  - cbn [split_sentences_from].
    change (c :: t) with ([c] ++ t). rewrite (ink_app [c] t).
    destruct (mem c sentence_endings).
    + cbn [concat]. now rewrite ink_app, ink_strip, IH, ink_app, <- app_assoc.
    + now rewrite IH, ink_app, <- app_assoc.
Qed.

Lemma split_sentences_kept text : forall current_sentence,
  Forall kept (split_sentences_from current_sentence text).
Proof.
  induction text as [|c t IH]; intros cur.
  - cbn [split_sentences_from]. destruct (strip cur) eqn:E; [constructor|].
    constructor; [|constructor]. split; [|discriminate].
    rewrite <- E. apply strip_trimmed.
  - cbn [split_sentences_from]. destruct (mem c sentence_endings) eqn:E; [|apply IH].
    constructor; [|apply IH]. split; [apply strip_trimmed|].
    apply ink_not_nil_strip. rewrite ink_app, ink_cons, (ending_not_space c E).
    now destruct (ink cur).
Qed.

(** *** The chunks *)

(** A sentence of one of the paragraphs of the text. *)
Definition sentence_of (text s : str) : Prop :=
  exists paragraph,
    In paragraph (split [nl; nl] text) /\ In s (_split_by_sentences paragraph).

Definition within_bound (text chunk : str) : Prop :=
  (length chunk <= max_chunk_size)%nat \/ sentence_of text chunk.

Lemma sentence_of_strip text s : sentence_of text s -> strip s = s.
Proof.
  intros (p & _ & H). apply trimmed_strip.
  generalize (split_sentences_kept p []). intros F.
  rewrite List.Forall_forall in F. now apply F.
Qed.

Lemma within_bound_strip text chunk :
  within_bound text chunk -> within_bound text (strip chunk).
Proof.
  intros [H|H].
  - left. generalize (strip_length chunk). lia.
  - right. now rewrite (sentence_of_strip text chunk H).
Qed.

(** The state of either loop: the chunks made and the chunk being built. *)
Definition bounded (text : str) (st : list str * str) : Prop :=
  Forall (within_bound text) (fst st) /\ within_bound text (snd st).

Lemma flush_bounded text chunks current :
  bounded text (chunks, current) ->
  Forall (within_bound text)
    match current with [] => chunks | _ :: _ => chunks ++ [strip current] end.
Proof.
  intros [H1 H2]. destruct current; [exact H1|].
  apply List.Forall_app. split; [exact H1|].
  constructor; [|constructor]. now apply within_bound_strip.
Qed.

Lemma sentence_step_bounded text st sentence :
  bounded text st -> sentence_of text sentence ->
  bounded text (sentence_step st sentence).
Proof.
  destruct st as [chunks temp]. intros Hst Hs. unfold sentence_step.
  destruct (max_chunk_size <? _)%nat eqn:E.
  - split; [now apply flush_bounded | now right].
  - apply Nat.ltb_ge in E. split; [apply Hst|]. left. cbn [snd].
    destruct temp; [simpl in *; lia|].
    rewrite !length_app. simpl in *. lia.
Qed.

Lemma paragraph_step_bounded text st paragraph :
  bounded text st -> In paragraph (split [nl; nl] text) ->
  bounded text (paragraph_step st paragraph).
Proof.
  destruct st as [chunks current]. intros Hst Hp. unfold paragraph_step.
  destruct (max_chunk_size <? _ + _ + 2)%nat eqn:E.
  - destruct (max_chunk_size <? length paragraph)%nat eqn:E'.
    + apply fold_left_invariant.
      * split; [now apply flush_bounded | left; simpl; lia].
      * intros st s Hst' Hs. apply sentence_step_bounded; [exact Hst'|].
        now exists paragraph.
    + apply Nat.ltb_ge in E'. split; [now apply flush_bounded | now left].
  - apply Nat.ltb_ge in E. split; [apply Hst|]. left. cbn [snd].
    destruct current; [simpl in *; lia|].
    rewrite !length_app. simpl in *. lia.
Qed.

(** X1.  Every chunk of [_chunk_hebrew_text] has at most [max_chunk_size]
    characters, unless it is a single sentence that is longer. *)
Theorem hebrew_chunks_bounded (text : str) :
  Forall (fun chunk =>
            (length chunk <= max_chunk_size)%nat
            \/ exists paragraph,
                 In paragraph (split [nl; nl] text)
                 /\ In chunk (_split_by_sentences paragraph))
         (_chunk_hebrew_text text).
Proof.
  change (Forall (within_bound text) (_chunk_hebrew_text text)).
  unfold _chunk_hebrew_text.
  destruct (length text <=? max_chunk_size)%nat eqn:E.
  - apply Nat.leb_le in E. constructor; [now left | constructor].
  - assert (bounded text (fold_left paragraph_step (split [nl; nl] text) ([], []))) as H.
    { apply fold_left_invariant.
      - split; [constructor | left; simpl; lia].
      - intros st p Hst Hp. now apply paragraph_step_bounded. }
    destruct (fold_left paragraph_step _ _) as [chunks current].
    destruct (_ && _).
    + generalize (slices_fuel_bounded (length text) max_chunk_size text).
      apply List.Forall_impl. intros c Hc. now left.
    + now apply flush_bounded.
Qed.

(** *** The characters of the chunks *)

Definition content (st : list str * str) : str := ink (concat (fst st) ++ ink (snd st)).

Lemma ink_ink s : ink (ink s) = ink s.
Proof.
  unfold ink. induction s as [|c s IH]; simpl; [reflexivity|].
  destruct (isspace c) eqn:E; simpl; [exact IH|]. now rewrite E, IH.
Qed.

Lemma content_eq chunks current :
  content (chunks, current) = ink (concat chunks) ++ ink current.
Proof. unfold content. cbn [fst snd]. now rewrite ink_app, ink_ink. Qed.

Lemma flush_content chunks current :
  ink (concat match current with [] => chunks | _ :: _ => chunks ++ [strip current] end)
  = content (chunks, current).
Proof.
  rewrite content_eq. destruct current as [|c s]; [now rewrite app_nil_r|].
  rewrite concat_app, ink_app. cbn [concat]. now rewrite app_nil_r, ink_strip.
Qed.

Lemma sentence_step_content st sentence :
  content (sentence_step st sentence) = content st ++ ink sentence.
Proof.
  destruct st as [chunks temp]. unfold sentence_step.
  destruct (max_chunk_size <? _)%nat.
  - rewrite content_eq, flush_content. reflexivity.
  - rewrite !content_eq. destruct temp as [|c s]; [now rewrite app_nil_r|].
    now rewrite !ink_app, <- !app_assoc.
Qed.

Lemma sentence_steps_content sentences : forall st,
  content (fold_left sentence_step sentences st) = content st ++ ink (concat sentences).
Proof.
  induction sentences as [|s l IH]; intros st; cbn [fold_left concat].
  - now rewrite app_nil_r.
  - now rewrite IH, sentence_step_content, ink_app, <- app_assoc.
Qed.

Lemma paragraph_step_content st paragraph :
  content (paragraph_step st paragraph) = content st ++ ink paragraph.
Proof.
  destruct st as [chunks current]. unfold paragraph_step.
  destruct (max_chunk_size <? _ + _ + 2)%nat.
  - destruct (max_chunk_size <? length paragraph)%nat.
    + rewrite sentence_steps_content. unfold _split_by_sentences.
      rewrite split_sentences_content. rewrite content_eq, flush_content.
      now rewrite app_nil_r.
    + now rewrite content_eq, flush_content.
  - rewrite !content_eq. destruct current as [|c s]; [now rewrite app_nil_r|].
    now rewrite !ink_app, <- !app_assoc.
Qed.

Lemma paragraph_steps_content paragraphs : forall st,
  content (fold_left paragraph_step paragraphs st) = content st ++ ink (concat paragraphs).
Proof.
  induction paragraphs as [|p l IH]; intros st; cbn [fold_left concat].
  - now rewrite app_nil_r.
  - now rewrite IH, paragraph_step_content, ink_app, <- app_assoc.
Qed.

Lemma hebrew_chunks_ink text : ink (concat (_chunk_hebrew_text text)) = ink text.
Proof.
  unfold _chunk_hebrew_text.
  destruct (length text <=? max_chunk_size)%nat.
  - cbn [concat]. now rewrite app_nil_r.
  - generalize (paragraph_steps_content (split [nl; nl] text) ([], [])).
    destruct (fold_left paragraph_step _ _) as [chunks current]. intros H.
    destruct (_ && _).
    + rewrite slices_concat; [reflexivity | unfold max_chunk_size; lia].
    + rewrite flush_content. etransitivity; [exact H|].
      rewrite ink_split; [reflexivity | discriminate | reflexivity].
Qed.

(** X2.  The chunks of [_chunk_hebrew_text] hold the characters of the text
    that are not white space, all of them and in their order: chunking moves
    or drops white space only. *)
Theorem hebrew_chunks_keep_text (text : str) :
  List.filter (fun c => negb (isspace c)) (concat (_chunk_hebrew_text text))
  = List.filter (fun c => negb (isspace c)) text.
Proof. apply hebrew_chunks_ink. Qed.

(** X3.  [_split_by_sentences] returns sentences that are not empty and have
    no white space at either end, and that hold the characters of the text
    that are not white space, in order. *)
Theorem sentences_trimmed_and_complete (text : str) :
  Forall (fun sentence => sentence <> [] /\ strip sentence = sentence)
         (_split_by_sentences text)
  /\ List.filter (fun c => negb (isspace c)) (concat (_split_by_sentences text))
     = List.filter (fun c => negb (isspace c)) text.
Proof.
  split.
  - generalize (split_sentences_kept text []). apply List.Forall_impl.
    intros s [H1 H2]. split; [exact H2 | now apply trimmed_strip].
  - apply (split_sentences_content text []).
Qed.

Lemma hebrew_not_space c : hebrew_pattern c = true -> isspace c = false.
Proof.
  intros H. destruct (isspace c) eqn:E; [exfalso | reflexivity].
  unfold hebrew_pattern, isspace, in_range, mem in *. cbn [List.existsb] in E.
  TranslatorSpec.split_bools H; TranslatorSpec.split_bools E; TranslatorSpec.range_facts;
    try discriminate; lia.
Qed.

Lemma hebrew_text_ink text : _is_hebrew_text text = true -> ink text <> [].
Proof.
  unfold _is_hebrew_text. intros H. apply existsb_exists in H as (c & Hin & Hc).
  intros E. assert (In c (ink text)) as Hc'; [|now rewrite E in Hc'].
  apply filter_In. split; [exact Hin|]. now rewrite (hebrew_not_space c Hc).
Qed.

Lemma hebrew_text_chunks text : _is_hebrew_text text = true -> _chunk_hebrew_text text <> [].
Proof.
  intros H E. apply (hebrew_text_ink text H).
  now rewrite <- hebrew_chunks_ink, E.
Qed.

End HebrewChunkerSpec.

(** ** The removal of Hebrew *)

Module PurgeSpec.

Import HebrewTranslator PyFacts TextFacts TranslatorSpec Samples.

Definition is_ascii (c : char) : Prop := c < 128.

Lemma ascii_text_no_hebrew s :
  Forall is_ascii s -> _contains_hebrew_characters s = false /\ _is_hebrew_text s = false.
Proof.
  intros H. apply no_hebrew_text. revert H. apply List.Forall_impl.
  intros c Hc. apply ascii_no_hebrew. unfold is_ascii in Hc. lia.
Qed.

Lemma emergency_purge_ascii text : Forall is_ascii (_emergency_hebrew_purge text).
Proof.
  unfold _emergency_hebrew_purge.
  match goal with |- context [strip (collapse_ws ?b)] => set (body := b) end.
  assert (Forall is_ascii (strip (collapse_ws body))) as H.
  { apply strip_Forall, collapse_from_Forall; [reflexivity|].
    generalize (filter_Forall (fun c => c <? 128) text).
    apply List.Forall_impl. intros c Hc. now apply N.ltb_lt. }
  destruct (strip (collapse_ws body)); [|exact H].
  apply List.Forall_forall. intros c Hc.
  assert (List.forallb (fun c => c <? 128) (lit "[ASCII_PURGE_RESULT_EMPTY]") = true) as F
    by reflexivity.
  rewrite forallb_forall in F. now apply N.ltb_lt, F.
Qed.

Lemma Forall_forallb (p : char -> bool) s :
  Forall (fun c => p c = true) s -> List.forallb p s = true.
Proof. intros H. apply forallb_forall. now apply List.Forall_forall. Qed.

(** X4.  [_emergency_hebrew_purge] returns a text that is not empty and is
    all ASCII, in which neither detector finds a character; so the test
    that follows its call in [translate_hebrew_to_english] never fails. *)
Theorem emergency_purge_is_ascii (text : str) :
  let out := _emergency_hebrew_purge text in
  out <> []
  /\ List.forallb (fun c => c <? 128) out = true
  /\ _contains_hebrew_characters out = false
  /\ _is_hebrew_text out = false.
Proof.
  cbn zeta. generalize (emergency_purge_ascii text). intros H.
  split; [|split].
  - unfold _emergency_hebrew_purge. destruct (strip _); discriminate.
  - apply Forall_forallb. revert H. apply List.Forall_impl.
    intros c Hc. now apply N.ltb_lt.
  - now apply ascii_text_no_hebrew.
Qed.

Lemma final_validation_ascii nfkc s : Forall is_ascii (final_validation nfkc s).
Proof.
  unfold final_validation.
  assert (forall n t, fst (validation_loop nfkc n t) = true ->
                      Forall is_ascii (snd (validation_loop nfkc n t))) as H.
  { induction n as [|n IH]; intros t; cbn [validation_loop]; [discriminate|].
    destruct (validation_layers nfkc t) eqn:E; [apply IH|].
    intros _. cbn [snd]. apply validated_allowed in E. revert E.
    apply List.Forall_impl. exact allowed_ascii. }
  specialize (H max_validation_attempts s).
  destruct (validation_loop nfkc max_validation_attempts s) as [[|] t].
  - now apply H.
  - rewrite (Forall_forallb _ (_emergency_hebrew_purge t)).
    + apply emergency_purge_ascii.
    + generalize (emergency_purge_ascii t). apply List.Forall_impl.
      intros c Hc. now apply N.ltb_lt.
Qed.

Lemma patterns_removed (text : str) :
  Forall (fun c => Forall (fun pattern : char -> bool => pattern c = false) patterns_to_remove)
    (fold_left (fun text pattern => List.filter (fun c => negb (pattern c)) text)
               patterns_to_remove text).
Proof.
  unfold patterns_to_remove. cbn [fold_left].
  apply List.Forall_forall. intros c Hc.
  repeat (apply filter_In in Hc as [Hc ?]).
  repeat constructor; now apply negb_true_iff.
Qed.

Lemma low_not_removed (l : str) :
  List.forallb (fun c => c <? 0x590) l = true ->
  Forall (fun c => Forall (fun pattern : char -> bool => pattern c = false) patterns_to_remove) l.
Proof.
  intros H. rewrite forallb_forall in H. apply List.Forall_forall. intros c Hc.
  apply H, N.ltb_lt in Hc. unfold patterns_to_remove, in_range, mem. cbn [List.existsb].
  repeat constructor;
    try (apply andb_false_iff; left; apply N.leb_gt; lia).
  rewrite !orb_false_r. apply orb_false_intro; apply N.eqb_neq; lia.
Qed.

(** X5.  [_force_remove_hebrew] leaves no character of the five classes it
    removes, with or without the note it puts in front of a text that lost
    more than 70 percent; [_contains_hebrew_characters] finds nothing in
    its result. *)
Theorem force_remove_leaves_none (text : str) :
  let out := _force_remove_hebrew text in
  Forall (fun c => List.existsb (fun pattern : char -> bool => pattern c) patterns_to_remove = false)
         out
  /\ _contains_hebrew_characters out = false.
Proof.
  cbn zeta. split; [|apply undetected_text, force_remove_undetected].
  assert (forall s,
            Forall (fun c => Forall (fun pattern : char -> bool => pattern c = false)
                                    patterns_to_remove) s ->
            Forall (fun c => List.existsb (fun pattern : char -> bool => pattern c)
                                          patterns_to_remove = false) s) as Hex.
  { intros s. apply List.Forall_impl. intros c Hc.
    destruct (List.existsb _ patterns_to_remove) eqn:E; [|reflexivity].
    apply existsb_exists in E as (p & Hp & Hpc).
    rewrite List.Forall_forall in Hc. now rewrite (Hc p Hp) in Hpc. }
  apply Hex. unfold _force_remove_hebrew.
  match goal with |- context [strip (collapse_ws ?b)] => set (body := b) end.
  assert (Forall (fun c => Forall (fun pattern : char -> bool => pattern c = false)
                                  patterns_to_remove) (strip (collapse_ws body))) as Hb.
  { apply strip_Forall, collapse_from_Forall; [now repeat constructor|].
    apply patterns_removed. }
  destruct (removed_over_70_percent _ _); [|exact Hb].
  repeat (apply List.Forall_app; split); try exact Hb;
    try (now apply low_not_removed).
  - generalize (of_nat_digits (length text)). apply List.Forall_impl.
    intros c Hc. apply (proj1 (List.Forall_forall _ [c]) (low_not_removed [c] ltac:(
      cbn; rewrite andb_true_r; apply N.ltb_lt; lia))). now left.
  - generalize (of_nat_digits (length (strip (collapse_ws body)))). apply List.Forall_impl.
    intros c Hc. apply (proj1 (List.Forall_forall _ [c]) (low_not_removed [c] ltac:(
      cbn; rewrite andb_true_r; apply N.ltb_lt; lia))). now left.
Qed.

End PurgeSpec.

(** ** The translation of a chunk and of a text *)

Module TranslateSpec.

Import HebrewTranslator PyFacts TextFacts LogFacts TranslatorSpec HebrewChunkerSpec PurgeSpec Samples Scenarios.

Lemma sanitized_undetected raw :
  _contains_hebrew_characters (_sanitize_llm_response raw) = false.
Proof.
  destruct (sanitize_cases raw) as [E | [E | (body & E & _)]]; rewrite E;
    [reflexivity | reflexivity |].
  apply allowed_text_no_hebrew, clean_response_allowed.
Qed.

(** X6.  What [_sanitize_llm_response] returns is never empty, has no white
    space at either end and no white space but single spaces, and neither
    detector of the module finds a character in it: the test for Hebrew that
    [_translate_chunk] makes on it never holds. *)
Theorem sanitized_is_clean (raw_response : option str) :
  let out := _sanitize_llm_response raw_response in
  out <> [] /\ strip out = out /\ collapse_ws out = out
  /\ _contains_hebrew_characters out = false /\ _is_hebrew_text out = false.
Proof.
  cbn zeta.
  destruct (sanitize_cases raw_response) as [E | [E | (body & E & Hne)]]; rewrite E.
  - repeat split; (reflexivity || discriminate).
  - repeat split; (reflexivity || discriminate).
  - destruct (clean_response_shape body) as [H1 H2].
    destruct (allowed_text_no_hebrew _ (clean_response_allowed body)) as [H3 H4].
    auto.
Qed.

(** What [_translate_chunk] can return: one of its two markers, or the
    sanitized content of one of the replies, of more than ten characters. *)
Definition outcome (llm : oracle) (chunk : str) (chunk_index : nat) (t : str) : Prop :=
  t = chunk_marker "[TRANSLATION_ERROR_CHUNK_" chunk_index
  \/ t = chunk_marker "[TRANSLATION_FAILED_FOR_CHUNK_" chunk_index
  \/ exists attempt raw,
       (attempt < max_retries)%nat /\ llm chunk_index attempt chunk = Content raw
       /\ t = _sanitize_llm_response raw /\ (10 < length t)%nat.

Lemma translate_attempts_spec llm chunk i remaining : forall attempt log,
  (attempt + remaining = max_retries)%nat -> (0 < remaining)%nat ->
  exists n t,
    (1 <= n <= remaining)%nat
    /\ translate_attempts chunk i remaining attempt llm log
       = (Some t, log ++ requests chunk i attempt n)
    /\ outcome llm chunk i t.
Proof.
  induction remaining as [|r IH]; intros attempt log Hsum Hpos; [lia|].
  assert ((attempt <> max_retries - 1)%nat ->
            exists n t, (1 <= n <= S r)%nat
              /\ translate_attempts chunk i r (S attempt) llm (log ++ [(i, attempt, chunk)])
                 = (Some t, log ++ requests chunk i attempt n)
              /\ outcome llm chunk i t) as Hnext.
  { intros Hne. unfold max_retries in *.
    destruct (IH (S attempt) (log ++ [(i, attempt, chunk)])) as (n & t & Hn & E & Ho);
      [lia | lia |].
    exists (S n), t. split; [lia|]. split; [|exact Ho].
    rewrite E, requests_cons, <- app_assoc. reflexivity. }
  cbn [translate_attempts]. unfold bind, create.
  destruct (llm i attempt chunk) as [|raw] eqn:R.
  - destruct (attempt <? max_retries - 1)%nat eqn:E.
    + apply Nat.ltb_lt in E. apply Hnext. lia.
    + exists 1%nat, (chunk_marker "[TRANSLATION_ERROR_CHUNK_" i).
      split; [lia|]. split; [reflexivity | now left].
  - rewrite sanitized_undetected.
    destruct (10 <? length (_sanitize_llm_response raw))%nat eqn:E.
    + exists 1%nat, (_sanitize_llm_response raw).
      split; [lia|]. split; [reflexivity|]. right; right.
      exists attempt, raw. apply Nat.ltb_lt in E. repeat split; try assumption. lia.
    + destruct (attempt =? max_retries - 1)%nat eqn:E'.
      * exists 1%nat, (chunk_marker "[TRANSLATION_FAILED_FOR_CHUNK_" i).
        split; [lia|]. split; [reflexivity | now right; left].
      * apply Nat.eqb_neq in E'. now apply Hnext.
Qed.

Lemma marker_undetected (name : string) i :
  List.forallb (fun c => c <? 0x590) (lit name) = true ->
  Forall undetected (chunk_marker name i).
Proof.
  intros H. unfold chunk_marker.
  repeat (apply List.Forall_app; split);
    [now apply low_undetected | apply digits_undetected | now apply low_undetected].
Qed.

Lemma outcome_undetected llm chunk i t :
  outcome llm chunk i t -> _contains_hebrew_characters t = false.
Proof.
  intros [-> | [-> | (a & raw & _ & _ & -> & _)]].
  - now apply undetected_text, marker_undetected.
  - now apply undetected_text, marker_undetected.
  - apply sanitized_undetected.
Qed.

(** X7.  [_translate_chunk] always returns a text, never [None]: after at
    least one and at most five requests, made for the attempts 0, 1, ... in
    order, it returns the sanitized content of a reply, of more than ten
    characters, or one of its two markers; [_contains_hebrew_characters]
    finds nothing in what it returns. *)
Theorem translate_chunk_always_answers (llm : oracle) (hebrew_chunk : str)
    (chunk_index : nat) :
  exists n t,
    (1 <= n <= max_retries)%nat
    /\ run (_translate_chunk hebrew_chunk chunk_index) llm
       = (Some t, List.map (fun attempt => (chunk_index, attempt, hebrew_chunk)) (seq 0 n))
    /\ (t = chunk_marker "[TRANSLATION_ERROR_CHUNK_" chunk_index
        \/ t = chunk_marker "[TRANSLATION_FAILED_FOR_CHUNK_" chunk_index
        \/ exists attempt raw,
             (attempt < max_retries)%nat
             /\ llm chunk_index attempt hebrew_chunk = Content raw
             /\ t = _sanitize_llm_response raw /\ (10 < length t)%nat)
    /\ _contains_hebrew_characters t = false.
Proof.
  destruct (translate_attempts_spec llm hebrew_chunk chunk_index max_retries 0 [])
    as (n & t & Hn & E & Ho); [reflexivity | unfold max_retries; lia |].
  exists n, t. split; [exact Hn|]. split; [exact E|]. split; [exact Ho|].
  now apply (outcome_undetected llm hebrew_chunk chunk_index).
Qed.

(** The tasks of the chunks, gathered. *)
Lemma translate_tasks llm (entries : list (str * nat)) : forall log,
  exists ts log',
    mapM (fun '(chunk, i) => _translate_chunk chunk i) entries llm log
    = (List.map Some ts, log ++ log')
    /\ length ts = length entries
    /\ (length entries <= length log' <= max_retries * length entries)%nat
    /\ Forall (fun t => _contains_hebrew_characters t = false) ts.
Proof.
  induction entries as [|[chunk i] entries IH]; intros log.
  - exists [], []. cbn. rewrite app_nil_r. repeat split; (lia || constructor).
  - cbn [mapM]. unfold bind, ret. cbn beta iota.
    destruct (translate_attempts_spec llm chunk i max_retries 0 log)
      as (n & t & Hn & E & Ho); [reflexivity | unfold max_retries; lia |].
    change (translate_attempts chunk i max_retries 0) with (_translate_chunk chunk i) in E.
    rewrite E. cbn beta iota.
    destruct (IH (log ++ requests chunk i 0 n)) as (ts & log' & E' & Hlen & Hb & Hu).
    rewrite E'. exists (t :: ts), (requests chunk i 0 n ++ log').
    rewrite app_assoc. split; [reflexivity|].
    split; [simpl; lia|]. split.
    + rewrite length_app. unfold requests. rewrite length_map, length_seq.
      simpl length. lia.
    + constructor; [|exact Hu]. now apply (outcome_undetected llm chunk i).
Qed.

(** The run of the translation of a text with Hebrew in it. *)
Lemma translate_run nfkc llm text :
  _is_hebrew_text text = true ->
  exists ts log,
    run (translate_hebrew_to_english nfkc text) llm
    = ({| translated_text :=
            final_validation nfkc
              (if (length (_chunk_hebrew_text text) =? 1)%nat
               then hd [] ts else join [nl; nl] ts);
          original_chunks := length (_chunk_hebrew_text text);
          translated_chunks := Some (length ts);
          success := true; has_hebrew := false;
          hebrew_free_guaranteed := Some true;
          message := Some (lit "Successfully translated "
                           ++ of_nat (length ts) ++ lit "/"
                           ++ of_nat (length (_chunk_hebrew_text text))
                           ++ lit " chunks - NO HEBREW REMAINING");
          error := None |}, log)
    /\ length ts = length (_chunk_hebrew_text text)
    /\ (length ts <= length log <= max_retries * length ts)%nat.
Proof.
  intros H. unfold translate_hebrew_to_english, run. rewrite H. cbn [negb].
  unfold bind.
  destruct (translate_tasks llm (enumerate (_chunk_hebrew_text text)) [])
    as (ts & log & E & Hlen & Hb & _).
  unfold enumerate in Hlen, Hb. rewrite length_enumerate_from in Hlen, Hb.
  rewrite E, omap_id_Some. exists ts, log.
  destruct ts as [|first rest].
  - exfalso. apply (hebrew_text_chunks text H).
    destruct (_chunk_hebrew_text text); [reflexivity | discriminate].
  - split; [reflexivity|]. split; [exact Hlen|]. rewrite <- Hlen in Hb. exact Hb.
Qed.

(** X8.  [translate_hebrew_to_english] never reports a failure: whatever the
    model does, [success] is set and there is no [error]; for a text with
    Hebrew in it, the result counts a translation for every chunk and sets
    [hebrew_free_guaranteed]. *)
Theorem translation_never_fails (nfkc : str -> str) (llm : oracle) (text : str) :
  let result := fst (run (translate_hebrew_to_english nfkc text) llm) in
  success result = true
  /\ error result = None
  /\ original_chunks result
     = (if _is_hebrew_text text then length (_chunk_hebrew_text text) else 1%nat)
  /\ translated_chunks result
     = (if _is_hebrew_text text then Some (length (_chunk_hebrew_text text)) else None)
  /\ hebrew_free_guaranteed result
     = (if _is_hebrew_text text then Some true else None).
Proof.
  cbn zeta. destruct (_is_hebrew_text text) eqn:H.
  - destruct (translate_run nfkc llm text H) as (ts & log & E & Hlen & _).
    rewrite E. cbn. rewrite Hlen. auto.
  - unfold translate_hebrew_to_english, run. rewrite H. cbn. auto.
Qed.

(** X9.  Whatever [unicodedata.normalize] does, the text that the final
    validation of [translate_hebrew_to_english] lets through is all ASCII:
    for a text with Hebrew in it, no character of [translated_text] is
    outside ASCII and neither detector finds a character in it. *)
Theorem translated_text_is_ascii (nfkc : str -> str) (llm : oracle) (text : str) :
  _is_hebrew_text text = true ->
  let result := fst (run (translate_hebrew_to_english nfkc text) llm) in
  Forall (fun c => c < 128) (translated_text result)
  /\ _contains_hebrew_characters (translated_text result) = false
  /\ _is_hebrew_text (translated_text result) = false.
Proof.
  intros H. cbn zeta.
  destruct (translate_run nfkc llm text H) as (ts & log & E & _).
  rewrite E. cbn [fst translated_text].
  split; [apply final_validation_ascii|].
  apply ascii_text_no_hebrew, final_validation_ascii.
Qed.

Lemma translated_text_is_ascii_witness :
  let result := fst (run (translate_hebrew_to_english appending_alef shalom) polite_model) in
  Forall (fun c => c < 128) (translated_text result)
  /\ _contains_hebrew_characters (translated_text result) = false
  /\ _is_hebrew_text (translated_text result) = false.
Proof.
  apply (translated_text_is_ascii appending_alef polite_model shalom).
  reflexivity.
Defined.

(** With that normalization the three turns of the validation loop do not
    settle, and the emergency purge gives the text. *)
Example emergency_purge_runs :
  validation_loop appending_alef max_validation_attempts (lit "Hello, peace be with you!")
  = (false, lit "Hello, peace be with you!" ++ [0x5D0])
  /\ translated_text
       (fst (run (translate_hebrew_to_english appending_alef shalom) polite_model))
     = lit "Hello, peace be with you!".
Proof. split; reflexivity. Qed.




Example two_paragraphs_ten_requests :
  length (_chunk_hebrew_text two_paragraphs) = 2%nat
  /\ List.map (fun '(i, attempt, _) => (i, attempt))
       (snd (run (translate_hebrew_to_english (fun s => s) two_paragraphs) silent_translator))
     = [(0, 0); (0, 1); (0, 2); (0, 3); (0, 4); (1, 0); (1, 1); (1, 2); (1, 3); (1, 4)]%nat.
Proof. split; vm_compute; reflexivity. Qed.

(** With a model that never answers, the "translation" is the marker of
    the failed chunk, stripped of its brackets and underscores by the final
    validation, and the result still says [success]. *)
Example silent_model_translation :
  let result := fst (run (translate_hebrew_to_english (fun s => s) shalom) silent_translator) in
  translated_text result = lit "TRANSLATIONERRORCHUNK1" /\ success result = true
  /\ hebrew_free_guaranteed result = Some true.
Proof. repeat split. Qed.

End TranslateSpec.

(** ** The packing loop of the analysis path *)

Module PackingSpec.

Import LLMService PyFacts TextFacts ChunkerSpec.

(** A chunk is at most two characters over the limit, or is one of the
    segments. *)
Definition fits (segments : list str) (chunk : str) : Prop :=
  (length chunk <= max_chunk_size + 2)%nat \/ In chunk segments.

Lemma fits_strip segments chunk :
  Forall kept segments -> fits segments chunk -> fits segments (strip chunk).
Proof.
  intros Hk [H|H].
  - left. generalize (strip_length chunk). lia.
  - right. rewrite List.Forall_forall in Hk.
    now rewrite (trimmed_strip chunk (proj1 (Hk chunk H))).
Qed.

Definition packed (segments : list str) (st : list str * str) : Prop :=
  Forall (fits segments) (fst st) /\ fits segments (snd st).

Lemma flush_fits segments chunks current :
  Forall kept segments -> packed segments (chunks, current) ->
  Forall (fits segments)
    match current with [] => chunks | _ :: _ => chunks ++ [strip current] end.
Proof.
  intros Hk [H1 H2]. destruct current; [exact H1|].
  apply List.Forall_app. split; [exact H1|].
  constructor; [|constructor]. now apply fits_strip.
Qed.

Lemma segment_step_packed segments st segment :
  Forall kept segments -> packed segments st -> In segment segments ->
  packed segments (segment_step st segment).
Proof.
  destruct st as [chunks current]. intros Hk Hst Hs. unfold segment_step.
  destruct (max_chunk_size <? _)%nat eqn:E.
  - split; [now apply flush_fits | now right].
  - apply Nat.ltb_ge in E. split; [apply Hst|]. left. cbn [snd].
    destruct current; [cbn [length] in *; lia|].
    rewrite !length_app. cbn [length] in *. lia.
Qed.

Lemma pack_segments_fits segments :
  Forall kept segments -> Forall (fits segments) (pack_segments segments).
Proof.
  intros Hk. unfold pack_segments.
  assert (packed segments (fold_left segment_step segments ([], []))) as H.
  { apply fold_left_invariant.
    - split; [constructor | left; cbn [snd length]; lia].
    - intros st s Hst Hs. now apply segment_step_packed. }
  destruct (fold_left segment_step segments ([], [])) as [chunks current].
  now apply flush_fits.
Qed.

(** X11.  A chunk of [_chunk_text_intelligently] has at most
    [max_chunk_size + 2] characters, unless it is a single segment that is
    longer: the packing loop can overshoot the limit, by the two characters
    of the separator and no more. *)
Theorem chunks_overshoot_by_two (text : str) :
  Forall (fun chunk =>
            (length chunk <= max_chunk_size + 2)%nat
            \/ In chunk (select_segments (_preprocess_text text)))
         (_chunk_text_intelligently text).
Proof.
  unfold _chunk_text_intelligently.
  generalize (_preprocess_text text). intros t.
  generalize (pack_segments_fits (select_segments t) (select_segments_kept t)).
  generalize (select_segments t). intros segments Hfit.
  destruct (_ && _); [|exact Hfit].
  unfold slices. generalize (slices_fuel_bounded (length t) max_chunk_size t).
  generalize (slices_fuel (length t) max_chunk_size t). intros l.
  apply List.Forall_impl. intros c Hc. left. lia.
Qed.

End PackingSpec.

(** ** Loops that may raise *)

Module RaisingFacts.

Import LLMService.

Lemma and_then_inr {A B} (m : may_raise A) (k : A -> may_raise B) b :
  and_then m k = inr b -> exists a, m = inr a /\ k a = inr b.
Proof. destruct m as [e|a]; [discriminate|]. intros H. now exists a. Qed.

(** A loop that returns has kept every invariant of its body. *)
Lemma fold_raising_invariant {A B} (P : A -> Prop) (f : A -> B -> may_raise A)
    (l : list B) : forall a r,
  P a ->
  (forall a b a', P a -> In b l -> f a b = inr a' -> P a') ->
  fold_raising f l a = inr r -> P r.
Proof.
  induction l as [|b l IH]; intros a r Ha Hstep H.
  - now injection H as <-.
  - cbn [fold_raising] in H. apply and_then_inr in H as (a' & E & H).
    apply (IH a' r); [| |exact H].
    + apply (Hstep a b); [exact Ha | now left | exact E].
    + intros x y x' Hx Hy. apply Hstep; [exact Hx | now right].
Qed.

(** A loop whose body does not raise is a fold. *)
Lemma fold_raising_pure {A B} (f : A -> B -> may_raise A) (g : A -> B -> A)
    (l : list B) :
  (forall a b, In b l -> f a b = inr (g a b)) ->
  forall a, fold_raising f l a = inr (fold_left g l a).
Proof.
  induction l as [|b l IH]; intros H a; [reflexivity|].
  cbn [fold_raising fold_left]. rewrite H by now left. cbn [and_then].
  apply IH. intros x y Hy. apply H. now right.
Qed.

(** A loop that returns has run a body that returned at every turn. *)
Lemma fold_raising_returns {A B} (f : A -> B -> may_raise A) (g : A -> B -> A)
    (l : list B) :
  (forall a b a', f a b = inr a' -> a' = g a b) ->
  forall a r, fold_raising f l a = inr r ->
              r = fold_left g l a /\ forall b, In b l -> exists x x', f x b = inr x'.
Proof.
  intros Hg. induction l as [|b l IH]; intros a r H.
  - injection H as <-. split; [reflexivity | intros b []].
  - cbn [fold_raising] in H. apply and_then_inr in H as (a' & E & H).
    destruct (IH a' r H) as [-> Hl]. rewrite (Hg a b a' E). split; [reflexivity|].
    intros y [<-|Hy]; [now exists a, a' | now apply Hl].
Qed.

(** A loop raises what its body raises at some turn. *)
Lemma fold_raising_raises {A B} (f : A -> B -> may_raise A) (l : list B) :
  forall a e, fold_raising f l a = inl e -> exists x b, In b l /\ f x b = inl e.
Proof.
  induction l as [|b l IH]; intros a e H; [discriminate|].
  cbn [fold_raising] in H. destruct (f a b) as [e'|a'] eqn:E.
  - injection H as <-. exists a, b. split; [now left | exact E].
  - destruct (IH a' e H) as (x & y & Hy & Hx). exists x, y. split; [now right | exact Hx].
Qed.

End RaisingFacts.

(** ** Reading the number of a question *)

Module NumberSpec.

Import LLMService Measures PyFacts TextFacts RaisingFacts.

(** The text starts with digits that a full stop or a closing parenthesis
    follows. *)
Definition numbered (s : str) : bool :=
  match s with
  | [] => false
  | c :: t =>
      Re.isdigit c
      && match dropwhile Re.isdigit t with
         | [] => false
         | c' :: _ => mem c' [46; 41]
         end
  end.

Definition is_some {A} (o : option A) : bool :=
  match o with Some _ => true | None => false end.

(** *** The matcher on the two patterns *)

Lemma star_loop_total body greedy fuel p (k : Re.pos -> option Re.pos) :
  (forall q, k q <> None) -> Re.star_loop body greedy fuel p k <> None.
Proof.
  intros Hk. destruct fuel as [|fuel]; cbn [Re.star_loop]; [apply Hk|].
  destruct greedy.
  - destruct (body p _); [discriminate | apply Hk].
  - destruct (k p) eqn:E; [discriminate | now apply Hk in E].
Qed.

(** A greedy repetition of one class, before a continuation that fails in
    front of a character of the class and looks at the rest of the text
    only: the repetition takes all the characters of the class. *)
Lemma star_loop_class (ok : char -> bool) body (k : Re.pos -> option Re.pos) :
  (forall p k', body p k' = Re.one ok p k') ->
  (forall q c t, Re.rest q = c :: t -> ok c = true -> k q = None) ->
  (forall q q', Re.rest q = Re.rest q' -> is_some (k q) = is_some (k q')) ->
  forall fuel p q0,
    (length (Re.rest p) <= fuel)%nat ->
    Re.rest q0 = dropwhile ok (Re.rest p) ->
    is_some (Re.star_loop body true fuel p k) = is_some (k q0).
Proof.
  intros Hbody Hfail Hrest. induction fuel as [|fuel IH]; intros p q0 Hlen Hq0.
  - cbn [Re.star_loop]. apply Hrest. destruct (Re.rest p); [now rewrite Hq0|].
    cbn in Hlen. lia.
  - cbn [Re.star_loop]. rewrite Hbody. unfold Re.one, Re.next.
    destruct (Re.rest p) as [|c t] eqn:E.
    + apply Hrest. now rewrite Hq0, E.
    + cbn [dropwhile] in Hq0. destruct (ok c) eqn:Hc.
      * cbn [Re.idx].
        assert (N.eqb (Re.idx p + 1) (Re.idx p) = false) as -> by (apply N.eqb_neq; lia).
        rewrite (Hfail p c t E Hc).
        rewrite <- (IH {| Re.prev := Some c; Re.rest := t; Re.idx := Re.idx p + 1 |} q0);
          [now destruct (Re.star_loop _ _ _ _ _) | cbn in *; lia | exact Hq0].
      * apply Hrest. now rewrite Hq0, E.
Qed.

Definition digit_class (x : char) : bool :=
  List.existsb (fun i => Re.item_matches Re.no_flags i x) [Re.Digit].

Definition mark_class (x : char) : bool :=
  List.existsb (fun i => Re.item_matches Re.no_flags i x) [Re.One 46; Re.One 41].

Lemma digit_class_eq x : digit_class x = Re.isdigit x.
Proof. unfold digit_class. cbn. apply orb_false_r. Qed.

Lemma mark_class_eq x : mark_class x = mem x [46; 41].
Proof.
  unfold mark_class, mem. cbn [List.existsb Re.item_matches]. unfold Re.chr_matches.
  cbn [Re.ignorecase Re.no_flags andb].
  now rewrite !orb_false_r, (N.eqb_sym 46), (N.eqb_sym 41).
Qed.

Lemma mark_not_digit x : digit_class x = true -> mark_class x = false.
Proof.
  rewrite digit_class_eq, mark_class_eq. unfold mem. cbn [List.existsb].
  intros H. destruct (N.eqb_spec x 46) as [->|_]; [discriminate H|].
  destruct (N.eqb_spec x 41) as [->|_]; [discriminate H | reflexivity].
Qed.

(** The match of a pattern [^\d+[.)]] followed by [tail], which cannot
    fail. *)
Lemma numbered_pattern_matches (tail : Re.regex) (s : str) :
  (forall fuel p k, (forall q, k q <> None) -> Re.run Re.no_flags fuel tail p k <> None) ->
  Re.matches Re.no_flags
    (Re.Seq Re.Bol (Re.Seq (Re.many1 Re.digit) (Re.Seq (Re.Cls [Re.One 46; Re.One 41]) tail))) s
  = numbered s.
Proof.
  intros Htail. unfold Re.matches, Re.match_at. cbn [andb].
  set (fuel := S (length s)).
  cbn [Re.run Re.many1 Re.digit]. cbn [Re.at_bol Re.start Re.prev].
  fold (digit_class). fold (mark_class).
  set (k1 := fun p' : Re.pos =>
               Re.one mark_class p' (fun p'0 => Re.run Re.no_flags fuel tail p'0 (fun e => Some e))).
  assert (forall q, is_some (k1 q)
                    = match Re.rest q with [] => false | c :: _ => mark_class c end) as Hk1.
  { intros q. unfold k1, Re.one, Re.next. destruct (Re.rest q) as [|c t]; [reflexivity|].
    destruct (mark_class c); [|reflexivity].
    destruct (Re.run _ _ _ _ _) eqn:E; [reflexivity|].
    exfalso. revert E. apply Htail. discriminate. }
  unfold Re.one at 1, Re.next, Re.start. cbn [Re.rest Re.idx].
  destruct s as [|c t]; [reflexivity|]. cbn [numbered].
  rewrite <- digit_class_eq. destruct (digit_class c) eqn:Hc; [|reflexivity]. cbn [andb].
  match goal with
  | |- match ?m with _ => _ end = _ => change (is_some m = match dropwhile Re.isdigit t with
                                                          | [] => false
                                                          | c' :: _ => mem c' [46; 41]
                                                          end)
  end.
  rewrite (star_loop_class digit_class _ k1) with
    (q0 := {| Re.prev := None; Re.rest := dropwhile digit_class t; Re.idx := 0 |}).
  - rewrite Hk1. cbn [Re.rest].
    assert (dropwhile digit_class t = dropwhile Re.isdigit t) as ->.
    { clear. induction t as [|x t IH]; [reflexivity|]. cbn [dropwhile].
      rewrite digit_class_eq. now rewrite IH. }
    destruct (dropwhile Re.isdigit t); [reflexivity | apply mark_class_eq].
  - reflexivity.
  - intros q x u E Hx. specialize (Hk1 q). rewrite E, (mark_not_digit x Hx) in Hk1.
    now destruct (k1 q).
  - intros q q' E. now rewrite !Hk1, E.
  - cbn [Re.rest]. subst fuel. cbn [length]. lia.
  - reflexivity.
Qed.

Lemma numbered_line_matches s : Re.matches Re.no_flags numbered_line s = numbered s.
Proof.
  apply (numbered_pattern_matches
           (Re.Seq (Re.many Re.ws) (Re.Seq (Re.many Re.Dot) Re.Eps))).
  intros fuel p k Hk. cbn [Re.run Re.many].
  apply star_loop_total. intros q. apply star_loop_total. exact Hk.
Qed.

Lemma numbered_prefix_matches s : Re.matches Re.no_flags numbered_prefix s = numbered s.
Proof.
  apply (numbered_pattern_matches (Re.Seq (Re.many Re.ws) Re.Eps)).
  intros fuel p k Hk. cbn [Re.run Re.many].
  apply star_loop_total. exact Hk.
Qed.

(** *** The number that is read *)

(** The number of a numbered text. *)
Definition numeral (s : str) : option N :=
  if numbered s then option_map fst (Re.leading_number s) else None.

(** The digits of a numbered text are more than [int] takes. *)
Definition overlong (s : str) : bool :=
  numbered s && (int_max_str_digits <? length (group1 s))%nat.

Lemma digits_from_group1 (s : str) : forall acc,
  fst (Re.digits_from acc (group1 s)) = fst (Re.digits_from acc s).
Proof.
  induction s as [|c s IH]; intros acc; [reflexivity|].
  cbn [group1]. unfold Re.isdigit. cbn [Re.digits_from].
  destruct (Re.digit_value c) as [d|] eqn:E; [|reflexivity].
  cbn [Re.digits_from]. rewrite E. apply IH.
Qed.

Lemma int_group1 (s : str) :
  numbered s = true ->
  int (group1 s)
  = if (int_max_str_digits <? length (group1 s))%nat
    then inl (ValueError (length (group1 s)))
    else inr (match numeral s with Some n => n | None => 0 end).
Proof.
  intros H. unfold int, numeral. rewrite H.
  destruct (int_max_str_digits <? length (group1 s))%nat; [reflexivity|].
  f_equal. rewrite digits_from_group1.
  destruct s as [|c t]; [discriminate H|]. cbn [numbered] in H.
  unfold Re.isdigit in H. cbn [Re.digits_from Re.leading_number].
  destruct (Re.digit_value c) as [d|]; [|discriminate H]. reflexivity.
Qed.

Lemma numbered_numeral (s : str) : numbered s = true -> exists n, numeral s = Some n.
Proof.
  intros H. unfold numeral. rewrite H.
  destruct s as [|c t]; [discriminate H|]. cbn [numbered] in H.
  unfold Re.isdigit in H. cbn [Re.leading_number].
  destruct (Re.digit_value c) as [d|]; [|discriminate H]. eexists. reflexivity.
Qed.

(** What [number_match] gives on a pattern that matches the numbered
    texts. *)
Lemma number_match_numbered (pattern : Re.regex) (s : str) :
  Re.matches Re.no_flags pattern s = numbered s ->
  number_match pattern s
  = if overlong s then inl (ValueError (length (group1 s))) else inr (numeral s).
Proof.
  intros Hm. unfold number_match, overlong. rewrite Hm.
  destruct (numbered s) eqn:H; [|unfold numeral; now rewrite H].
  rewrite (int_group1 s H). cbn [andb].
  destruct (int_max_str_digits <? length (group1 s))%nat; [reflexivity|].
  cbn [and_then]. now destruct (numbered_numeral s H) as [n ->].
Qed.

Lemma number_match_line s :
  number_match numbered_line s
  = if overlong s then inl (ValueError (length (group1 s))) else inr (numeral s).
Proof. apply number_match_numbered, numbered_line_matches. Qed.

Lemma number_match_prefix s :
  number_match numbered_prefix s
  = if overlong s then inl (ValueError (length (group1 s))) else inr (numeral s).
Proof. apply number_match_numbered, numbered_prefix_matches. Qed.

Lemma number_match_line_returns s number :
  number_match numbered_line s = inr number -> overlong s = false /\ number = numeral s.
Proof.
  rewrite number_match_line. destruct (overlong s); [discriminate|].
  intros [= <-]. now split.
Qed.

Lemma number_match_prefix_returns s number :
  number_match numbered_prefix s = inr number -> overlong s = false /\ number = numeral s.
Proof.
  rewrite number_match_prefix. destruct (overlong s); [discriminate|].
  intros [= <-]. now split.
Qed.



(** X25.  The pattern of the scan, [^(\d+)[\.\)]\s*(.* )], and the pattern
    of the recovery, [^(\d+)[\.\)]\s*], match the same texts, those that
    start with digits followed by a full stop or a closing parenthesis, and
    give the same number: the scan and the recovery read a question's
    number alike. *)
Theorem both_patterns_read_the_same_number (s : str) :
  Re.matches Re.no_flags numbered_line s = numbered s
  /\ Re.matches Re.no_flags numbered_prefix s = numbered s
  /\ number_match numbered_line s = number_match numbered_prefix s.
Proof.
  split; [apply numbered_line_matches|]. split; [apply numbered_prefix_matches|].
  unfold number_match. now rewrite numbered_line_matches, numbered_prefix_matches.
Qed.

End NumberSpec.

(** ** The deterministic scan *)

Module ScanSpec.

Import LLMService PyFacts TextFacts LogFacts ChunkerSpec RaisingFacts NumberSpec.

(** The number that starts a line, as the scan reads it when [int]
    returns. *)
Definition line_number (line : str) : option N := numeral (strip line).

Lemma numeral_nonempty line n : numeral line = Some n -> nonempty line = true.
Proof. destruct line; [discriminate | reflexivity]. Qed.

(** The body of the loop when [int] returns. *)
Definition scanned (st : list numbered_question * str * N) (entry : str * nat)
    : list numbered_question * str * N :=
  let '(questions, current_question, current_number) := st in
  let '(line, i) := entry in
  let line := strip line in
  match numeral line with
  | Some n =>
      ((if in_question current_question current_number
        then questions ++ [numbered_record current_number current_question i]
        else questions), line, n)
  | None =>
      if in_question current_question current_number
      then (questions, current_question ++ [nl] ++ line, current_number)
      else st
  end.

(** The records at the end of the loop. *)
Definition finished (lines : list str) (st : list numbered_question * str * N)
    : list numbered_question :=
  let '(questions, current_question, current_number) := st in
  if in_question current_question current_number
  then questions ++ [numbered_record current_number current_question (length lines)]
  else questions.

Lemma scan_step_eq st entry :
  scan_step st entry
  = if overlong (strip (fst entry))
    then inl (ValueError (length (group1 (strip (fst entry)))))
    else inr (scanned st entry).
Proof.
  destruct st as [[questions current_question] current_number], entry as [line i].
  unfold scan_step, scanned. cbn [fst]. rewrite number_match_line.
  destruct (overlong (strip line)); [reflexivity|]. cbn [and_then].
  now destruct (numeral (strip line)).
Qed.

Lemma scan_step_returns st entry st' :
  scan_step st entry = inr st' -> st' = scanned st entry.
Proof. rewrite scan_step_eq. destruct (overlong _); [discriminate | now intros [= <-]]. Qed.

(** The scan returns when no line is overlong, and then it is the fold of
    [scanned]. *)
Lemma scan_returns text records :
  _extract_numbered_questions_deterministic text = inr records ->
  records = finished (Py.split [nl] text)
              (fold_left scanned (enumerate (Py.split [nl] text)) ([], [], 0))
  /\ Forall (fun line => overlong (strip line) = false) (Py.split [nl] text).
Proof.
  unfold _extract_numbered_questions_deterministic. intros H.
  apply and_then_inr in H as (st & Hfold & H).
  destruct (fold_raising_returns scan_step scanned _ scan_step_returns _ _ Hfold)
    as [-> Hlines].
  split.
  - unfold finished.
    destruct (fold_left scanned _ _) as [[questions current_question] current_number].
    now injection H as <-.
  - apply List.Forall_forall. intros line Hin.
    apply in_enumerate_item in Hin as [i Hentry].
    destruct (Hlines _ Hentry) as (x & x' & Hx). rewrite scan_step_eq in Hx.
    cbn [fst] in Hx. now destruct (overlong (strip line)).
Qed.

Lemma scan_pure text :
  Forall (fun line => overlong (strip line) = false) (Py.split [nl] text) ->
  _extract_numbered_questions_deterministic text
  = inr (finished (Py.split [nl] text)
           (fold_left scanned (enumerate (Py.split [nl] text)) ([], [], 0))).
Proof.
  intros H. unfold _extract_numbered_questions_deterministic.
  rewrite (fold_raising_pure scan_step scanned).
  - cbn [and_then]. unfold finished.
    now destruct (fold_left scanned _ _) as [[questions current_question] current_number].
  - intros st [line i] Hin. rewrite scan_step_eq. cbn [fst].
    rewrite List.Forall_forall in H. rewrite H; [reflexivity|].
    apply (in_map fst) in Hin. unfold enumerate in Hin.
    now rewrite map_fst_enumerate_from in Hin.
Qed.

Lemma scan_raises text e :
  _extract_numbered_questions_deterministic text = inl e ->
  exists line,
    In line (Py.split [nl] text) /\ overlong (strip line) = true
    /\ e = ValueError (length (group1 (strip line))).
Proof.
  unfold _extract_numbered_questions_deterministic. intros H.
  destruct (fold_raising scan_step _ _) as [e'|st] eqn:Hfold.
  - injection H as <-. apply fold_raising_raises in Hfold as (x & [line i] & Hin & Hx).
    exists line. rewrite scan_step_eq in Hx. cbn [fst] in Hx.
    apply (in_map fst) in Hin. unfold enumerate in Hin.
    rewrite map_fst_enumerate_from in Hin. split; [exact Hin|].
    destruct (overlong (strip line)); [|discriminate Hx]. now injection Hx as <-.
  - cbn [and_then] in H.
    destruct st as [[questions current_question] current_number]. discriminate H.
Qed.

(** The numbers of the records made and of the record being built. *)
Definition numbers (st : list numbered_question * str * N) : list N :=
  let '(questions, current_question, current_number) := st in
  List.map det_number questions
  ++ (if in_question current_question current_number then [current_number] else []).

Lemma scanned_numbers st line i :
  numbers (scanned st (line, i))
  = numbers st ++ List.filter (N.ltb 0) (match line_number line with
                                          | Some n => [n]
                                          | None => []
                                          end).
Proof.
  destruct st as [[questions current_question] current_number].
  unfold scanned, line_number.
  destruct (numeral (strip line)) as [n|] eqn:E.
  - cbn [numbers List.filter]. unfold in_question at 2.
    rewrite (numeral_nonempty _ _ E). cbn [andb].
    destruct (in_question current_question current_number).
    + rewrite List.map_app. cbn [List.map det_number numbered_record].
      rewrite <- app_assoc. now destruct (0 <? n).
    + rewrite app_nil_r. now destruct (0 <? n).
  - cbn [List.filter]. rewrite app_nil_r.
    destruct (in_question current_question current_number) eqn:Q; [|reflexivity].
    cbn [numbers]. rewrite Q.
    unfold in_question in *. apply andb_prop in Q as [Q1 Q2]. rewrite Q2.
    destruct current_question; [discriminate|]. reflexivity.
Qed.

Lemma scanned_all_numbers entries : forall st,
  numbers (fold_left scanned entries st)
  = numbers st ++ List.filter (N.ltb 0) (omap line_number (List.map fst entries)).
Proof.
  induction entries as [|[line i] entries IH]; intros st; cbn [fold_left List.map].
  - cbn. now rewrite app_nil_r.
  - rewrite IH, scanned_numbers, <- app_assoc. f_equal.
    cbn [omap list_omap fst]. destruct (line_number line) as [n|]; [|reflexivity].
    cbn [List.filter app]. now destruct (0 <? n).
Qed.

Lemma finished_numbers lines st : List.map det_number (finished lines st) = numbers st.
Proof.
  destruct st as [[questions current_question] current_number]. unfold finished, numbers.
  destruct (in_question current_question current_number).
  - now rewrite List.map_app.
  - now rewrite app_nil_r.
Qed.

Lemma omap_id_map {A B} (f : A -> option B) (l : list A) :
  omap id (List.map f l) = omap f l.
Proof.
  induction l as [|a l IH]; [reflexivity|]. cbn in *.
  destruct (f a); cbn; now rewrite IH.
Qed.

Lemma omap_map {A B C} (f : B -> option C) (g : A -> B) (l : list A) :
  omap f (List.map g l) = omap (fun a => f (g a)) l.
Proof.
  induction l as [|a l IH]; [reflexivity|]. cbn in *.
  destruct (f (g a)); cbn; now rewrite IH.
Qed.

(** X14.  The deterministic scan returns exactly when [int] returns on the
    number of every line, and raises what [int] raises on a line whose
    number has more than 4300 digits.  When it returns it has made one
    record for each line that starts, after stripping, with a number greater
    than zero followed by a full stop or a closing parenthesis: the numbers
    of its records are the numbers of these lines, in the order of the
    lines. *)
Theorem scan_numbers_are_line_numbers (text : str) :
  let lines := List.map strip (Py.split [nl] text) in
  match _extract_numbered_questions_deterministic text with
  | inr records =>
      exists numbers,
        Forall2 (fun line number => number_match numbered_line line = inr number)
                lines numbers
        /\ List.map det_number records = List.filter (N.ltb 0) (omap id numbers)
  | inl e =>
      exists line,
        In line lines /\ number_match numbered_line line = inl e
        /\ (int_max_str_digits < length (group1 line))%nat
  end.
Proof.
  lazy zeta.
  destruct (_extract_numbered_questions_deterministic text) as [e|records] eqn:E.
  - apply scan_raises in E as (line & Hin & Hover & ->).
    exists (strip line). split; [now apply in_map|].
    rewrite number_match_line, Hover. split; [reflexivity|].
    unfold overlong in Hover. apply andb_prop in Hover as [_ H].
    now apply Nat.ltb_lt in H.
  - apply scan_returns in E as [-> Hlines].
    exists (List.map numeral (List.map strip (Py.split [nl] text))). split.
    + clear -Hlines. induction Hlines as [|line lines Hline _ IH]; cbn [List.map];
        constructor; [|exact IH].
      now rewrite number_match_line, Hline.
    + rewrite finished_numbers, scanned_all_numbers.
      change (numbers ([], [], 0)) with (@nil N). cbn [app].
      unfold enumerate. rewrite map_fst_enumerate_from, omap_id_map, omap_map.
      reflexivity.
Qed.

(** What holds of every record. *)
Definition well_formed (r : numbered_question) : Prop :=
  0 < det_number r
  /\ det_raw_text r <> []
  /\ det_text r = strip (det_raw_text r)
  /\ (det_line_end r + 1 = det_line_start r + Z.of_nat (count_nl (det_raw_text r)))%Z.

Lemma record_well_formed current_number current_question line_after :
  in_question current_question current_number = true ->
  well_formed (numbered_record current_number current_question line_after).
Proof.
  unfold in_question. intros H. apply andb_prop in H as [H1 H2].
  apply N.ltb_lt in H2. unfold well_formed, numbered_record.
  cbn [det_number det_raw_text det_text det_line_end det_line_start].
  split; [exact H2|]. split; [now destruct current_question|].
  split; [reflexivity | lia].
Qed.

Lemma finished_invariant (P : numbered_question -> Prop)
    (Q : list numbered_question * str * N -> Prop) lines :
  (forall questions current_question current_number,
      Q (questions, current_question, current_number) ->
      Forall P questions
      /\ (in_question current_question current_number = true ->
          forall line_after, P (numbered_record current_number current_question line_after))) ->
  forall st, Q st -> Forall P (finished lines st).
Proof.
  intros HQ [[questions current_question] current_number] Hst.
  destruct (HQ _ _ _ Hst) as [Hq Hc]. unfold finished.
  destruct (in_question current_question current_number) eqn:E; [|exact Hq].
  apply List.Forall_app. split; [exact Hq|]. constructor; [|constructor]. now apply Hc.
Qed.

Lemma scan_records_well_formed text records :
  _extract_numbered_questions_deterministic text = inr records ->
  Forall well_formed records.
Proof.
  intros H. apply scan_returns in H as [-> _].
  apply (finished_invariant well_formed
           (fun st => Forall well_formed (fst (fst st)))).
  - intros questions current_question current_number Hq. cbn [fst] in Hq.
    split; [exact Hq|]. intros Q line_after. now apply record_well_formed.
  - apply fold_left_invariant; [constructor|].
    intros [[questions current_question] current_number] [line i] Hst _.
    unfold scanned. cbn [fst] in *.
    destruct (numeral (strip line)).
    + destruct (in_question current_question current_number) eqn:Q; [|exact Hst].
      cbn [fst]. apply List.Forall_app. split; [exact Hst|].
      constructor; [|constructor]. now apply record_well_formed.
    + now destruct (in_question current_question current_number).
Qed.

End ScanSpec.

(** ** The recovery *)

Module RecoverySpec.

Import LLMService Measures Samples PyFacts TextFacts LogFacts ChunkerSpec RaisingFacts.
Import NumberSpec ScanSpec.

Lemma dropwhile_app_stop (p : char -> bool) (s r : str) :
  dropwhile p s <> [] -> dropwhile p (s ++ r) = dropwhile p s ++ r.
Proof.
  induction s as [|c s IH]; cbn [dropwhile app]; [congruence|].
  destruct (p c); [exact IH | reflexivity].
Qed.

Lemma digits_from_app (s r : str) : forall acc,
  dropwhile Re.isdigit s <> [] ->
  fst (Re.digits_from acc (s ++ r)) = fst (Re.digits_from acc s).
Proof.
  induction s as [|c s IH]; intros acc; cbn [dropwhile app Re.digits_from]; [congruence|].
  unfold Re.isdigit. destruct (Re.digit_value c); [apply IH | reflexivity].
Qed.

Lemma group1_app (s r : str) :
  dropwhile Re.isdigit s <> [] -> group1 (s ++ r) = group1 s.
Proof.
  induction s as [|c s IH]; cbn [dropwhile app group1]; [congruence|].
  destruct (Re.isdigit c); [|reflexivity]. intros H. now rewrite IH.
Qed.

Lemma numbered_app (s r : str) : numbered s = true -> numbered (s ++ r) = true.
Proof.
  destruct s as [|c t]; [discriminate|]. cbn [numbered app].
  destruct (Re.isdigit c); [|discriminate]. cbn [andb].
  destruct (dropwhile Re.isdigit t) as [|c' u] eqn:Ht; [discriminate|].
  rewrite dropwhile_app_stop by now rewrite Ht. now rewrite Ht.
Qed.

Lemma numbered_stops (s : str) : numbered s = true -> dropwhile Re.isdigit s <> [].
Proof.
  destruct s as [|c t]; [discriminate|]. cbn [numbered dropwhile].
  destruct (Re.isdigit c); [|discriminate]. cbn [andb].
  now destruct (dropwhile Re.isdigit t).
Qed.

(** What follows the mark does not change the number that is read, nor
    the digits that write it. *)
Lemma numeral_app n (s r : str) : numeral s = Some n -> numeral (s ++ r) = Some n.
Proof.
  unfold numeral. destruct (numbered s) eqn:H; [|discriminate].
  rewrite (numbered_app s r H). pose proof (numbered_stops s H) as Hstop.
  destruct s as [|c t]; [discriminate|]. cbn [app Re.leading_number].
  destruct (Re.digit_value c) as [d|] eqn:E; [|discriminate]. cbn [option_map].
  intros [= <-]. f_equal. apply digits_from_app.
  cbn [dropwhile] in Hstop. unfold Re.isdigit in Hstop at 1. now rewrite E in Hstop.
Qed.

Lemma overlong_app (s r : str) : numbered s = true -> overlong (s ++ r) = overlong s.
Proof.
  intros H. unfold overlong. rewrite H, (numbered_app s r H).
  now rewrite (group1_app s r (numbered_stops s H)).
Qed.

Lemma numeral_numbered s n : numeral s = Some n -> numbered s = true.
Proof. unfold numeral. now destruct (numbered s). Qed.

Lemma rstrip_app_blank (a b : str) : rstrip b = [] -> rstrip (a ++ b) = rstrip a.
Proof.
  intros H. induction a as [|c a IH]; [exact H|].
  cbn [app]. now rewrite !rstrip_cons, IH.
Qed.

Lemma strip_headed (line rest : str) :
  kept line -> exists rest', strip (line ++ rest) = line ++ rest'.
Proof.
  intros [Ht Hne]. destruct line as [|c l]; [congruence|].
  unfold strip. cbn [app]. rewrite lstrip_head by now apply (trimmed_head c l).
  change (c :: l ++ rest) with ((c :: l) ++ rest).
  destruct (rstrip rest) as [|x r] eqn:E.
  - exists []. rewrite rstrip_app_blank by exact E. rewrite app_nil_r. apply Ht.
  - exists (x :: r). rewrite rstrip_app_kept by now rewrite E. now rewrite E.
Qed.

(** The text under construction starts with the line that gave its number,
    on which [int] returned. *)
Definition headed (n : N) (current_question : str) : Prop :=
  exists line rest,
    current_question = line ++ rest /\ kept line
    /\ numeral line = Some n /\ overlong line = false.

(** The recovery reads the record's number from the record's text. *)
Definition reads_back (r : numbered_question) : Prop :=
  number_match numbered_prefix (strip (det_text r)) = inr (Some (det_number r)).

Lemma headed_reads_back n current_question line_after :
  headed n current_question ->
  reads_back (numbered_record n current_question line_after).
Proof.
  intros (line & rest & -> & Hk & Hn & Ho). unfold reads_back, numbered_record.
  cbn [det_text det_number]. rewrite strip_idem.
  destruct (strip_headed line rest Hk) as [rest' ->].
  rewrite number_match_prefix, (overlong_app line rest' (numeral_numbered _ _ Hn)), Ho.
  f_equal. now apply numeral_app.
Qed.

Definition scanning (st : list numbered_question * str * N) : Prop :=
  let '(questions, current_question, current_number) := st in
  Forall reads_back questions
  /\ (in_question current_question current_number = true ->
      headed current_number current_question).

Lemma scanned_scanning st entry :
  overlong (strip (fst entry)) = false -> scanning st -> scanning (scanned st entry).
Proof.
  destruct st as [[questions current_question] current_number], entry as [line i].
  cbn [fst]. intros Ho [Hq Hc]. unfold scanned.
  destruct (numeral (strip line)) as [n|] eqn:E.
  - split.
    + destruct (in_question current_question current_number) eqn:Q; [|exact Hq].
      apply List.Forall_app. split; [exact Hq|].
      constructor; [|constructor]. now apply headed_reads_back, Hc.
    + intros _. exists (strip line), []. rewrite app_nil_r.
      split; [reflexivity|]. split; [|split; [exact E | exact Ho]].
      split; [apply strip_trimmed|].
      apply numeral_nonempty in E. now destruct (strip line).
  - destruct (in_question current_question current_number) eqn:Q;
      [|split; [exact Hq | intros Q'; rewrite Q in Q'; discriminate Q']].
    split; [exact Hq|]. intros _.
    destruct (Hc eq_refl) as (l & rest & -> & Hk & Hn).
    exists l, (rest ++ [nl] ++ strip line). now rewrite <- app_assoc.
Qed.

Lemma scan_reads_back text records :
  _extract_numbered_questions_deterministic text = inr records ->
  Forall reads_back records.
Proof.
  intros H. apply scan_returns in H as [-> Hlines].
  apply (finished_invariant reads_back scanning).
  - intros questions current_question current_number [Hq Hc].
    split; [exact Hq|]. intros Q line_after. now apply headed_reads_back, Hc.
  - apply fold_left_invariant.
    + split; [constructor | discriminate].
    + intros st entry Hst Hin. apply scanned_scanning; [|exact Hst].
      rewrite List.Forall_forall in Hlines. apply Hlines.
      apply (in_map fst) in Hin. unfold enumerate in Hin.
      now rewrite map_fst_enumerate_from in Hin.
Qed.

(** X26.  Every record that the deterministic scan returns has a number
    greater than zero and a text that is its raw text stripped; from that
    text the pattern of the recovery reads that number back, and [int]
    returns on it; and [line_start] is one more than [line_end] less the
    number of line breaks of the raw text, so that a record of one line has
    a [line_start] over its [line_end]. *)
Theorem scan_records_are_sound (text : str) (records : list numbered_question) :
  _extract_numbered_questions_deterministic text = inr records ->
  Forall (fun r =>
            0 < det_number r
            /\ det_text r = strip (det_raw_text r)
            /\ number_match numbered_prefix (det_text r) = inr (Some (det_number r))
            /\ (det_line_start r = det_line_end r + 1 - Z.of_nat (count_nl (det_raw_text r)))%Z)
         records.
Proof.
  intros H. generalize (scan_records_well_formed text records H) (scan_reads_back text records H).
  intros Hw Hb.
  apply List.Forall_forall. intros r Hr. rewrite List.Forall_forall in Hw, Hb.
  destruct (Hw r Hr) as (H1 & _ & H2 & H3). specialize (Hb r Hr). unfold reads_back in Hb.
  split; [exact H1|]. split; [exact H2|]. split; [|lia].
  rewrite H2 in Hb |- *. now rewrite strip_idem in Hb.
Qed.

(** The text of two questions. *)
Lemma scan_records_are_sound_witness :
  exists records,
    _extract_numbered_questions_deterministic two_questions = inr records
    /\ length records = 2%nat
    /\ Forall (fun r =>
                 0 < det_number r
                 /\ det_text r = strip (det_raw_text r)
                 /\ number_match numbered_prefix (det_text r) = inr (Some (det_number r))
                 /\ (det_line_start r
                     = det_line_end r + 1 - Z.of_nat (count_nl (det_raw_text r)))%Z)
              records.
Proof.
  eexists. split; [vm_compute; reflexivity|]. split; [reflexivity|].
  apply (scan_records_are_sound two_questions). vm_compute. reflexivity.
Defined.

(** *** The numbers found *)

Definition readable (q : question) : Prop :=
  overlong (strip (get (question_text q))) = false.

Definition number_read (q : question) : option N :=
  numeral (strip (get (question_text q))).

(** The body of the loop of [found_numbers] when [int] returns. *)
Definition noted (found : gset N) (q : question) : gset N :=
  match number_read q with
  | Some n => {[ n ]} ∪ found
  | None => found
  end.

Lemma found_step_eq (found : gset N) q :
  and_then (number_match numbered_prefix (strip (get (question_text q))))
    (fun number => match number with
                   | Some n => inr ({[ n ]} ∪ found)
                   | None => inr found
                   end)
  = if overlong (strip (get (question_text q)))
    then inl (ValueError (length (group1 (strip (get (question_text q))))))
    else inr (noted found q).
Proof.
  rewrite number_match_prefix. unfold noted, number_read.
  destruct (overlong _); [reflexivity|]. cbn [and_then]. now destruct (numeral _).
Qed.

Lemma noted_spec questions n : forall acc : gset N,
  n ∈ fold_left noted questions acc
  <-> n ∈ acc \/ exists q, In q questions /\ number_read q = Some n.
Proof.
  induction questions as [|q qs IH]; intros acc; cbn [fold_left].
  - split; [now left | intros [H|(q & [] & _)]; exact H].
  - rewrite IH. unfold noted. split.
    + intros [H|(q' & Hin & Hq')]; [|right; exists q'; split; [now right | exact Hq']].
      destruct (number_read q) as [m|] eqn:E; [|now left].
      apply elem_of_union in H as [H|H]; [|now left].
      apply elem_of_singleton in H. subst m. right. exists q. split; [now left | exact E].
    + intros [H|(q' & [->|Hin] & Hq')].
      * left. destruct (number_read q); [|exact H]. apply elem_of_union. now right.
      * left. rewrite Hq'. apply elem_of_union. left. now apply elem_of_singleton.
      * right. now exists q'.
Qed.

(** [found_numbers] returns exactly on readable questions, and then holds
    the numbers read from their texts. *)
Lemma found_numbers_returns questions found :
  found_numbers questions = inr found ->
  Forall readable questions
  /\ forall n, n ∈ found <-> exists q, In q questions /\ number_read q = Some n.
Proof.
  unfold found_numbers. intros H.
  destruct (fold_raising_returns _ noted questions
              (fun a b a' => ltac:(rewrite found_step_eq; destruct (overlong _);
                                   [discriminate | now intros [= <-]]))
              _ _ H) as [-> Hq].
  split.
  - apply List.Forall_forall. intros q Hin. destruct (Hq q Hin) as (x & x' & Hx).
    rewrite found_step_eq in Hx. unfold readable. now destruct (overlong _).
  - intros n. rewrite noted_spec. split; [intros [Hempty|Hn]; [|exact Hn] | now right].
    now apply not_elem_of_empty in Hempty.
Qed.

Lemma found_numbers_readable questions :
  Forall readable questions ->
  found_numbers questions = inr (fold_left noted questions ∅).
Proof.
  intros H. unfold found_numbers. apply fold_raising_pure.
  intros found q Hin. rewrite found_step_eq.
  rewrite List.Forall_forall in H. now rewrite (H q Hin).
Qed.

Lemma found_numbers_raises questions e :
  found_numbers questions = inl e ->
  exists q, In q questions /\ overlong (strip (get (question_text q))) = true.
Proof.
  unfold found_numbers. intros H.
  apply fold_raising_raises in H as (x & q & Hin & Hx). exists q. split; [exact Hin|].
  rewrite found_step_eq in Hx. now destruct (overlong _).
Qed.

(** The questions made by the recovery are readable. *)
Lemma recovered_readable det_q : reads_back det_q -> readable (recovered_question det_q).
Proof.
  unfold reads_back, readable. cbn [recovered_question question_text get].
  rewrite number_match_prefix. now destruct (overlong _).
Qed.

Lemma recovered_number det_q :
  reads_back det_q -> number_read (recovered_question det_q) = Some (det_number det_q).
Proof.
  unfold reads_back, number_read. cbn [recovered_question question_text get].
  rewrite number_match_prefix. destruct (overlong _); [discriminate|]. now intros [= ->].
Qed.

(** The questions that the recovery makes out of a baseline, given the
    numbers found. *)
Definition missing (deterministic_questions : list numbered_question) (found : gset N)
    : list question :=
  flat_map (fun det_q =>
              if bool_decide (det_number det_q ∉ found)
              then if (20 <? length (strip (det_text det_q)))%nat
                   then [recovered_question det_q]
                   else []
              else [])
           deterministic_questions.

Lemma recover_returns numbered found_questions recovered :
  _recover_missing_questions numbered found_questions = inr recovered ->
  exists found,
    found_numbers found_questions = inr found /\ recovered = missing numbered found.
Proof.
  unfold _recover_missing_questions. intros H.
  apply and_then_inr in H as (found & Hf & H). exists found.
  split; [exact Hf|]. now injection H as <-.
Qed.

Lemma missing_origin numbered found q :
  In q (missing numbered found) ->
  exists det_q,
    In det_q numbered /\ q = recovered_question det_q
    /\ (det_number det_q ∉ found)
    /\ (20 < length (strip (det_text det_q)))%nat.
Proof.
  unfold missing. intros H.
  apply in_flat_map in H as (det_q & Hin & H).
  destruct (bool_decide _) eqn:B; [|destruct H].
  destruct (20 <? _)%nat eqn:L; [|destruct H].
  destruct H as [<-|[]]. exists det_q.
  apply bool_decide_eq_true in B. apply Nat.ltb_lt in L. auto.
Qed.

Lemma missing_readable numbered found :
  Forall reads_back numbered -> Forall readable (missing numbered found).
Proof.
  intros Hb. apply List.Forall_forall. intros q Hq.
  apply missing_origin in Hq as (det_q & Hin & -> & _).
  rewrite List.Forall_forall in Hb. now apply recovered_readable, Hb.
Qed.

Lemma flat_map_nil {A B} (f : A -> list B) (l : list A) :
  (forall x, In x l -> f x = []) -> flat_map f l = [].
Proof.
  induction l as [|a l IH]; intros H; [reflexivity|].
  cbn [flat_map]. rewrite (H a) by now left. apply IH. intros x Hx. apply H. now right.
Qed.

(** X27.  The recovery is stable on the records of the scan: when the scan
    and the recovery return, the recovery returns again once the questions
    it recovered are added to the questions found, and recovers nothing:
    every record that it would recover is represented. *)
Theorem recovery_is_stable (text : str) (found_questions : list question)
    (deterministic_questions : list numbered_question) (recovered : list question) :
  _extract_numbered_questions_deterministic text = inr deterministic_questions ->
  _recover_missing_questions deterministic_questions found_questions = inr recovered ->
  _recover_missing_questions deterministic_questions (found_questions ++ recovered) = inr [].
Proof.
  intros Hscan Hrec. pose proof (scan_reads_back text _ Hscan) as Hback.
  apply recover_returns in Hrec as (found & Hfound & ->).
  apply found_numbers_returns in Hfound as [Hread Hspec].
  assert (Forall readable (found_questions ++ missing deterministic_questions found))
    as Hall.
  { apply List.Forall_app. split; [exact Hread | now apply missing_readable]. }
  unfold _recover_missing_questions. rewrite (found_numbers_readable _ Hall).
  cbn [and_then]. f_equal. apply flat_map_nil. intros det_q Hin.
  destruct (20 <? length (strip (det_text det_q)))%nat eqn:Hlen;
    [|now destruct (bool_decide _)].
  rewrite bool_decide_eq_false_2; [reflexivity|].
  intros Hnot. apply Hnot. apply noted_spec. right.
  rewrite List.Forall_forall in Hback.
  destruct (decide (det_number det_q ∈ found)) as [Hd|Hd].
  - apply Hspec in Hd as (q & Hq & Hn). exists q. split; [apply in_or_app; now left | exact Hn].
  - exists (recovered_question det_q). split; [|exact (recovered_number _ (Hback _ Hin))].
    apply in_or_app. right. unfold missing. apply in_flat_map. exists det_q.
    split; [exact Hin|]. rewrite bool_decide_eq_true_2 by exact Hd. rewrite Hlen. now left.
Qed.

(** The text of two questions, none of which was found: the second is
    recovered, and a second pass recovers nothing. *)
Lemma recovery_is_stable_witness :
  exists deterministic_questions recovered,
    _extract_numbered_questions_deterministic two_questions = inr deterministic_questions
    /\ _recover_missing_questions deterministic_questions [] = inr recovered
    /\ length recovered = 1%nat
    /\ _recover_missing_questions deterministic_questions ([] ++ recovered) = inr [].
Proof.
  eexists. eexists. split; [vm_compute; reflexivity|].
  split; [vm_compute; reflexivity|]. split; [reflexivity|].
  apply (recovery_is_stable two_questions); vm_compute; reflexivity.
Defined.

End RecoverySpec.

(** ** The calls of the analysis path *)

Module DispatchSpec.

Import LLMService PyFacts LogFacts.

(** What a reply is worth: the parsed object, if there is one. *)
Definition usable (r : api_reply) : option chunk_result :=
  match r with
  | ApiRaises => None
  | Json (Object result) => if countable result then Some result else None
  | Json NotObject => None
  | NotJson salvaged => salvaged
  end.

Lemma api_attempts_spec llm chunk i remaining : forall attempt log,
  (attempt + remaining = max_retries)%nat -> (0 < remaining)%nat ->
  exists n,
    (1 <= n <= remaining)%nat
    /\ api_attempts chunk i remaining attempt llm log
       = (usable (llm i (attempt + n - 1)%nat chunk), log ++ requests chunk i attempt n)
    /\ (forall a, (attempt <= a < attempt + n - 1)%nat -> usable (llm i a chunk) = None)
    /\ ((n < remaining)%nat -> usable (llm i (attempt + n - 1)%nat chunk) <> None).
Proof.
  induction remaining as [|r IH]; intros attempt log Hsum Hpos; [lia|].
  assert (usable (llm i attempt chunk) = None -> (attempt <> max_retries - 1)%nat ->
          exists n,
            (1 <= n <= S r)%nat
            /\ api_attempts chunk i r (S attempt) llm (log ++ [(i, attempt, chunk)])
               = (usable (llm i (attempt + n - 1)%nat chunk), log ++ requests chunk i attempt n)
            /\ (forall a, (attempt <= a < attempt + n - 1)%nat -> usable (llm i a chunk) = None)
            /\ ((n < S r)%nat -> usable (llm i (attempt + n - 1)%nat chunk) <> None)) as Hnext.
  { intros Hfail Hne. unfold max_retries in *.
    destruct (IH (S attempt) (log ++ [(i, attempt, chunk)])) as (n & Hn & E & Hprev & Hlast);
      [lia | lia |].
    exists (S n). split; [lia|].
    replace (attempt + S n - 1)%nat with (S attempt + n - 1)%nat by lia.
    split; [|split].
    - rewrite E, requests_cons, <- app_assoc. reflexivity.
    - intros a Ha. destruct (Nat.eq_dec a attempt) as [->|Hd]; [exact Hfail|].
      apply Hprev. lia.
    - intros Hlt. apply Hlast. lia. }
  assert (forall result,
            usable (llm i attempt chunk) = result ->
            (result = None -> (attempt = max_retries - 1)%nat) ->
            exists n,
              (1 <= n <= S r)%nat
              /\ (result, log ++ [(i, attempt, chunk)])
                 = (usable (llm i (attempt + n - 1)%nat chunk),
                    log ++ requests chunk i attempt n)
              /\ (forall a, (attempt <= a < attempt + n - 1)%nat ->
                            usable (llm i a chunk) = None)
              /\ ((n < S r)%nat -> usable (llm i (attempt + n - 1)%nat chunk) <> None))
    as Hstop.
  { intros result Hres Hlast. exists 1%nat.
    replace (attempt + 1 - 1)%nat with attempt by lia.
    split; [lia|]. split; [now rewrite Hres|]. split; [intros a Ha; lia|].
    intros Hlt Hnone. rewrite Hres in Hnone. apply Hlast in Hnone.
    unfold max_retries in *. lia. }
  assert (usable (llm i attempt chunk) = None ->
          exists n,
            (1 <= n <= S r)%nat
            /\ (if (attempt <? max_retries - 1)%nat
                then api_attempts chunk i r (S attempt)
                else ret None) llm (log ++ [(i, attempt, chunk)])
               = (usable (llm i (attempt + n - 1)%nat chunk), log ++ requests chunk i attempt n)
            /\ (forall a, (attempt <= a < attempt + n - 1)%nat -> usable (llm i a chunk) = None)
            /\ ((n < S r)%nat -> usable (llm i (attempt + n - 1)%nat chunk) <> None)) as Hexcept.
  { intros Hfail. destruct (attempt <? max_retries - 1)%nat eqn:E.
    - apply Nat.ltb_lt in E. apply Hnext; [exact Hfail | lia].
    - apply Nat.ltb_ge in E. unfold ret. apply (Hstop None); [exact Hfail|].
      intros _. unfold max_retries in *. lia. }
  cbn [api_attempts]. unfold bind, create.
  destruct (llm i attempt chunk) as [|[result|]|[result|]] eqn:R.
  - apply Hexcept. reflexivity.
  - cbn [usable] in *. destruct (countable result).
    + apply Hstop; [reflexivity | discriminate].
    + apply Hexcept. reflexivity.
  - apply Hexcept. reflexivity.
  - apply Hstop; [reflexivity | discriminate].
  - destruct (attempt =? max_retries - 1)%nat eqn:E.
    + apply Nat.eqb_eq in E. apply Hstop; [reflexivity | now intros _].
    + apply Nat.eqb_neq in E. now apply Hnext.
Qed.

(** X12.  [_call_openai_api] makes at least one and at most three requests,
    for the attempts 0, 1, ... in order, and returns what the last of them
    is worth: the first reply that holds a JSON object, or [None] when the
    third attempt is reached and fails too. *)
Theorem call_returns_first_answer (llm : oracle api_reply) (chunk : str)
    (chunk_index : nat) :
  exists n,
    (1 <= n <= max_retries)%nat
    /\ run (_call_openai_api chunk chunk_index) llm
       = (usable (llm chunk_index (n - 1)%nat chunk),
          List.map (fun attempt => (chunk_index, attempt, chunk)) (seq 0 n))
    /\ (forall attempt, (attempt < n - 1)%nat -> usable (llm chunk_index attempt chunk) = None)
    /\ ((n < max_retries)%nat -> usable (llm chunk_index (n - 1)%nat chunk) <> None).
Proof.
  destruct (api_attempts_spec llm chunk chunk_index max_retries 0 [])
    as (n & Hn & E & Hprev & Hlast); [reflexivity | unfold max_retries; lia |].
  exists n. split; [exact Hn|]. split; [exact E|]. split; [|exact Hlast].
  intros a Ha. apply Hprev. lia.
Qed.






End DispatchSpec.

(** ** The dispatcher and the reconciler *)

Module ReconcilerSpec.

Import LLMService Measures Samples Scenarios PyFacts LogFacts ChunkerSpec RaisingFacts.
Import NumberSpec ScanSpec RecoverySpec DispatchSpec.

Definition call (llm : oracle api_reply) (entry : str * nat) : option chunk_result :=
  fst (run (_call_openai_api (fst entry) (snd entry)) llm).

(** A call returns what the reply to its last attempt is worth, whatever
    the log holds. *)
Lemma api_attempts_value llm chunk i log :
  exists n,
    (1 <= n <= max_retries)%nat
    /\ fst (_call_openai_api chunk i llm log) = usable (llm i (n - 1)%nat chunk)
    /\ (forall attempt, (attempt < n - 1)%nat -> usable (llm i attempt chunk) = None)
    /\ ((n < max_retries)%nat -> usable (llm i (n - 1)%nat chunk) <> None).
Proof.
  destruct (api_attempts_spec llm chunk i max_retries 0 log)
    as (n & Hn & E & Hprev & Hlast); [reflexivity | unfold max_retries; lia |].
  exists n. split; [exact Hn|]. unfold _call_openai_api. rewrite E.
  split; [reflexivity|]. split; [|exact Hlast].
  intros a Ha. apply Hprev. lia.
Qed.

(** The value of a call is the worth of the first reply that is worth
    something among the three. *)
Lemma call_first_usable llm chunk i log attempt res :
  (attempt < max_retries)%nat ->
  (forall earlier, (earlier < attempt)%nat -> usable (llm i earlier chunk) = None) ->
  usable (llm i attempt chunk) = Some res ->
  fst (_call_openai_api chunk i llm log) = Some res.
Proof.
  intros Ha Hearlier Hres.
  destruct (api_attempts_value llm chunk i log) as (n & Hn & -> & Hprev & Hlast).
  assert ((n - 1)%nat = attempt) as ->; [|exact Hres].
  destruct (Nat.lt_trichotomy (n - 1) attempt) as [Hlt|[Heq|Hgt]]; [|exact Heq|].
  - exfalso. apply Hlast; [lia|]. now apply Hearlier.
  - rewrite (Hprev attempt Hgt) in Hres. discriminate Hres.
Qed.

(** Exhausted retries give the failure sentinel. *)
Lemma call_all_fail llm chunk i log :
  (forall attempt, (attempt < max_retries)%nat -> usable (llm i attempt chunk) = None) ->
  fst (_call_openai_api chunk i llm log) = None.
Proof.
  intros H. destruct (api_attempts_value llm chunk i log) as (n & Hn & -> & _).
  apply H. lia.
Qed.

Lemma call_value llm chunk i log : fst (_call_openai_api chunk i llm log) = call llm (chunk, i).
Proof.
  unfold call, run. cbn [fst snd].
  destruct (api_attempts_value llm chunk i log) as (n & Hn & -> & Hprev & Hlast).
  destruct (api_attempts_value llm chunk i []) as (m & Hm & -> & Hprev' & Hlast').
  destruct (Nat.lt_trichotomy n m) as [Hlt|[->|Hgt]]; [|reflexivity|].
  - rewrite (Hprev' (n - 1)%nat) by lia. 
    destruct (usable (llm i (m - 1)%nat chunk)) eqn:E; [|reflexivity].
    exfalso. apply Hlast; [lia|]. apply Hprev'. lia.
  - rewrite (Hprev (m - 1)%nat) by lia.
    destruct (usable (llm i (n - 1)%nat chunk)) eqn:E; [|reflexivity].
    exfalso. apply Hlast'; [lia|]. apply Hprev. lia.
Qed.

(** The gathered results are the results of the single calls. *)
Lemma dispatch_values llm (entries : list (str * nat)) :
  forall log,
    fst (mapM (fun '(chunk, i) => _call_openai_api chunk i) entries llm log)
    = List.map (call llm) entries.
Proof.
  induction entries as [|[chunk i] entries IH]; intros log; [reflexivity|].
  cbn [mapM List.map]. unfold bind at 1.
  destruct (_call_openai_api chunk i llm log) as [b log1] eqn:E1.
  unfold bind at 1.
  specialize (IH log1).
  destruct (mapM _ entries llm log1) as [bs log2]. simpl in IH. simpl.
  f_equal; [|exact IH].
  change b with (fst (b, log1)). rewrite <- E1.
  apply call_value.
Qed.

Lemma dispatch_results llm chunks :
  fst (run (dispatch_chunks chunks) llm) = List.map (call llm) (enumerate chunks).
Proof. apply dispatch_values. Qed.

(** The result of the analysis: the result of the reconciler on the
    results of the dispatcher, unless the scan or the reconciler raise. *)
Definition outcome (reconciled : may_raise analysis_result) : analysis_result :=
  match reconciled with
  | inl _ => failure_result
  | inr final_result => final_result
  end.

Lemma analyze_reconciles llm text :
  fst (run (analyze_text_with_llm text) llm)
  = outcome
      (and_then (_extract_numbered_questions_deterministic text) (fun numbered_questions =>
         reconcile numbered_questions (_chunk_text_intelligently text)
           (fst (run (dispatch_chunks (_chunk_text_intelligently text)) llm)))).
Proof.
  unfold analyze_text_with_llm.
  destruct (_extract_numbered_questions_deterministic text) as [e|numbered]; [reflexivity|].
  cbn [and_then]. generalize (_chunk_text_intelligently text). intros chunks.
  unfold run, bind, ret. now destruct (dispatch_chunks chunks llm []).
Qed.

(** What a reconciliation that returns is made of. *)
Lemma reconcile_returns numbered chunks results final_result :
  reconcile numbered chunks results = inr final_result ->
  exists merged all_questions found,
    merge_results results = inr merged
    /\ with_recovery numbered (LLMService.all_questions merged) = inr all_questions
    /\ found_numbers all_questions = inr found
    /\ final_result
       = {| result_questions := all_questions;
            result_topics := topic_counts all_questions;
            result_summary :=
              {| total_questions := length all_questions;
                 topics_found := length (topic_counts all_questions);
                 summary_question_types := Some (question_types merged);
                 chunks_processed := Some (length chunks);
                 processing_success := true |} |}.
Proof.
  unfold reconcile. intros H.
  apply and_then_inr in H as (merged & Hm & H).
  apply and_then_inr in H as (all & Hr & H).
  apply and_then_inr in H as ([] & Hv & H).
  unfold _validate_against_deterministic_scan in Hv.
  apply and_then_inr in Hv as (found & Hf & _).
  exists merged, all, found. injection H as <-. auto.
Qed.

(** The analysis either succeeds with a reconciled result, or fails with
    the result of the handler. *)
Lemma analyze_cases llm text :
  let result := fst (run (analyze_text_with_llm text) llm) in
  (exists numbered,
      _extract_numbered_questions_deterministic text = inr numbered
      /\ reconcile numbered (_chunk_text_intelligently text)
           (fst (run (dispatch_chunks (_chunk_text_intelligently text)) llm))
         = inr result
      /\ processing_success (result_summary result) = true)
  \/ result = failure_result.
Proof.
  lazy zeta. rewrite analyze_reconciles.
  destruct (_extract_numbered_questions_deterministic text) as [e|numbered];
    [now right|].
  cbn [and_then].
  generalize (fst (run (dispatch_chunks (_chunk_text_intelligently text)) llm)).
  generalize (_chunk_text_intelligently text). intros chunks results.
  destruct (reconcile numbered chunks results) as [e|r] eqn:E; [now right|].
  left. exists numbered. split; [reflexivity|]. cbn [outcome]. split; [exact E|].
  apply reconcile_returns in E as (merged & all & found & _ & _ & _ & ->). reflexivity.
Qed.

(** *** Numbering the results *)

(** The result numbered [i] is the result of the call for chunk [i]. *)
Lemma result_of_chunk llm chunks i chunk :
  nth_error chunks i = Some chunk ->
  nth_error (fst (run (dispatch_chunks chunks) llm)) i = Some (call llm (chunk, i)).
Proof.
  intros H. rewrite dispatch_results. rewrite nth_error_map.
  unfold enumerate. rewrite nth_error_enumerate_from, H. reflexivity.
Qed.

(** *** Phase 3 *)

Definition from_llm (q : question) : Prop := detection_method q = Some (lit "llm").

(** [q'] is [q] as phase 3 accepts it from chunk [i]. *)
Definition accepted_as (i : nat) (q q' : question) : Prop :=
  question_text q' = question_text q
  /\ source_chunk q' = Some (Chunk (i + 1))
  /\ detection_method q' = Some (lit "llm").

Lemma question_step_keeps i st question st' x :
  question_step i st question = inr st' ->
  In x (all_questions st) -> In x (all_questions st').
Proof.
  destruct question as [q|]; [|discriminate]. cbn [question_step]. intros [= <-].
  destruct (_validate_question q); simpl; [|auto].
  intros H. apply in_or_app. now left.
Qed.

Lemma question_steps_keep i qs st st' x :
  fold_raising (question_step i) qs st = inr st' ->
  In x (all_questions st) -> In x (all_questions st').
Proof.
  intros H Hx.
  apply (fold_raising_invariant (fun st => In x (all_questions st)) (question_step i) qs st st');
    [exact Hx | | exact H].
  intros a b a' Ha _ E. now apply (question_step_keeps i a b a').
Qed.

Lemma question_steps_accept i qs q : forall st st',
  In (Typed q) qs -> _validate_question q = true ->
  fold_raising (question_step i) qs st = inr st' ->
  exists q', In q' (all_questions st') /\ accepted_as i q q'.
Proof.
  induction qs as [|q0 qs IH]; intros st st' Hin Hv H; [destruct Hin|].
  cbn [fold_raising] in H. apply and_then_inr in H as (st1 & E & H).
  destruct Hin as [->|Hin]; [|now apply (IH st1)].
  exists (relabel i (all_questions st) q). split; [|now repeat split].
  apply (question_steps_keep i qs st1 st' _ H).
  cbn [question_step] in E. rewrite Hv in E. injection E as <-. simpl.
  apply in_or_app. right. now left.
Qed.

Lemma result_step_keeps st entry st' x :
  result_step st entry = inr st' ->
  In x (all_questions st) -> In x (all_questions st').
Proof.
  destruct entry as [[[[[qs|]|]]|] i]; cbn [result_step];
    try discriminate; try (now intros [= <-]).
  apply question_steps_keep.
Qed.

Lemma result_steps_keep entries st st' x :
  fold_raising result_step entries st = inr st' ->
  In x (all_questions st) -> In x (all_questions st').
Proof.
  intros H Hx.
  apply (fold_raising_invariant (fun st => In x (all_questions st)) result_step entries st st');
    [exact Hx | | exact H].
  intros a b a' Ha _ E. now apply (result_step_keeps a b a').
Qed.

Lemma result_steps_accept entries res i qs q : forall st st',
  In (Some res, i) entries -> questions res = Some (Entries qs) ->
  In (Typed q) qs -> _validate_question q = true ->
  fold_raising result_step entries st = inr st' ->
  exists q', In q' (all_questions st') /\ accepted_as i q q'.
Proof.
  induction entries as [|entry entries IH]; intros st st' Hin Hqs Hq Hv H; [destruct Hin|].
  cbn [fold_raising] in H. apply and_then_inr in H as (st1 & E & H).
  destruct Hin as [->|Hin]; [|now apply (IH st1)].
  destruct res as [qs']. cbn [questions] in Hqs. subst qs'. cbn [result_step] in E.
  destruct (question_steps_accept i qs q st st1 Hq Hv E) as (q' & Hq' & Ha).
  exists q'. split; [|exact Ha]. now apply (result_steps_keep entries st1 st').
Qed.

(** What phase 3 knows of an accepted question: its tag, that the
    validator accepts it, and the result it comes from. *)
Definition traced (entries : list (option chunk_result * nat)) (q' : question) : Prop :=
  from_llm q'
  /\ _validate_question q' = true
  /\ exists i res, source_chunk q' = Some (Chunk (i + 1)) /\ In (Some res, i) entries.

Lemma merge_traced results merged :
  merge_results results = inr merged ->
  Forall (traced (enumerate results)) (all_questions merged).
Proof.
  unfold merge_results.
  apply (fold_raising_invariant
           (fun st => Forall (traced (enumerate results)) (all_questions st)));
    [constructor|].
  intros st [result i] st' Hst Hin. unfold result_step.
  destruct result as [[[[qs|]|]]|]; try discriminate; try (now intros [= <-]).
  apply (fold_raising_invariant
           (fun st => Forall (traced (enumerate results)) (all_questions st)));
    [exact Hst|].
  intros a [q|] a' Ha _; [|discriminate]. cbn [question_step]. intros [= <-].
  destruct (_validate_question q) eqn:V; [|exact Ha]. cbn [all_questions].
  apply List.Forall_app. split; [exact Ha|].
  constructor; [|constructor]. split; [reflexivity|]. split; [exact V|].
  now exists i, {| questions := Some (Entries qs) |}.
Qed.

(** *** Phase 4 *)

Lemma missing_tagged numbered found q :
  In q (missing numbered found) ->
  recovered q = true /\ source_chunk q = Some Recovery.
Proof.
  intros H. apply missing_origin in H as (det_q & _ & -> & _). split; reflexivity.
Qed.








(** When ten questions are accepted nothing is recovered, whatever the
    baseline holds. *)
Lemma no_recovery_from_ten numbered_questions accepted :
  (10 <= length accepted)%nat ->
  with_recovery numbered_questions accepted = inr accepted.
Proof.
  intros H. unfold with_recovery.
  destruct (Nat.ltb_spec (length accepted) 10); [lia | reflexivity].
Qed.

(** *** A chunk without result *)

(** The model that answers the requests for chunk [k] with an object
    without questions, and the others as [llm] does. *)
Definition answering_nothing (k : nat) (llm : oracle api_reply) : oracle api_reply :=
  fun chunk_index attempt chunk =>
    if (chunk_index =? k)%nat then Json (Object {| questions := None |})
    else llm chunk_index attempt chunk.

Lemma call_other_chunk llm k chunk i :
  i <> k -> call (answering_nothing k llm) (chunk, i) = call llm (chunk, i).
Proof.
  intros Hne. unfold call, run. cbn [fst snd].
  destruct (api_attempts_value llm chunk i []) as (n & Hn & -> & Hprev & Hlast).
  assert (forall attempt,
             usable (answering_nothing k llm i attempt chunk) = usable (llm i attempt chunk))
    as Hsame.
  { intros attempt. unfold answering_nothing. now rewrite (proj2 (Nat.eqb_neq i k) Hne). }
  destruct (usable (llm i (n - 1)%nat chunk)) as [res|] eqn:E.
  - apply (call_first_usable _ chunk i [] (n - 1)%nat); [lia | | now rewrite Hsame].
    intros earlier He. rewrite Hsame. now apply Hprev.
  - apply call_all_fail. intros attempt Ha. rewrite Hsame.
    destruct (Nat.lt_ge_cases attempt (n - 1)) as [Hlt|Hge]; [now apply Hprev|].
    assert (n = max_retries) as -> by (destruct (Nat.eq_dec n max_retries) as [H|H];
      [exact H | exfalso; apply Hlast; [lia | reflexivity]]).
    replace attempt with (max_retries - 1)%nat by (unfold max_retries in *; lia).
    exact E.
Qed.

Lemma call_answering_nothing llm k chunk :
  call (answering_nothing k llm) (chunk, k) = Some {| questions := None |}.
Proof.
  unfold call, run. cbn [fst snd].
  apply (call_first_usable _ chunk k [] 0%nat); [unfold max_retries; lia | intros e He; lia |].
  unfold answering_nothing. now rewrite Nat.eqb_refl.
Qed.

(** Phase 3 does not tell a chunk without result from a chunk without
    questions. *)
Lemma merge_without_chunk llm k chunk (chunks : list str) :
  nth_error chunks k = Some chunk ->
  call llm (chunk, k) = None ->
  merge_results (List.map (call (answering_nothing k llm)) (enumerate chunks))
  = merge_results (List.map (call llm) (enumerate chunks)).
Proof.
  intros Hk Hnone. unfold merge_results, enumerate.
  generalize {| all_questions := []; all_topics := ∅; question_types := ∅;
                excluded_questions := 0 |}.
  assert (forall i c, nth_error chunks (i - 0) = Some c -> (0 <= i)%nat ->
                      i = k -> c = chunk) as Hchunk.
  { intros i c Hc _ ->. rewrite Nat.sub_0_r in Hc. congruence. }
  revert Hchunk. generalize 0%nat at 1 2 3 4 5 6. clear Hk.
  induction chunks as [|c chunks IH]; intros n Hchunk st; [reflexivity|].
  cbn [enumerate_from List.map fold_raising].
  assert (result_step st (call (answering_nothing k llm) (c, n), n)
          = result_step st (call llm (c, n), n)) as ->.
  { destruct (Nat.eq_dec n k) as [->|Hne]; [|now rewrite call_other_chunk].
    rewrite (Hchunk k c) by (rewrite ?Nat.sub_diag; auto).
    now rewrite call_answering_nothing, Hnone. }
  destruct (result_step st (call llm (c, n), n)) as [e|st']; [reflexivity|].
  cbn [and_then]. apply IH. intros i c' Hc' Hi Hik. apply (Hchunk i c'); [|lia | exact Hik].
  replace (i - n)%nat with (S (i - S n)) by lia. exact Hc'.
Qed.

(** C7 (amended).  When every attempt for one chunk fails, the call for
    that chunk returns the failure sentinel [None], and the analysis gives
    the result that it gives when the model answers for that chunk with an
    object without questions: the failed chunk does not make the request
    fail.  No question of the result comes from that chunk.  When the
    analysis succeeds, every question that the validator accepts in the
    first reply worth something made for another chunk is in the result,
    tagged with its chunk. *)
Theorem failed_chunk_left_out (llm : oracle api_reply) (text : str) (k : nat) (chunk : str) :
  let chunks := _chunk_text_intelligently text in
  let result := fst (run (analyze_text_with_llm text) llm) in
  nth_error chunks k = Some chunk ->
  (forall attempt, (attempt < max_retries)%nat -> usable (llm k attempt chunk) = None) ->
  fst (run (_call_openai_api chunk k) llm) = None
  /\ result = fst (run (analyze_text_with_llm text) (answering_nothing k llm))
  /\ (forall q, In q (result_questions result) -> source_chunk q <> Some (Chunk (k + 1)))
  /\ (processing_success (result_summary result) = true ->
      forall i c attempt res qs q,
        nth_error chunks i = Some c ->
        (attempt < max_retries)%nat ->
        (forall earlier, (earlier < attempt)%nat -> usable (llm i earlier c) = None) ->
        usable (llm i attempt c) = Some res ->
        questions res = Some (Entries qs) -> In (Typed q) qs -> _validate_question q = true ->
        exists q', In q' (result_questions result) /\ accepted_as i q q').
Proof.
  lazy zeta. rewrite (analyze_reconciles (answering_nothing k llm) text).
  generalize (analyze_cases llm text) (analyze_reconciles llm text). lazy zeta.
  generalize (fst (run (analyze_text_with_llm text) llm)). intros result.
  rewrite !dispatch_results.
  generalize (_chunk_text_intelligently text). intros chunks Hcases Hvalue Hk Hfail.
  assert (call llm (chunk, k) = None) as Hnone by (apply call_all_fail; exact Hfail).
  split; [exact Hnone|]. split.
  { rewrite Hvalue. f_equal.
    destruct (_extract_numbered_questions_deterministic text) as [e|numbered];
      [reflexivity|].
    cbn [and_then]. unfold reconcile.
    now rewrite (merge_without_chunk llm k chunk chunks Hk Hnone). }
  destruct Hcases as [(numbered & Hscan & Hrec & Hok)|Hfailure];
    [|rewrite Hfailure; split; [intros q [] | discriminate]].
  apply reconcile_returns in Hrec as (merged & all & found & Hm & Hr & _ & Hresult).
  assert (forall q, In q all ->
                    In q (all_questions merged)
                    \/ exists found', In q (missing numbered found')) as Hall.
  { unfold with_recovery in Hr. destruct (length (all_questions merged) <? 10)%nat.
    - apply and_then_inr in Hr as (recovery & Hrecover & Hr). injection Hr as <-.
      apply recover_returns in Hrecover as (found' & _ & ->).
      intros q Hq. apply in_app_or in Hq as [Hq|Hq]; [now left | right; now exists found'].
    - injection Hr as <-. now left. }
  assert (forall q, In q (all_questions merged) -> In q all) as Hkept.
  { unfold with_recovery in Hr. destruct (length (all_questions merged) <? 10)%nat.
    - apply and_then_inr in Hr as (recovery & _ & Hr). injection Hr as <-.
      intros q Hq. apply in_or_app. now left.
    - now injection Hr as <-. }
  rewrite Hresult. cbn [result_questions]. split.
  - intros q Hq. apply Hall in Hq as [Hq|[found' Hq]].
    + apply (proj1 (List.Forall_forall _ _) (merge_traced _ merged Hm)) in Hq
        as (_ & _ & i & res & Hsrc & Hin).
      rewrite Hsrc. intros E. injection E as E. assert (i = k) as -> by lia.
      apply in_enumerate in Hin. rewrite nth_error_map in Hin.
      unfold enumerate in Hin. rewrite nth_error_enumerate_from, Hk in Hin.
      cbn [option_map Nat.add] in Hin. rewrite Hnone in Hin. discriminate Hin.
    + apply missing_tagged in Hq as [_ Hq]. rewrite Hq. discriminate.
  - intros _ i c attempt res qs q Hc Ha Hearlier Hres Hqs Hq Hv.
    assert (In (Some res, i) (enumerate (List.map (call llm) (enumerate chunks)))) as Hin.
    { apply in_enumerate. rewrite nth_error_map. unfold enumerate.
      rewrite nth_error_enumerate_from, Hc. cbn [option_map Nat.add]. f_equal.
      unfold call, run. cbn [fst snd]. now apply (call_first_usable llm c i [] attempt). }
    destruct (result_steps_accept _ res i qs q _ merged Hin Hqs Hq Hv Hm) as (q' & Hq' & Ha').
    exists q'. split; [now apply Hkept | exact Ha'].
Qed.

(** The exam of three chunks, with the model that fails on the second:
    the questions of the first and of the third chunk are in the result. *)
Lemma failed_chunk_left_out_witness :
  let result := fst (run (analyze_text_with_llm long_exam) flaky_model) in
  fst (run (_call_openai_api long2 1) flaky_model) = None
  /\ (forall q, In q (result_questions result) -> source_chunk q <> Some (Chunk 2))
  /\ (exists q', In q' (result_questions result)
                 /\ accepted_as 0 (answer "What is a firewall used for?") q')
  /\ (exists q', In q' (result_questions result)
                 /\ accepted_as 2 (answer "What is a firewall used for?") q').
Proof.
  assert (nth_error (_chunk_text_intelligently long_exam) 1 = Some long2) as H
    by (vm_compute; reflexivity).
  destruct (failed_chunk_left_out flaky_model long_exam 1 long2 H (fun _ _ => eq_refl))
    as (H1 & _ & H3 & H4).
  assert (processing_success
            (result_summary (fst (run (analyze_text_with_llm long_exam) flaky_model))) = true)
    as Hok by (vm_compute; reflexivity).
  split; [exact H1|]. split; [exact H3|]. split.
  - apply (H4 Hok 0%nat long1 0%nat
              {| questions := Some (Entries [Typed (answer "What is a firewall used for?")]) |}
              [Typed (answer "What is a firewall used for?")]);
      try (vm_compute; reflexivity); [unfold max_retries; lia | intros e He; lia | now left].
  - apply (H4 Hok 2%nat long3 0%nat
              {| questions := Some (Entries [Typed (answer "What is a firewall used for?")]) |}
              [Typed (answer "What is a firewall used for?")]);
      try (vm_compute; reflexivity); [unfold max_retries; lia | intros e He; lia | now left].
Defined.

(** C7, as stated, fails on the exam of three chunks when the model fails
    on the second chunk and answers the two others, at the first attempt,
    with a question that the validator accepts and whose text starts with a
    numeral of 4301 digits: [int] raises on that numeral in the recovery,
    the handler of the analysis returns the result of a failure, and the
    questions of the two chunks that succeeded are not in it. *)
Lemma overlong_numeral_fails_request :
  let result := fst (run (analyze_text_with_llm long_exam) overnumbering_model) in
  _chunk_text_intelligently long_exam = [long1; long2; long3]
  /\ (forall attempt, overnumbering_model 1%nat attempt long2 = ApiRaises)
  /\ (forall i attempt chunk,
        i <> 1%nat ->
        overnumbering_model i attempt chunk
        = Json (Object {| questions := Some (Entries [Typed overnumbered]) |}))
  /\ _validate_question overnumbered = true
  /\ result_questions result = []
  /\ processing_success (result_summary result) = false.
Proof.
  split; [vm_compute; reflexivity|]. split; [reflexivity|]. split.
  { intros i attempt chunk Hi. unfold overnumbering_model.
    now rewrite (proj2 (Nat.eqb_neq i 1) Hi). }
  split; [vm_compute; reflexivity|]. split; vm_compute; reflexivity.
Qed.

Example three_chunks_two_answers :
  let result := fst (run (analyze_text_with_llm long_exam) flaky_model) in
  List.map source_chunk (result_questions result)
  = [Some (Chunk 1); Some (Chunk 3); Some Recovery; Some Recovery; Some Recovery]
  /\ List.map (fun '(i, attempt, _) => (i, attempt))
              (snd (run (analyze_text_with_llm long_exam) flaky_model))
     = [(0, 0); (1, 0); (1, 1); (1, 2); (2, 0)]%nat.
Proof. refine (conj _ _); vm_compute; reflexivity. Qed.

End ReconcilerSpec.

(** ** The result of the analysis *)

Module ResultSpec.

Import LLMService Measures Samples Scenarios PyFacts LogFacts ChunkerSpec RaisingFacts.
Import NumberSpec ScanSpec.
Import RecoverySpec ReconcilerSpec.

(** The validator reads the text, the type and the confidence of a
    question, which phase 3 leaves as they are. *)
Lemma validate_relabel i all_questions q :
  _validate_question (relabel i all_questions q) = _validate_question q.
Proof. reflexivity. Qed.

Lemma traced_in_range results q :
  traced (enumerate results) q ->
  exists i, (i < length results)%nat /\ source_chunk q = Some (Chunk (i + 1)).
Proof.
  intros (_ & _ & i & res & Hs & Hin). exists i. split; [|exact Hs].
  apply in_enumerate in Hin. apply nth_error_Some. congruence.
Qed.

(** X15.  Every question of the result of [analyze_text_with_llm] either
    carries the tag ["llm"] and the number of one of the chunks and passes
    [_validate_question], or was made by the recovery from a baseline record
    of more than twenty characters whose number was not read from any
    accepted question, fewer than ten questions having been accepted. *)
Theorem result_questions_validated_or_recovered (llm : oracle api_reply) (text : str) :
  let result := fst (run (analyze_text_with_llm text) llm) in
  Forall (fun q =>
            (detection_method q = Some (lit "llm")
             /\ _validate_question q = true
             /\ exists i, (i < length (_chunk_text_intelligently text))%nat
                          /\ source_chunk q = Some (Chunk (i + 1)))
            \/ (exists numbered_questions accepted found,
                  _extract_numbered_questions_deterministic text = inr numbered_questions
                  /\ accepted_questions llm text = inr accepted
                  /\ found_numbers accepted = inr found
                  /\ (length accepted < 10)%nat
                  /\ exists det_q,
                       In det_q numbered_questions
                       /\ q = recovered_question det_q
                       /\ (det_number det_q ∉ found)
                       /\ (20 < length (strip (det_text det_q)))%nat))
         (result_questions result).
Proof.
  lazy zeta. destruct (analyze_cases llm text) as [(numbered & Hscan & Hrec & _)|Hfail];
    [|rewrite Hfail; constructor].
  unfold accepted_questions. revert Hrec.
  generalize (fst (run (analyze_text_with_llm text) llm)). intros result.
  generalize (dispatch_results llm (_chunk_text_intelligently text)).
  generalize (fst (run (dispatch_chunks (_chunk_text_intelligently text)) llm)).
  generalize (_chunk_text_intelligently text).
  intros chunks results Hres Hrec.
  assert (length results = length chunks) as Hlen.
  { rewrite Hres, length_map. unfold enumerate. apply length_enumerate_from. }
  clear Hres.
  apply reconcile_returns in Hrec as (merged & all & found & Hm & Hr & _ & ->).
  rewrite Hm. cbn [and_then result_questions].
  pose proof (merge_traced results merged Hm) as Ht.
  assert (forall q, In q (all_questions merged) ->
                    detection_method q = Some (lit "llm")
                    /\ _validate_question q = true
                    /\ exists i, (i < length chunks)%nat
                                 /\ source_chunk q = Some (Chunk (i + 1))) as Hacc.
  { intros q Hq. rewrite List.Forall_forall in Ht. specialize (Ht q Hq).
    destruct (traced_in_range results q Ht) as (i & Hi & Hs).
    destruct Ht as (Hl & Hv & _). split; [exact Hl|]. split; [exact Hv|].
    exists i. split; [lia | exact Hs]. }
  apply List.Forall_forall. intros q Hq.
  unfold with_recovery in Hr.
  destruct (length (all_questions merged) <? 10)%nat eqn:E; [|injection Hr as <-; left; auto].
  apply and_then_inr in Hr as (recovery & Hrecover & Hr). injection Hr as <-.
  apply in_app_or in Hq as [Hq|Hq]; [left; auto|].
  right. apply recover_returns in Hrecover as (found' & Hf & ->).
  exists numbered, (all_questions merged), found'.
  split; [exact Hscan|]. split; [reflexivity|]. split; [exact Hf|].
  apply Nat.ltb_lt in E. split; [exact E|]. now apply missing_origin.
Qed.

(** *** The topics *)

Lemma count_topic_sum topic counts :
  list_sum (List.map snd (count_topic topic counts))
  = S (list_sum (List.map snd counts)).
Proof.
  induction counts as [|[t n] counts IH]; [reflexivity|].
  cbn [count_topic]. destruct (Py.eqb t topic); cbn [List.map snd list_sum fold_right].
  - reflexivity.
  - change (fold_right Nat.add 0%nat) with list_sum. rewrite IH. lia.
Qed.

Lemma count_topic_names topic counts x :
  In x (List.map fst (count_topic topic counts))
  <-> x = topic \/ In x (List.map fst counts).
Proof.
  induction counts as [|[t n] counts IH]; cbn [count_topic].
  - cbn. intuition congruence.
  - destruct (Py.eqb t topic) eqn:E; cbn [List.map fst In].
    + apply eqb_eq in E. subst t. intuition congruence.
    + rewrite IH. intuition congruence.
Qed.

Lemma count_topic_NoDup topic counts :
  List.NoDup (List.map fst counts) -> List.NoDup (List.map fst (count_topic topic counts)).
Proof.
  induction counts as [|[t n] counts IH]; cbn [count_topic]; intros H.
  - cbn. constructor; [intros [] | constructor].
  - cbn [List.map fst] in H. inversion H as [|? ? Hnot Hrest]; subst.
    destruct (Py.eqb t topic) eqn:E; cbn [List.map fst].
    + now constructor.
    + constructor; [|now apply IH].
      rewrite count_topic_names. intros [->|Hin]; [|contradiction].
      now rewrite eqb_refl in E.
Qed.

Lemma count_topic_positive topic counts :
  Forall (fun entry => (1 <= snd entry)%nat) counts ->
  Forall (fun entry => (1 <= snd entry)%nat) (count_topic topic counts).
Proof.
  induction 1 as [|[t n] counts Hn Hrest IH]; cbn [count_topic].
  - constructor; [cbn; lia | constructor].
  - destruct (Py.eqb t topic); constructor; cbn [snd] in *; auto; lia.
Qed.

Definition topic_of (q : question) : str :=
  match topic q with Some t => t | None => lit "Unknown" end.

Lemma topic_counts_facts (questions : list question) :
  list_sum (List.map snd (topic_counts questions)) = length questions
  /\ List.NoDup (List.map fst (topic_counts questions))
  /\ Forall (fun entry => (1 <= snd entry)%nat) (topic_counts questions)
  /\ (forall x, In x (List.map fst (topic_counts questions))
                <-> In x (List.map topic_of questions)).
Proof.
  unfold topic_counts.
  assert (forall counts,
            let out := fold_left (fun counts q => count_topic (topic_of q) counts)
                                 questions counts in
            list_sum (List.map snd out)
            = (list_sum (List.map snd counts) + length questions)%nat
            /\ (List.NoDup (List.map fst counts) -> List.NoDup (List.map fst out))
            /\ (Forall (fun entry => (1 <= snd entry)%nat) counts ->
                Forall (fun entry => (1 <= snd entry)%nat) out)
            /\ (forall x, In x (List.map fst out)
                          <-> In x (List.map fst counts)
                              \/ In x (List.map topic_of questions))) as H.
  { induction questions as [|q questions IH]; intros counts; cbn zeta; cbn [fold_left].
    - cbn [length List.map In]. rewrite Nat.add_0_r. intuition.
    - destruct (IH (count_topic (topic_of q) counts)) as (H1 & H2 & H3 & H4).
      rewrite H1, count_topic_sum. cbn [length List.map In].
      split; [lia|]. split; [|split].
      + intros Hn. now apply H2, count_topic_NoDup.
      + intros Hp. now apply H3, count_topic_positive.
      + intros x. rewrite H4, count_topic_names. intuition. }
  destruct (H []) as (H1 & H2 & H3 & H4). cbn [List.map list_sum fold_right] in *.
  split; [exact H1|]. split; [apply H2; constructor|]. split; [apply H3; constructor|].
  intros x. rewrite H4. cbn [In]. intuition.
Qed.

(** X16.  In the result of [analyze_text_with_llm] the topics have different
    names, each counts at least one question, the counts add up to
    [total_questions], which is the number of questions, and the names are
    the topics of the questions, ["Unknown"] standing for a missing one. *)
Theorem topic_counts_add_up (llm : oracle api_reply) (text : str) :
  let result := fst (run (analyze_text_with_llm text) llm) in
  list_sum (List.map snd (result_topics result)) = total_questions (result_summary result)
  /\ total_questions (result_summary result) = length (result_questions result)
  /\ topics_found (result_summary result) = length (result_topics result)
  /\ List.NoDup (List.map fst (result_topics result))
  /\ Forall (fun entry => (1 <= snd entry)%nat) (result_topics result)
  /\ (forall name,
        In name (List.map fst (result_topics result))
        <-> exists q, In q (result_questions result)
                      /\ name = match topic q with Some t => t | None => lit "Unknown" end).
Proof.
  lazy zeta. destruct (analyze_cases llm text) as [(numbered & _ & Hrec & _)|Hfail].
  - revert Hrec. generalize (fst (run (analyze_text_with_llm text) llm)). intros result.
    generalize (fst (run (dispatch_chunks (_chunk_text_intelligently text)) llm)).
    generalize (_chunk_text_intelligently text). intros chunks results Hrec.
    apply reconcile_returns in Hrec as (merged & questions & found & _ & _ & _ & ->).
    cbn [result_topics result_questions result_summary total_questions topics_found].
    destruct (topic_counts_facts questions) as (H1 & H2 & H3 & H4).
    split; [exact H1|]. split; [reflexivity|]. split; [reflexivity|].
    split; [exact H2|]. split; [exact H3|].
    intros name. rewrite H4, in_map_iff. unfold topic_of.
    split; intros (q & Ha & Hb); exists q; auto.
  - rewrite Hfail. cbn. split; [reflexivity|]. split; [reflexivity|]. split; [reflexivity|].
    split; [constructor|]. split; [constructor|].
    intros name. split; [intros [] | intros (q & [] & _)].
Qed.

(** *** Success and failure *)

Lemma readable_returns q :
  readable q
  <-> exists number,
        number_match numbered_prefix (strip (get (question_text q))) = inr number.
Proof.
  unfold readable. rewrite number_match_prefix. destruct (overlong _).
  - split; [discriminate | intros [number H]; discriminate H].
  - split; [intros _; eexists; reflexivity | reflexivity].
Qed.

(** X29.  [analyze_text_with_llm] succeeds exactly when the deterministic
    scan returns, the merge of the replies returns, which it does unless a
    reply that is used holds questions without length or an entry on which
    the code raises, and [int] returns on the number of every accepted
    question that has one: the recovery and the final validation then
    return too, since the recovered questions carry numbers that the scan
    has read.  In every other case the result is the result of the handler,
    without questions and without topics. *)
Theorem analysis_succeeds_iff (llm : oracle api_reply) (text : str) :
  let results := fst (run (dispatch_chunks (_chunk_text_intelligently text)) llm) in
  let result := fst (run (analyze_text_with_llm text) llm) in
  (processing_success (result_summary result) = true
   <-> exists numbered_questions merged,
         _extract_numbered_questions_deterministic text = inr numbered_questions
         /\ merge_results results = inr merged
         /\ Forall (fun q =>
                      exists number,
                        number_match numbered_prefix (strip (get (question_text q)))
                        = inr number)
                   (all_questions merged))
  /\ (processing_success (result_summary result) = false -> result = failure_result).
Proof.
  lazy zeta. generalize (analyze_cases llm text) (analyze_reconciles llm text). lazy zeta.
  generalize (fst (run (analyze_text_with_llm text) llm)).
  generalize (fst (run (dispatch_chunks (_chunk_text_intelligently text)) llm)).
  generalize (_chunk_text_intelligently text). intros chunks results result Hcases Hvalue.
  split; [split|].
  - intros Hok. destruct Hcases as [(numbered & Hscan & Hrec & _)|Hfail];
      [|rewrite Hfail in Hok; discriminate Hok].
    apply reconcile_returns in Hrec as (merged & all & found & Hm & Hr & Hf & _).
    exists numbered, merged. split; [exact Hscan|]. split; [exact Hm|].
    apply found_numbers_returns in Hf as [Hread _].
    apply List.Forall_forall. intros q Hq. apply readable_returns.
    rewrite List.Forall_forall in Hread. apply Hread.
    unfold with_recovery in Hr. destruct (length (all_questions merged) <? 10)%nat.
    + apply and_then_inr in Hr as (recovery & _ & Hr). injection Hr as <-.
      apply in_or_app. now left.
    + now injection Hr as <-.
  - intros (numbered & merged & Hscan & Hm & Hread).
    assert (Forall readable (all_questions merged)) as Hacc.
    { apply List.Forall_forall. intros q Hq. apply readable_returns.
      rewrite List.Forall_forall in Hread. now apply Hread. }
    rewrite Hvalue, Hscan. cbn [and_then]. unfold reconcile. rewrite Hm. cbn [and_then].
    assert (exists all, with_recovery numbered (all_questions merged) = inr all
                        /\ Forall readable all) as (all & -> & Hall).
    { unfold with_recovery. destruct (length (all_questions merged) <? 10)%nat;
        [|now exists (all_questions merged)].
      unfold _recover_missing_questions. rewrite (found_numbers_readable _ Hacc).
      cbn [and_then]. eexists. split; [reflexivity|].
      apply List.Forall_app. split; [exact Hacc|].
      apply missing_readable. now apply (scan_reads_back text). }
    cbn [and_then]. unfold _validate_against_deterministic_scan.
    rewrite (found_numbers_readable _ Hall). reflexivity.
  - intros Hko. destruct Hcases as [(numbered & _ & _ & Hok)|Hfail]; [|exact Hfail].
    rewrite Hok in Hko. discriminate Hko.
Qed.

(** A reply wrapped in text whose object holds a number for its questions
    is salvaged by [_call_openai_api] at the first attempt, and phase 3
    raises on it: the analysis fails. *)
Example miscounted_reply_fails :
  run (analyze_text_with_llm two_questions) miscounting_model
  = (failure_result,
     [(0%nat, 0%nat, lit "2. Which protocol encrypts web traffic today?"
                     ++ [nl] ++ lit "A) TLS  B) FTP")]).
Proof. vm_compute. reflexivity. Qed.

(** A text with a line that starts with a number of 4301 digits: the scan
    raises, and the analysis fails without a request. *)
Example overlong_line_fails :
  run (analyze_text_with_llm long_numeral) flaky_model = (failure_result, []).
Proof. vm_compute. reflexivity. Qed.

End ResultSpec.

(** ** The analysis endpoint *)

Module ApiSpec.

Import Api.

Section Boundary.

Variable new_processors : raising unit.
Variable extract_text : str -> raising (option str).
Variable analyze : str -> raising LLMService.analysis_result.

(** Whatever the endpoint raises is an [HTTPException] of status 500: the
    handler of the [try] block catches every exception raised in it. *)
Lemma every_failure_is_500 document_id e :
  analyze_document new_processors extract_text analyze document_id = inl e ->
  exists detail, e = HTTPException 500 detail.
Proof.
  unfold analyze_document, try_except, raise.
  destruct new_processors as [e0|[]]; [intros [= <-]; eexists; reflexivity|].
  destruct (extract_text document_id) as [e0|[[|c t]|]];
    try (intros [= <-]; eexists; reflexivity).
  destruct (analyze (c :: t)); [intros [= <-]; eexists; reflexivity | discriminate].
Qed.

End Boundary.

(** C8.  When the extraction yields no text, the [HTTPException] of status
    400 raised in the [try] block is caught by the handler of that block
    and replaced by one of status 500: the endpoint answers 500, with the
    400 only inside the detail.  It answers 500 as well when one of the
    constructors at the head of the block raises, whatever the extraction
    would yield. *)
Theorem no_text_answers_500 (analyze : str -> raising LLMService.analysis_result)
    (document_id : str) :
  analyze_document (inr tt) (fun _ => inr None) analyze document_id
  = inl (HTTPException 500
           (lit "Analysis failed: 400: No text could be extracted from document"))
  /\ analyze_document (inr tt) (fun _ => inr (Some [])) analyze document_id
     = inl (HTTPException 500
              (lit "Analysis failed: 400: No text could be extracted from document"))
  /\ (forall e extract_text,
        analyze_document (inl e) extract_text analyze document_id
        = inl (HTTPException 500 (lit "Analysis failed: " ++ exn_str e))).
Proof. split; [|split]; reflexivity. Qed.

End ApiSpec.

(** ** The outcomes of the endpoint *)

Module EndpointSpec.

Import Api.

(** X17.  [analyze_document] answers with a response exactly when the two
    constructors return, the extraction gives a text that is not empty and
    the analysis of that text returns; the response then has the status
    ["completed"] and counts the questions and the topics of the analysis.
    In every other case it raises [HTTPException] with status 500 and a
    detail that starts with ["Analysis failed: "], followed by the text of
    what was raised inside: by a constructor, before any extraction; by the
    extraction; the exception of status 400 for a missing or empty text; or
    by the analysis. *)
Theorem analyze_document_outcome
    (new_processors : raising unit)
    (extract_text : str -> raising (option str))
    (analyze : str -> raising LLMService.analysis_result) (request_document_id : str) :
  match analyze_document new_processors extract_text analyze request_document_id with
  | inr response =>
      new_processors = inr tt
      /\ exists text analysis,
           extract_text request_document_id = inr (Some text) /\ text <> []
           /\ analyze text = inr analysis
           /\ response = {| document_id := request_document_id;
                            status := lit "completed";
                            questions_found := length (LLMService.result_questions analysis);
                            topics_identified := length (LLMService.result_topics analysis);
                            analysis_data := analysis |}
  | inl e =>
      exists inner,
        e = HTTPException 500 (lit "Analysis failed: " ++ exn_str inner)
        /\ (new_processors = inl inner
            \/ (new_processors = inr tt
                /\ (extract_text request_document_id = inl inner
                    \/ ((extract_text request_document_id = inr None
                         \/ extract_text request_document_id = inr (Some []))
                        /\ inner = HTTPException 400
                                     (lit "No text could be extracted from document"))
                    \/ exists text,
                         extract_text request_document_id = inr (Some text) /\ text <> []
                         /\ analyze text = inl inner)))
  end.
Proof.
  unfold analyze_document, try_except, raise.
  destruct new_processors as [e|[]]; [exists e; split; [reflexivity | now left]|].
  destruct (extract_text request_document_id) as [e|[[|c text]|]] eqn:E.
  - exists e. split; [reflexivity|]. right. split; [reflexivity | now left].
  - eexists. split; [reflexivity|]. right. split; [reflexivity|].
    right; left. split; [now right | reflexivity].
  - destruct (analyze (c :: text)) as [e|analysis] eqn:A.
    + exists e. split; [reflexivity|]. right. split; [reflexivity|]. right; right.
      exists (c :: text). repeat split; [discriminate | exact A].
    + split; [reflexivity|]. exists (c :: text), analysis.
      repeat split; [discriminate | exact A].
  - eexists. split; [reflexivity|]. right. split; [reflexivity|].
    right; left. split; [now left | reflexivity].
Qed.

End EndpointSpec.

(** ** The text of a document *)

Module ParserSpec.

Import SimplePDFParser PyFacts TextFacts LogFacts ChunkerSpec.

Definition no_newline (line : str) : Prop := ~ In nl line.

Lemma startswith_newline_other c t : c <> nl -> startswith [nl] (c :: t) = false.
Proof.
  intros H. cbn [startswith]. apply andb_false_iff. left. apply N.eqb_neq. congruence.
Qed.

Lemma split_from_line line : forall cur rest,
  no_newline line ->
  split_from [nl] 0 cur (line ++ rest) = split_from [nl] 0 (rev line ++ cur) rest.
Proof.
  induction line as [|c line IH]; intros cur rest H; [reflexivity|].
  cbn [app]. rewrite split_from_other.
  - rewrite IH; [|intros Hin; apply H; now right].
    cbn [rev]. now rewrite <- app_assoc.
  - apply startswith_newline_other. intros ->. apply H. now left.
Qed.

Lemma split_lines_no_newline s : forall cur,
  no_newline cur -> Forall no_newline (split_from [nl] 0 cur s).
Proof.
  apply (split_from_cases [nl] (fun cur s l => no_newline cur -> Forall no_newline l));
    [discriminate | | |].
  - intros cur H. constructor; [|constructor]. intros Hin. apply H. now apply in_rev.
  - intros cur rest IH H. constructor; [|apply IH; intros []].
    intros Hin. apply H. now apply in_rev.
  - intros cur c t E IH H. apply IH. intros [Hc|Hin]; [|now apply H].
    subst c. cbn [startswith] in E. now rewrite N.eqb_refl in E.
Qed.

(** [split] undoes [join], on lines. *)
Lemma split_join_lines lines : forall cur,
  lines <> [] -> Forall no_newline lines ->
  split_from [nl] 0 cur (join [nl] lines) = (rev cur ++ hd [] lines) :: tl lines.
Proof.
  induction lines as [|x lines IH]; intros cur Hne H; [congruence|].
  inversion H as [|? ? Hx Hrest]; subst. destruct lines as [|y lines].
  - cbn [join hd tl]. rewrite <- (app_nil_r x) at 1. rewrite split_from_line by exact Hx.
    rewrite split_from_end, rev_app_distr, rev_involutive. reflexivity.
  - rewrite join_cons by discriminate. rewrite split_from_line by exact Hx.
    rewrite (split_from_sep [nl]) by discriminate.
    rewrite rev_app_distr, rev_involutive.
    rewrite IH; [reflexivity | discriminate | exact Hrest].
Qed.

Lemma concat_filter_nonempty (l : list str) : concat (List.filter nonempty l) = concat l.
Proof.
  induction l as [|x l IH]; [reflexivity|].
  destruct x; cbn [List.filter nonempty concat]; [exact IH|]. now rewrite IH.
Qed.

Lemma ink_concat_strip (l : list str) : ink (concat (List.map strip l)) = ink (concat l).
Proof.
  induction l as [|x l IH]; [reflexivity|].
  cbn [List.map concat]. now rewrite !ink_app, ink_strip, IH.
Qed.

Lemma clean_text_ink text : ink (_clean_text text) = ink text.
Proof.
  destruct text as [|c text]; [reflexivity|]. unfold _clean_text.
  rewrite ink_join by reflexivity.
  rewrite concat_filter_nonempty, ink_concat_strip.
  apply ink_split; [discriminate | reflexivity].
Qed.

(** The lines that [_clean_text] joins. *)
Definition cleaned_lines (text : str) : list str :=
  List.filter nonempty (List.map strip (split [nl] text)).

Lemma cleaned_lines_kept text : Forall (fun l => kept l /\ no_newline l) (cleaned_lines text).
Proof.
  unfold cleaned_lines. apply List.Forall_forall. intros l Hl.
  apply filter_In in Hl as [Hl Hne]. apply in_map_iff in Hl as (x & <- & Hx).
  split; [split; [apply strip_trimmed | now destruct (strip x)]|].
  generalize (split_lines_no_newline text [] (fun H => H)). intros F.
  rewrite List.Forall_forall in F. specialize (F x Hx).
  unfold no_newline in *. intros Hin. apply F.
  generalize (strip_Forall (fun c => c <> nl) x). intros S.
  assert (Forall (fun c => c <> nl) (strip x) -> ~ In nl (strip x)) as Hno.
  { intros Hall Hin'. rewrite List.Forall_forall in Hall. now apply (Hall nl). }
  destruct (in_dec N.eq_dec nl x) as [Hd|Hd]; [exact Hd|].
  exfalso. apply Hno; [|exact Hin]. apply S.
  apply List.Forall_forall. intros c Hc ->. now apply Hd.
Qed.

Lemma clean_text_eq text : _clean_text text = join [nl] (cleaned_lines text).
Proof. destruct text; reflexivity. Qed.

Lemma kept_lines_fix (lines : list str) :
  Forall kept lines -> List.filter nonempty (List.map strip lines) = lines.
Proof.
  induction 1 as [|l ls [Ht Hne] _ IH]; [reflexivity|].
  cbn [List.map List.filter]. rewrite (trimmed_strip l Ht), IH.
  now destruct l.
Qed.

Lemma clean_text_fix text : _clean_text (_clean_text text) = _clean_text text.
Proof.
  rewrite (clean_text_eq text).
  generalize (cleaned_lines_kept text). generalize (cleaned_lines text). intros lines H.
  destruct lines as [|x lines]; [reflexivity|].
  rewrite clean_text_eq. unfold cleaned_lines, split.
  rewrite split_join_lines;
    [|discriminate | revert H; apply List.Forall_impl; now intros l [_ Hl]].
  cbn [rev app hd tl]. f_equal. apply kept_lines_fix.
  revert H. apply List.Forall_impl. now intros l [Hk _].
Qed.

(** X18.  [_clean_text] removes white space only; what it returns is empty
    or is made of lines that are not empty and have no white space at either
    end; and on what it returns it changes nothing. *)
Theorem clean_text_normal_form (text : str) :
  let out := _clean_text text in
  List.filter (fun c => negb (isspace c)) out = List.filter (fun c => negb (isspace c)) text
  /\ (out = []
      \/ Forall (fun line => line <> [] /\ strip line = line) (split [nl] out))
  /\ _clean_text out = out.
Proof.
  cbn zeta. split; [apply clean_text_ink|]. split; [|apply clean_text_fix].
  rewrite clean_text_eq.
  generalize (cleaned_lines_kept text). generalize (cleaned_lines text). intros lines H.
  destruct lines as [|x lines]; [now left|]. right.
  unfold split. rewrite split_join_lines;
    [|discriminate | revert H; apply List.Forall_impl; now intros l [_ Hl]].
  cbn [rev app hd tl]. revert H. apply List.Forall_impl.
  intros l [[Ht Hne] _]. split; [exact Hne | now apply trimmed_strip].
Qed.

(** *** No empty line *)

Lemma split_paragraph_line line : forall cur rest,
  no_newline line ->
  split_from [nl; nl] 0 cur (line ++ rest) = split_from [nl; nl] 0 (rev line ++ cur) rest.
Proof.
  induction line as [|c line IH]; intros cur rest H; [reflexivity|].
  cbn [app]. rewrite split_from_other.
  - rewrite IH; [|intros Hin; apply H; now right].
    cbn [rev]. now rewrite <- app_assoc.
  - cbn [startswith]. assert (c <> nl) as Hc by (intros ->; apply H; now left).
    apply andb_false_iff. left. apply N.eqb_neq. congruence.
Qed.

Lemma split_paragraph_lines lines : forall cur,
  Forall (fun l => l <> [] /\ no_newline l) lines ->
  split_from [nl; nl] 0 cur (join [nl] lines) = [rev cur ++ join [nl] lines].
Proof.
  induction lines as [|x lines IH]; intros cur H.
  - cbn [join]. now rewrite split_from_end, app_nil_r.
  - inversion H as [|? ? [Hx Hnl] Hrest]; subst. destruct lines as [|y lines].
    + cbn [join]. rewrite <- (app_nil_r x) at 1. rewrite split_paragraph_line by exact Hnl.
      now rewrite split_from_end, rev_app_distr, rev_involutive.
    + rewrite join_cons by discriminate. rewrite split_paragraph_line by exact Hnl.
      inversion Hrest as [|? ? [Hy Hynl] _]; subst.
      destruct y as [|c y]; [congruence|].
      assert (exists rest, join [nl] ((c :: y) :: lines) = c :: rest) as [rest Hj].
      { destruct lines; [now exists y|]. rewrite join_cons by discriminate. now eexists. }
      cbn [app]. rewrite split_from_other.
      * rewrite IH by exact Hrest. cbn [rev]. rewrite rev_app_distr, rev_involutive.
        now rewrite <- !app_assoc.
      * rewrite Hj. cbn [startswith]. rewrite N.eqb_refl.
        assert (c <> nl) as Hc by (intros ->; apply Hynl; now left).
        cbn [andb]. apply andb_false_iff. left. apply N.eqb_neq. congruence.
Qed.

(** X19.  A text that [_clean_text] returns has no empty line, so splitting
    it at ["\n\n"], as both chunkers do to find paragraphs, gives the text
    itself as its only paragraph. *)
Theorem cleaned_text_is_one_paragraph (text : str) :
  split [nl; nl] (_clean_text text) = [_clean_text text].
Proof.
  rewrite clean_text_eq. unfold split.
  rewrite split_paragraph_lines; [reflexivity|].
  generalize (cleaned_lines_kept text). apply List.Forall_impl.
  now intros l [[_ Hne] Hnl].
Qed.

(** *** The pages *)

Lemma page_steps_keep entries : forall text,
  In 45 text -> In 45 (fold_left page_step entries text).
Proof.
  induction entries as [|[[|page_text] n] entries IH]; intros text H; cbn [fold_left].
  - exact H.
  - now apply IH.
  - apply IH. cbn [page_step]. apply in_or_app. now left.
Qed.

Lemma page_steps_text entries : forall text,
  Exists (fun entry : page * nat => fst entry <> PageRaises) entries ->
  In 45 (fold_left page_step entries text).
Proof.
  induction entries as [|[[|page_text] n] entries IH]; intros text H; cbn [fold_left].
  - inversion H.
  - apply IH. inversion H as [? ? Hh|? ? Ht]; subst; [now cbn in Hh | exact Ht].
  - apply page_steps_keep. cbn [page_step]. apply in_or_app. right.
    right. now left.
Qed.

Lemma page_steps_none entries : forall text,
  Forall (fun entry : page * nat => fst entry = PageRaises) entries ->
  fold_left page_step entries text = text.
Proof.
  induction entries as [|[p n] entries IH]; intros text H; [reflexivity|].
  inversion H as [|? ? Hp Hrest]; subst. cbn in Hp. subst p. cbn [fold_left page_step].
  now apply IH.
Qed.

Lemma enumerate_from_fst {A} (P : A -> Prop) (l : list A) : forall n,
  (Forall P l <-> Forall (fun entry : A * nat => P (fst entry)) (enumerate_from n l)).
Proof.
  induction l as [|a l IH]; intros n; cbn [enumerate_from].
  - split; constructor.
  - split; intros H; inversion H; subst; constructor; auto; now apply (IH (S n)).
Qed.

Lemma pages_read_or_not (pages : list page) : forall n,
  Forall (fun page => page = PageRaises) pages
  \/ Exists (fun entry : page * nat => fst entry <> PageRaises) (enumerate_from n pages).
Proof.
  induction pages as [|[|page_text] pages IH]; intros n; cbn [enumerate_from].
  - left. constructor.
  - destruct (IH (S n)) as [H|H]; [left; now constructor | right; now constructor 2].
  - right. constructor. discriminate.
Qed.

(** X20.  [extract_text] returns [None] only when there is no file or the
    file cannot be read; for a PDF it returns a text, which is empty exactly
    when no page could be read: a page that is read adds its header
    ["--- Page n ---"], even when the page holds no text. *)
Theorem extract_text_empty_iff_no_page (pages : list page) :
  exists text,
    extract_text (Pdf pages) = Some text
    /\ (text = [] <-> Forall (fun page => page = PageRaises) pages).
Proof.
  eexists. split; [reflexivity|].
  unfold enumerate. split.
  - intros E. destruct (pages_read_or_not pages 0) as [H|Hex]; [exact H|].
    assert (In 45 (ink (fold_left page_step (enumerate_from 0 pages) []))) as Hink.
    { apply filter_In. split; [now apply page_steps_text | reflexivity]. }
    rewrite <- clean_text_ink, E in Hink. destruct Hink.
  - intros H. rewrite page_steps_none; [reflexivity|].
    now apply (enumerate_from_fst (fun p => p = PageRaises)).
Qed.

End ParserSpec.

(** ** The analyzer *)

Module AnalyzerSpec.

Import LLMService LLMQuestionAnalyzer Measures Samples Scenarios PyFacts TextFacts LogFacts.
Import ChunkerSpec RaisingFacts RecoverySpec ReconcilerSpec ResultSpec.

(** *** Numbers in identifiers *)

Lemma lit_inj (a b : string) : lit a = lit b -> a = b.
Proof.
  unfold lit. revert b. induction a as [|x a IH]; intros [|y b] H; try discriminate H.
  - reflexivity.
  - cbn in H. injection H as Hx Hrest. f_equal; [|now apply IH].
    rewrite <- (ascii_N_embedding x), <- (ascii_N_embedding y). now rewrite Hx.
Qed.

Lemma of_nat_inj n m : of_nat n = of_nat m -> n = m.
Proof.
  unfold of_nat. intros H. apply lit_inj in H.
  apply (f_equal NilEmpty.uint_of_string) in H. rewrite !NilEmpty.usu in H.
  injection H as H. apply (f_equal Nat.of_uint) in H.
  now rewrite !DecimalNat.Unsigned.of_to in H.
Qed.

(** *** [_fallback_analysis] *)

(** The test that the fallback makes on a stripped line. *)
Definition asks (line : str) : bool :=
  contains (lit "?") line && (15 <? length line)%nat.

Definition picked (entry : str * nat) : bool := asks (strip (fst entry)).

Lemma fallback_questions_eq text :
  fallback_questions (_fallback_analysis text)
  = List.map (fun entry => fallback_question (strip (fst entry)) (snd entry))
             (List.filter picked (enumerate (Py.split [nl] text))).
Proof.
  unfold _fallback_analysis. cbn [fallback_questions].
  generalize (enumerate (Py.split [nl] text)). intros entries.
  induction entries as [|[line i] entries IH]; [reflexivity|].
  cbn [flat_map List.filter]. unfold picked at 1, asks. cbn [fst].
  destruct (contains (lit "?") (strip line) && _); cbn [app List.map fst snd];
    now rewrite IH.
Qed.

Lemma enumerate_from_indices {A} (l : list A) : forall n,
  List.map snd (enumerate_from n l) = seq n (length l).
Proof. induction l as [|a l IH]; intros n; cbn; [reflexivity|]. now rewrite IH. Qed.

Lemma NoDup_map_inj {A B} (f : A -> B) (l : list A) :
  (forall x y, f x = f y -> x = y) -> List.NoDup l -> List.NoDup (List.map f l).
Proof.
  intros Hf. induction 1 as [|a l Hnot Hrest IH]; cbn [List.map]; constructor; [|exact IH].
  intros Hin. apply Hnot. apply in_map_iff in Hin as (x & Hx & Hin).
  now rewrite <- (Hf x a Hx).
Qed.

Lemma NoDup_filter_map {A B} (f : A -> B) (p : A -> bool) (l : list A) :
  List.NoDup (List.map f l) -> List.NoDup (List.map f (List.filter p l)).
Proof.
  induction l as [|a l IH]; cbn [List.map List.filter]; intros H; [constructor|].
  inversion H as [|? ? Hnot Hrest]; subst.
  destruct (p a); [|now apply IH]. cbn [List.map]. constructor; [|now apply IH].
  intros Hin. apply Hnot. apply in_map_iff in Hin as (x & Hx & Hin).
  apply in_map_iff. exists x. split; [exact Hx|]. now apply filter_In in Hin as [Hin _].
Qed.

Lemma picked_texts (lines : list str) : forall n,
  List.map question_text
    (List.map (fun entry => fallback_question (strip (fst entry)) (snd entry))
              (List.filter picked (enumerate_from n lines)))
  = List.map Some (List.filter asks (List.map strip lines)).
Proof.
  induction lines as [|line lines IH]; intros n; [reflexivity|].
  cbn [enumerate_from List.filter List.map]. unfold picked at 1. cbn [fst].
  destruct (asks (strip line)); cbn [List.map fst snd question_text fallback_question];
    now rewrite IH.
Qed.

(** X21.  The questions of [_fallback_analysis] are the stripped lines of the
    text that hold a question mark and have more than fifteen characters,
    in the order of the lines; their identifiers are pairwise different; and
    the one topic, when there is a question, counts them all. *)
Theorem fallback_questions_are_marked_lines (text : str) :
  let result := _fallback_analysis text in
  List.map question_text (fallback_questions result)
  = List.map Some
      (List.filter (fun line => contains (lit "?") line && (15 <? length line)%nat)
                   (List.map strip (Py.split [nl] text)))
  /\ List.NoDup (List.map question_id (fallback_questions result))
  /\ fallback_total_questions result = length (fallback_questions result)
  /\ list_sum (List.map snd (fallback_topics result)) = length (fallback_questions result).
Proof.
  cbn zeta. split; [|split; [|split]].
  - rewrite fallback_questions_eq. apply picked_texts.
  - rewrite fallback_questions_eq, List.map_map. cbn [question_id fallback_question].
    assert (List.NoDup
              (List.map (fun entry : str * nat => Some (lit "fallback_q_" ++ of_nat (snd entry)))
                        (enumerate (Py.split [nl] text)))) as H.
    { rewrite <- (List.map_map snd (fun i => Some (lit "fallback_q_" ++ of_nat i))).
      unfold enumerate. rewrite enumerate_from_indices.
      apply NoDup_map_inj; [|apply seq_NoDup].
      intros i j E. injection E as E. now apply of_nat_inj. }
    now apply NoDup_filter_map.
  - reflexivity.
  - unfold _fallback_analysis. cbn [fallback_questions fallback_topics].
    destruct (flat_map _ _); [reflexivity|]. cbn [List.map snd list_sum fold_right]. lia.
Qed.

(** *** [_validate_and_enhance_result] *)

(** All six entries of the question are present and true for Python. *)
Definition complete (q : question) : Prop :=
  falsy (question_id q) = false /\ falsy (question_text q) = false
  /\ falsy (question_type q) = false /\ falsy (topic q) = false
  /\ falsy (difficulty q) = false
  /\ exists c, confidence_score q = Some c /\ Qeq_bool c 0 = false.

Lemma or_default_truthy value (default : string) :
  lit default <> [] -> falsy (or_default value default) = false.
Proof.
  intros H. unfold or_default. destruct (falsy value) eqn:E; [|exact E].
  cbn [falsy]. destruct (lit default); [congruence | reflexivity].
Qed.

Lemma or_default_fix value (default : string) :
  falsy value = false -> or_default value default = value.
Proof. intros H. unfold or_default. now rewrite H. Qed.

Lemma enhance_question_complete n q : complete (enhance_question n q).
Proof.
  unfold complete, enhance_question.
  cbn [question_id question_text question_type topic difficulty confidence_score].
  split; [|repeat (split; [now apply or_default_truthy|])].
  - destruct (falsy (question_id q)) eqn:E; [reflexivity | exact E].
  - destruct (confidence_score q) as [c|]; [|now exists default_confidence].
    destruct (Qeq_bool c 0) eqn:E; [now exists default_confidence | now exists c].
Qed.

Lemma enhance_question_fix n q : complete q -> enhance_question n q = q.
Proof.
  intros (H1 & H2 & H3 & H4 & H5 & c & H6 & H7). destruct q. cbn in *.
  unfold enhance_question.
  cbn [question_id question_text question_type topic difficulty confidence_score
       source_chunk detection_method question_number].
  rewrite H1, !or_default_fix by assumption. subst. now rewrite H7.
Qed.

Lemma enhance_questions_fix n (qs : list question) :
  Forall complete qs -> List.map (enhance_question n) qs = qs.
Proof.
  induction 1 as [|q qs Hq _ IH]; [reflexivity|].
  cbn [List.map]. now rewrite (enhance_question_fix n q Hq), IH.
Qed.

(** X22.  After [_validate_and_enhance_result] every question has an
    identifier, a text, a type, a topic, a difficulty and a confidence that
    is not zero; the summary counts the questions and the topics; and a
    second run changes nothing. *)
Theorem enhanced_result_is_complete (result : analysis_result) :
  let enhanced := _validate_and_enhance_result result in
  Forall complete (result_questions enhanced)
  /\ total_questions (result_summary enhanced) = length (result_questions enhanced)
  /\ topics_found (result_summary enhanced) = length (result_topics enhanced)
  /\ _validate_and_enhance_result enhanced = enhanced.
Proof.
  cbn zeta.
  assert (Forall complete (result_questions (_validate_and_enhance_result result))) as H.
  { unfold _validate_and_enhance_result. cbn [result_questions].
    apply List.Forall_forall. intros q Hq. apply in_map_iff in Hq as (q0 & <- & _).
    apply enhance_question_complete. }
  split; [exact H|]. split; [|split].
  - unfold _validate_and_enhance_result. cbn. now rewrite length_map.
  - reflexivity.
  - unfold _validate_and_enhance_result in *.
    cbn [result_questions result_topics result_summary total_questions topics_found
         summary_question_types chunks_processed processing_success] in *.
    rewrite (enhance_questions_fix _ _ H), !length_map. reflexivity.
Qed.

(** *** The two on the result of the analysis *)

Lemma validated_text q : _validate_question q = true -> falsy (question_text q) = false.
Proof.
  unfold _validate_question.
  destruct (question_text q) as [[|c s]|]; cbn [get]; try discriminate; reflexivity.
Qed.

Lemma merged_identified results merged :
  merge_results results = inr merged ->
  Forall (fun q => falsy (question_id q) = false) (all_questions merged).
Proof.
  unfold merge_results.
  apply (fold_raising_invariant
           (fun st => Forall (fun q => falsy (question_id q) = false) (all_questions st)));
    [constructor|].
  intros st [result i] st' Hst Hin. unfold result_step.
  destruct result as [[[[qs|]|]]|]; try discriminate; try (now intros [= <-]).
  apply (fold_raising_invariant
           (fun st => Forall (fun q => falsy (question_id q) = false) (all_questions st)));
    [exact Hst|].
  intros a [q|] a' Ha _; [|discriminate]. cbn [question_step]. intros [= <-].
  destruct (_validate_question q); [|exact Ha]. cbn [all_questions].
  apply List.Forall_app. split; [exact Ha|].
  constructor; [reflexivity | constructor].
Qed.

Lemma recovered_identified det_q :
  (20 < length (strip (det_text det_q)))%nat ->
  falsy (question_id (recovered_question det_q)) = false
  /\ falsy (question_text (recovered_question det_q)) = false.
Proof.
  intros H. split; [reflexivity|]. cbn [question_text recovered_question falsy].
  destruct (det_text det_q); [cbn in H; lia | reflexivity].
Qed.

Definition identified (q : question) : Prop :=
  falsy (question_id q) = false /\ falsy (question_text q) = false.

Lemma result_identified numbered chunks results result :
  reconcile numbered chunks results = inr result ->
  Forall identified (result_questions result).
Proof.
  intros H. apply reconcile_returns in H as (merged & all & found & Hm & Hr & _ & ->).
  cbn [result_questions].
  pose proof (merge_traced results merged Hm) as Hv.
  pose proof (merged_identified results merged Hm) as Hi.
  assert (Forall identified (all_questions merged)) as Ha.
  { apply List.Forall_forall. intros q Hq. rewrite List.Forall_forall in Hv, Hi.
    split; [now apply Hi | apply validated_text; now apply Hv]. }
  unfold with_recovery in Hr.
  destruct (length (all_questions merged) <? 10)%nat; [|now injection Hr as <-].
  apply and_then_inr in Hr as (recovery & Hrecover & Hr). injection Hr as <-.
  apply recover_returns in Hrecover as (found' & _ & ->).
  apply List.Forall_app. split; [exact Ha|].
  apply List.Forall_forall. intros q Hq.
  apply missing_origin in Hq as (det_q & _ & -> & _ & Hlen).
  now apply recovered_identified.
Qed.

Lemma enhance_identified n q :
  identified q ->
  question_id (enhance_question n q) = question_id q
  /\ question_text (enhance_question n q) = question_text q.
Proof.
  intros [H1 H2]. unfold enhance_question. cbn [question_id question_text].
  now rewrite H1, or_default_fix.
Qed.

(** X23.  On a result of [analyze_text_with_llm], [_validate_and_enhance_result]
    leaves every identifier and every text as it is: phase 3 and the
    recovery have given each question both, so the replacement identifier
    and the replacement text are never used there. *)
Theorem enhancement_keeps_ids_and_texts (llm : oracle api_reply) (text : str) :
  let result := fst (run (analyze_text_with_llm text) llm) in
  let enhanced := _validate_and_enhance_result result in
  List.map question_id (result_questions enhanced)
  = List.map question_id (result_questions result)
  /\ List.map question_text (result_questions enhanced)
     = List.map question_text (result_questions result).
Proof.
  lazy zeta.
  assert (Forall identified (result_questions (fst (run (analyze_text_with_llm text) llm))))
    as H.
  { destruct (analyze_cases llm text) as [(numbered & _ & Hrec & _)|Hfail];
      [|rewrite Hfail; constructor].
    revert Hrec. generalize (fst (run (analyze_text_with_llm text) llm)).
    generalize (fst (run (dispatch_chunks (_chunk_text_intelligently text)) llm)).
    generalize (_chunk_text_intelligently text). intros chunks results result.
    apply result_identified. }
  revert H. generalize (fst (run (analyze_text_with_llm text) llm)). intros result H.
  unfold _validate_and_enhance_result. cbn [result_questions].
  generalize (length (result_questions result)). intros n.
  induction H as [|q qs Hq _ [IH1 IH2]]; [now split|].
  cbn [List.map]. destruct (enhance_identified n q Hq) as [-> ->].
  now rewrite IH1, IH2.
Qed.

(** *** [analyze] *)

Definition questions_of (a : analysis) : list question :=
  match a with
  | ByModel result => result_questions result
  | ByFallback result => fallback_questions result
  end.

Lemma fallback_type_truthy line : falsy (Some (fallback_question_type line)) = false.
Proof.
  unfold fallback_question_type.
  destruct (List.existsb _ _); [reflexivity|].
  destruct (List.existsb _ _); [reflexivity|].
  now destruct (_ <? _)%nat.
Qed.

Lemma fallback_complete text : Forall complete (fallback_questions (_fallback_analysis text)).
Proof.
  rewrite fallback_questions_eq. apply List.Forall_forall. intros q Hq.
  apply in_map_iff in Hq as ([line i] & <- & Hin).
  apply filter_In in Hin as [_ Hp]. unfold picked, asks in Hp. cbn [fst snd] in *.
  apply andb_prop in Hp as [_ Hlen]. apply Nat.ltb_lt in Hlen.
  unfold complete, fallback_question.
  cbn [question_id question_text question_type topic difficulty confidence_score].
  split; [reflexivity|]. split; [destruct (strip line); [cbn in Hlen; lia | reflexivity]|].
  split; [apply fallback_type_truthy|]. split; [reflexivity|]. split; [reflexivity|].
  now exists fallback_confidence.
Qed.

(** X24.  Whichever way [analyze] goes, every question it returns has an
    identifier, a text, a type, a topic, a difficulty and a confidence that
    is not zero; when the connection test fails it returns the result of the
    fallback and sends no request for the text. *)
Theorem analyze_questions_complete (api_connected : bool) (llm : oracle api_reply)
    (text : str) :
  Forall complete (questions_of (fst (run (analyze api_connected text) llm)))
  /\ run (analyze false text) llm = (ByFallback (_fallback_analysis text), []).
Proof.
  split; [|reflexivity]. destruct api_connected.
  - unfold analyze, run, bind, ret. cbn [negb].
    destruct (analyze_text_with_llm text llm []) as [result log]. cbn [fst questions_of].
    unfold _validate_and_enhance_result. cbn [result_questions].
    apply List.Forall_forall. intros q Hq. apply in_map_iff in Hq as (q0 & <- & _).
    apply enhance_question_complete.
  - unfold analyze, run, ret. cbn [negb fst questions_of]. apply fallback_complete.
Qed.

(** The topics are counted before the questions are completed: a question
    without a topic is counted under ["Unknown"] and then given the topic
    ["General"]. *)
Example unknown_topic_becomes_general :
  let result := questions_of (fst (run (analyze true (lit "1. What is a firewall used for?"))
                                       untopical_model)) in
  List.map topic result = [Some (lit "General")]
  /\ match fst (run (analyze true (lit "1. What is a firewall used for?")) untopical_model) with
     | ByModel r => List.map fst (result_topics r) = [lit "Unknown"]
     | ByFallback _ => False
     end.
Proof. split; vm_compute; reflexivity. Qed.

End AnalyzerSpec.

(** ** The validator *)

Module ValidatorSpec.

Import LLMService Samples PyFacts.

(** X28.  A question that [_validate_question] accepts has a text of at
    least ten characters once stripped, and a confidence, when it states
    one, of at least 0.01. *)
Theorem validated_is_long_and_confident (q : question) :
  _validate_question q = true ->
  (10 <= length (strip (get (question_text q))))%nat
  /\ match confidence_score q with
     | Some confidence => (confidence_floor <= confidence)%Q
     | None => True
     end.
Proof.
  unfold _validate_question.
  destruct (negb (nonempty (strip (get (question_text q)))) || _) eqn:E; [discriminate|].
  apply orb_false_elim in E as [_ E]. apply Nat.ltb_ge in E.
  destruct (List.existsb _ reject_patterns); [discriminate|].
  destruct (negb (_ || _)); [discriminate|].
  destruct (negb (Qle_bool confidence_floor _)) eqn:C; [discriminate|].
  intros _. split; [exact E|].
  apply negb_false_iff, Qle_bool_iff in C.
  destruct (confidence_score q); [exact C | exact I].
Qed.

Lemma validated_is_long_and_confident_witness :
  (10 <= length (strip (lit "What is a firewall used for?")))%nat
  /\ (confidence_floor <= 95 # 100)%Q.
Proof.
  apply (validated_is_long_and_confident (answer "What is a firewall used for?")).
  vm_compute. reflexivity.
Defined.

End ValidatorSpec.
